(** * SuperCard firmware flashing tool: address codec, SHA-256 and flash
    controller

    A shallow embedding of [source/main.c] and [source/sha256.c].  Machine
    integers are [Z] with the wrap-around of their C type written out, byte
    buffers are [list Z] (every element in [0, 256)), the cartridge bus is a
    device model threaded through every flash operation together with a log
    of the bus accesses made. *)

From Stdlib Require Import String ZArith List Lia Bool.
From Stdlib Require Import Permutation.
From coqutil Require Import Z.prove_Zeq_bitwise.
Import ListNotations.
Local Open Scope Z_scope.

(* ================================================================== *)
(** * Machine words *)

(** [uint8_t], [uint16_t] and [uint32_t] results are reduced modulo their
    width: the low 8, 16 or 32 bits are kept. *)
Definition u8 (x : Z) : Z := Z.land x 0xFF.
Definition u16 (x : Z) : Z := Z.land x 0xFFFF.
Definition u32 (x : Z) : Z := Z.land x 0xFFFFFFFF.

(** [x << n] and [x >> n] on a [uint32_t]. *)
Definition shl32 (x n : Z) : Z := u32 (Z.shiftl x n).
Definition shr32 (x n : Z) : Z := Z.shiftr x n.

(** [~x] on a [uint32_t]. *)
Definition not32 (x : Z) : Z := Z.lxor x 0xFFFFFFFF.

(** [a[i]] for an array held as a list, and [a[i] = v]. *)
Definition idx (a : list Z) (i : Z) : Z := nth (Z.to_nat i) a 0.

Fixpoint upd (a : list Z) (i : nat) (v : Z) : list Z :=
  match a, i with
  | [], _ => []
  | _ :: t, O => v :: t
  | x :: t, S j => x :: upd t j v
  end.

(* ================================================================== *)
(** * main.c: the address permutation *)

(** [static uint32_t addr_perm(uint32_t addr)] *)
Definition addr_perm (addr : Z) : Z :=
  Z.lor (Z.lor (Z.lor (Z.lor (Z.lor (Z.lor (Z.lor (Z.lor
    (Z.land addr 0xFFFFFE02)
    (shl32 (Z.land addr 0x001) 7))
    (shl32 (Z.land addr 0x004) 4))
    (shl32 (Z.land addr 0x008) 2))
    (shr32 (Z.land addr 0x010) 4))
    (shr32 (Z.land addr 0x020) 3))
    (shl32 (Z.land addr 0x040) 2))
    (shr32 (Z.land addr 0x080) 3))
    (shr32 (Z.land addr 0x100) 5).

(** The wiring read off the shifts of [addr_perm]: the source bit that
    drives destination bit [i]. *)
Definition perm_src (i : Z) : Z :=
  if i =? 7 then 0 else
  if i =? 6 then 2 else
  if i =? 5 then 3 else
  if i =? 0 then 4 else
  if i =? 2 then 5 else
  if i =? 8 then 6 else
  if i =? 4 then 7 else
  if i =? 3 then 8 else i.

(* ================================================================== *)
(** * sha256.c *)

Inductive byte_order : Type := LittleEndian | BigEndian.

Definition sha256_kinit : list Z :=
  [ 0x6a09e667; 0xbb67ae85; 0x3c6ef372; 0xa54ff53a;
    0x510e527f; 0x9b05688c; 0x1f83d9ab; 0x5be0cd19 ].

Definition sha256k : list Z :=
  [ 0x428A2F98; 0x71374491; 0xB5C0FBCF; 0xE9B5DBA5; 0x3956C25B; 0x59F111F1; 0x923F82A4; 0xAB1C5ED5;
    0xD807AA98; 0x12835B01; 0x243185BE; 0x550C7DC3; 0x72BE5D74; 0x80DEB1FE; 0x9BDC06A7; 0xC19BF174;
    0xE49B69C1; 0xEFBE4786; 0x0FC19DC6; 0x240CA1CC; 0x2DE92C6F; 0x4A7484AA; 0x5CB0A9DC; 0x76F988DA;
    0x983E5152; 0xA831C66D; 0xB00327C8; 0xBF597FC7; 0xC6E00BF3; 0xD5A79147; 0x06CA6351; 0x14292967;
    0x27B70A85; 0x2E1B2138; 0x4D2C6DFC; 0x53380D13; 0x650A7354; 0x766A0ABB; 0x81C2C92E; 0x92722C85;
    0xA2BFE8A1; 0xA81A664B; 0xC24B8B70; 0xC76C51A3; 0xD192E819; 0xD6990624; 0xF40E3585; 0x106AA070;
    0x19A4C116; 0x1E376C08; 0x2748774C; 0x34B0BCB5; 0x391C0CB3; 0x4ED8AA4A; 0x5B9CCA4F; 0x682E6FF3;
    0x748F82EE; 0x78A5636F; 0x84C87814; 0x8CC70208; 0x90BEFFFA; 0xA4506CEB; 0xBEF9A3F7; 0xC67178F2 ].

(** [#define rotr(x, a) (((x) >> (a)) | ((x) << (32-(a))))], on [uint32_t]. *)
Definition rotr (x a : Z) : Z := Z.lor (shr32 x a) (shl32 x (32 - a)).

(** [__builtin_bswap32] and [__builtin_bswap64]. *)
Definition bswap32 (x : Z) : Z :=
  Z.lor (Z.lor (Z.lor
    (Z.shiftl (Z.land x 0xFF) 24)
    (Z.shiftl (Z.land (Z.shiftr x 8) 0xFF) 16))
    (Z.shiftl (Z.land (Z.shiftr x 16) 0xFF) 8))
    (Z.land (Z.shiftr x 24) 0xFF).

Definition bswap64 (x : Z) : Z :=
  Z.lor (Z.shiftl (bswap32 (Z.land x 0xFFFFFFFF)) 32)
        (bswap32 (Z.land (Z.shiftr x 32) 0xFFFFFFFF)).

(** The bytes of a 32-bit word, least significant first. *)
Definition bytes_le32 (x : Z) : list Z :=
  [ Z.land x 0xFF; Z.land (Z.shiftr x 8) 0xFF;
    Z.land (Z.shiftr x 16) 0xFF; Z.land (Z.shiftr x 24) 0xFF ].

Definition bytes_le64 (x : Z) : list Z :=
  bytes_le32 (Z.land x 0xFFFFFFFF) ++ bytes_le32 (Z.land (Z.shiftr x 32) 0xFFFFFFFF).

Section Host.

(** [__BYTE_ORDER__] of the machine the code is compiled for. *)
Variable host : byte_order.

(** [read32be] and [read64be]: the two branches of the [#if]. *)
Definition read32be (x : Z) : Z :=
  match host with LittleEndian => bswap32 x | BigEndian => x end.

Definition read64be (x : Z) : Z :=
  match host with LittleEndian => bswap64 x | BigEndian => x end.

(** [((uint32_t* )data)[i]]: the host's reading of four bytes of a byte
    buffer as one word. *)
Definition load32 (data : list Z) (i : Z) : Z :=
  let b k := idx data (4 * i + k) in
  match host with
  | LittleEndian =>
      Z.lor (Z.lor (Z.lor (b 0) (Z.shiftl (b 1) 8)) (Z.shiftl (b 2) 16)) (Z.shiftl (b 3) 24)
  | BigEndian =>
      Z.lor (Z.lor (Z.lor (b 3) (Z.shiftl (b 2) 8)) (Z.shiftl (b 1) 16)) (Z.shiftl (b 0) 24)
  end.

(** The bytes a [uint32_t] or [uint64_t] occupies in the host's memory. *)
Definition store32 (x : Z) : list Z :=
  match host with LittleEndian => bytes_le32 x | BigEndian => rev (bytes_le32 x) end.

Definition store64 (x : Z) : list Z :=
  match host with LittleEndian => bytes_le64 x | BigEndian => rev (bytes_le64 x) end.

(** One iteration of the 64-round loop of [sha256_transform], on the
    working variables [ls] and the sixteen-word window [w]. *)
Definition sha256_round (i : Z) (lw : list Z * list Z) : list Z * list Z :=
  let (ls, w) := lw in
  let widx := Z.land i 15 in
  let s1 := Z.lxor (Z.lxor (rotr (idx ls 4) 6) (rotr (idx ls 4) 11)) (rotr (idx ls 4) 25) in
  let ch := Z.lxor (Z.land (idx ls 4) (idx ls 5)) (Z.land (not32 (idx ls 4)) (idx ls 6)) in
  let t1 := u32 (idx ls 7 + s1 + ch + idx sha256k i + idx w widx) in
  let s0 := Z.lxor (Z.lxor (rotr (idx ls 0) 2) (rotr (idx ls 0) 13)) (rotr (idx ls 0) 22) in
  let mj := Z.lxor (Z.lxor (Z.land (idx ls 0) (idx ls 1)) (Z.land (idx ls 0) (idx ls 2)))
                   (Z.land (idx ls 1) (idx ls 2)) in
  let t2 := u32 (s0 + mj) in
  let w1 := idx w (Z.land (i + 1) 15) in
  let w9 := idx w (Z.land (i + 9) 15) in
  let w14 := idx w (Z.land (i + 14) 15) in
  let w' := upd w (Z.to_nat widx)
              (u32 (idx w widx +
                    (w9 +
                     Z.lxor (Z.lxor (rotr w1 7) (rotr w1 18)) (shr32 w1 3) +
                     Z.lxor (Z.lxor (rotr w14 17) (rotr w14 19)) (shr32 w14 10)))) in
  ([ u32 (t1 + t2); idx ls 0; idx ls 1; idx ls 2;
     u32 (idx ls 3 + t1); idx ls 4; idx ls 5; idx ls 6 ], w').

(** [for (unsigned i = 0; i < 64; i++)]: [n] iterations from index [i]. *)
Fixpoint sha256_rounds (n : nat) (i : Z) (lw : list Z * list Z) : list Z * list Z :=
  match n with
  | O => lw
  | S n' => sha256_rounds n' (i + 1) (sha256_round i lw)
  end.

(** [void sha256_transform(uint32_t *state, const void *data)] *)
Definition sha256_transform (state : list Z) (data : list Z) : list Z :=
  let w := map (fun i => read32be (load32 data (Z.of_nat i))) (seq 0 16) in
  let ls := firstn 8 state in
  let (ls', _) := sha256_rounds 64 0 (ls, w) in
  map (fun i => u32 (idx state (Z.of_nat i) + idx ls' (Z.of_nat i))) (seq 0 8).

(** [uint64_t bitlen = length << 3;] the shift is made on the 32-bit
    [unsigned length] and only then widened. *)
Definition sha256_bitlen (length : Z) : Z := shl32 length 3.

Section Compression.

(** The control flow of [sha256_internal] does not depend on what the
    compression function computes; it is written once over the state
    type [S] and the function [transform] applied to each block. *)
Variable S : Type.
Variable transform : S -> list Z -> S.

(** [while (length >= 64) { sha256_transform(state, inbuffer);
    inbuffer += 64; length -= 64; }]  The loop runs [length / 64]
    times; [n] counts the iterations left. *)
Fixpoint sha256_full_blocks (n : nat) (state : S) (inbuffer : list Z) (length : Z)
  : S * list Z * Z :=
  match n with
  | O => (state, inbuffer, length)
  | Datatypes.S n' =>
      if 64 <=? length
      then sha256_full_blocks n' (transform state (firstn 64 inbuffer))
                              (skipn 64 inbuffer) (length - 64)
      else (state, inbuffer, length)
  end.

(** The body of [sha256_internal] from the initial state [init]. *)
Definition sha256_internal_from (init : S) (inbuffer : list Z) (length : Z) : S :=
  let bitlen := sha256_bitlen length in
  let '(state, inbuffer, length) :=
    sha256_full_blocks (Z.to_nat (length / 64)) init inbuffer length in
  (* union { chars[64]; u32[16]; u64[8] } tmp = {0};
     memcpy(tmp.chars, inbuffer, length); tmp.chars[length] = 0x80; *)
  let tmp := firstn (Z.to_nat length) inbuffer ++ [0x80]
               ++ repeat 0 (63 - Z.to_nat length) in
  if 56 <=? length
  then
    let state := transform state tmp in
    let tmp := repeat 0 64 in
    let tmp := firstn 56 tmp ++ store64 (read64be bitlen) in
    transform state tmp
  else
    let tmp := firstn 56 tmp ++ store64 (read64be bitlen) in
    transform state tmp.

End Compression.

(** [void sha256_internal(const uint8_t *inbuffer, unsigned length,
    void *output)]: the state words left in [output]. *)
Definition sha256_internal (inbuffer : list Z) (length : Z) : list Z :=
  sha256_internal_from (list Z) sha256_transform sha256_kinit inbuffer length.

(** The sequence of 64-byte blocks [sha256_internal] hands to
    [sha256_transform], in order. *)
Definition sha256_feed (inbuffer : list Z) (length : Z) : list (list Z) :=
  sha256_internal_from (list (list Z)) (fun acc blk => acc ++ [blk]) [] inbuffer length.

(** [void sha256sum(const uint8_t *inbuffer, unsigned length, void
    *output)]: the 32 bytes left in [output]. *)
Definition sha256sum (inbuffer : list Z) (length : Z) : list Z :=
  let state := sha256_internal inbuffer length in
  let state := map read32be state in
  List.concat (map store32 state).

End Host.

(* ================================================================== *)
(** * main.c: the cartridge bus *)

Definition MAPPED_FIRMWARE : Z := 0.
Definition MAPPED_SDRAM : Z := 1.

(** Modelled from the spec: [ARM7_OWNS_ROM], [BUS_OWNER_ARM9] and
    [sysSetCartOwner] come from the platform header [<nds.h>], which is not
    among the sources.  The bus owner is one bit of [REG_EXMEMCNT]: set when
    the second processor owns the cartridge bus, clear when the host does. *)
Definition ARM7_OWNS_ROM : Z := 0x80.
Definition BUS_OWNER_ARM9 : bool := true.

(** [REG_SD_MODE] is the half-word at [0x09FFFFFE], the last one of the
    window that [SLOT2_BASE_U16] starts at [0x08000000]. *)
Definition REG_SD_MODE : Z := (0x09FFFFFE - 0x08000000) / 2.
Definition MODESWITCH_MAGIC : Z := 0xA55A.

(** What the program does to the outside, in the order it does it.  Bus
    accesses carry the mapping mode in force when they are made. *)
Inductive event : Type :=
| EvRead (mode index value : Z)   (* value = SLOT2_BASE_U16[index] *)
| EvWrite (mode index value : Z)  (* SLOT2_BASE_U16[index] = value *)
| EvSleep                         (* sleep_1ms() *)
| EvLoad (offset : Z).            (* buf[offset], a byte of the caller's buffer *)

(** The machine: the memory-control register, the mapping mode latched by
    the cartridge, the cartridge itself and the log, latest event first. *)
Record machine (device : Type) : Type := Machine {
  exmemcnt : Z;
  sd_mode : Z;
  cart : device;
  trace : list event
}.
Arguments Machine {device}.
Arguments exmemcnt {device}.
Arguments sd_mode {device}.
Arguments cart {device}.
Arguments trace {device}.

(** Code that runs on the machine and returns a value. *)
Definition M (device A : Type) : Type := machine device -> A * machine device.

Definition ret {device A : Type} (a : A) : M device A := fun m => (a, m).

Definition bind {device A B : Type} (c : M device A) (k : A -> M device B) : M device B :=
  fun m => let (a, m') := c m in k a m'.

Declare Scope bus_scope.
Delimit Scope bus_scope with bus.
Notation "x <- c ;; k" := (bind c (fun x => k))
  (at level 61, c at next level, right associativity) : bus_scope.
Notation "c ;; k" := (bind c (fun _ => k))
  (at level 61, right associativity) : bus_scope.

(** [for (unsigned i = 0; i < n; i++) c;] *)
Fixpoint times {device : Type} (n : nat) (c : M device unit) : M device unit :=
  match n with
  | O => ret tt
  | S n' => bind c (fun _ => times n' c)
  end.

(** The accesses of a log in the order they were made. *)
Definition reads_of (t : list event) : list (Z * Z * Z) :=
  flat_map (fun e => match e with EvRead md i v => [(md, i, v)] | _ => [] end) (rev t).

Definition writes_of (t : list event) : list (Z * Z * Z) :=
  flat_map (fun e => match e with EvWrite md i v => [(md, i, v)] | _ => [] end) (rev t).

Definition loads_of (t : list event) : list Z :=
  flat_map (fun e => match e with EvLoad o => [o] | _ => [] end) (rev t).

Definition sleeps_of (t : list event) : nat :=
  List.length (filter (fun e => match e with EvSleep => true | _ => false end) t).

(** The cartridge: any state type with a 16-bit read and a 16-bit write at
    a half-word index of the slot-2 window, and with what a millisecond left
    alone does to it. *)
Class Cartridge (device : Type) : Type := {
  dev_read : device -> Z -> Z * device;
  dev_write : device -> Z -> Z -> device;
  dev_sleep : device -> device
}.

Section Bus.

Context {device : Type} {cartridge : Cartridge device}.

Local Open Scope bus_scope.

(** [SLOT2_BASE_U16[i]] as an rvalue. *)
Definition rd (i : Z) : M device Z := fun m =>
  let (v, d) := dev_read (cart m) i in
  (v, Machine (exmemcnt m) (sd_mode m) d (EvRead (sd_mode m) i v :: trace m)).

(** [SLOT2_BASE_U16[i] = v]. *)
Definition wr (i v : Z) : M device unit := fun m =>
  (tt, Machine (exmemcnt m) (sd_mode m) (dev_write (cart m) i v)
               (EvWrite (sd_mode m) i v :: trace m)).

(** [buf[o]] for the caller's buffer [buf], the memory found from the
    pointer on. *)
Definition load (buf : Z -> Z) (o : Z) : M device Z := fun m =>
  (buf o, Machine (exmemcnt m) (sd_mode m) (cart m) (EvLoad o :: trace m)).

(** [void sleep_1ms()] *)
Definition sleep_1ms : M device unit := fun m =>
  (tt, Machine (exmemcnt m) (sd_mode m) (dev_sleep (cart m)) (EvSleep :: trace m)).

(** [REG_EXMEMCNT |= v]. *)
Definition exmemcnt_or (v : Z) : M device unit := fun m =>
  (tt, Machine (Z.lor (exmemcnt m) v) (sd_mode m) (cart m) (trace m)).

(** [static inline bool sysGetCartOwner()] *)
Definition sysGetCartOwner : M device bool := fun m =>
  (Z.land (exmemcnt m) ARM7_OWNS_ROM =? 0, m).

(** Modelled from the spec: [sysSetCartOwner] of [<nds.h>] gives the bus
    to the host when [arm9] is true and to the other processor when not,
    leaving the rest of the register as it is. *)
Definition sysSetCartOwner (arm9 : bool) : M device unit := fun m =>
  (tt, Machine (Z.lor (Z.ldiff (exmemcnt m) ARM7_OWNS_ROM)
                      (if arm9 then 0 else ARM7_OWNS_ROM))
               (sd_mode m) (cart m) (trace m)).

(** The cartridge takes the mode written last once the four writes of the
    handshake are made. *)
Definition latch_mode (value : Z) : M device unit := fun m =>
  (tt, Machine (exmemcnt m) value (cart m) (trace m)).

(** [void set_supercard_mode(unsigned mapped_area, bool write_access,
    bool sdcard_interface)] *)
Definition set_supercard_mode (mapped_area : Z) (write_access sdcard_interface : bool)
  : M device unit :=
  let value := u16 (Z.lor (Z.lor mapped_area (if sdcard_interface then 0x2 else 0x0))
                          (if write_access then 0x4 else 0x0)) in
  wr REG_SD_MODE MODESWITCH_MAGIC ;;
  wr REG_SD_MODE MODESWITCH_MAGIC ;;
  wr REG_SD_MODE value ;;
  wr REG_SD_MODE value ;;
  latch_mode value.

(** [static uint32_t flash_ident()] *)
Definition flash_ident : M device Z :=
  pmode <- sysGetCartOwner ;;
  sysSetCartOwner BUS_OWNER_ARM9 ;;
  set_supercard_mode MAPPED_FIRMWARE true false ;;
  exmemcnt_or 0xF ;;
  times 32 (wr 0 0x00F0) ;;
  wr (addr_perm 0x555) 0x00AA ;;
  wr (addr_perm 0x2AA) 0x0055 ;;
  wr (addr_perm 0x555) 0x0090 ;;
  hi <- rd (addr_perm 0x000) ;;
  lo <- rd (addr_perm 0x001) ;;
  let r := Z.lor (shl32 hi 16) lo in
  times 32 (wr 0 0x00F0) ;;
  set_supercard_mode MAPPED_FIRMWARE false false ;;
  sysSetCartOwner pmode ;;
  ret r.

(** The wait loop of [flash_erase]: [for (i = 0; i < 60*1000; i++) {
    sleep_1ms(); if (SLOT2_BASE_U16[0] == SLOT2_BASE_U16[0]) break; }],
    with [n] iterations left. *)
Fixpoint erase_poll (n : nat) : M device unit :=
  match n with
  | O => ret tt
  | S n' =>
      sleep_1ms ;;
      a <- rd 0 ;;
      b <- rd 0 ;;
      if a =? b then ret tt else erase_poll n'
  end.

Definition ERASE_BUDGET : nat := Z.to_nat (60 * 1000).

(** [static bool flash_erase()] *)
Definition flash_erase : M device bool :=
  pmode <- sysGetCartOwner ;;
  sysSetCartOwner BUS_OWNER_ARM9 ;;
  set_supercard_mode MAPPED_FIRMWARE true false ;;
  exmemcnt_or 0xF ;;
  times 32 (wr 0 0x00F0) ;;
  wr (addr_perm 0x555) 0x00AA ;;
  wr (addr_perm 0x2AA) 0x0055 ;;
  wr (addr_perm 0x555) 0x0080 ;;
  wr (addr_perm 0x555) 0x00AA ;;
  wr (addr_perm 0x2AA) 0x0055 ;;
  wr (addr_perm 0x555) 0x0010 ;;
  erase_poll ERASE_BUDGET ;;
  a <- rd 0 ;;
  b <- rd 0 ;;
  let retok := a =? b in
  times 32 (wr 0 0x00F0) ;;
  set_supercard_mode MAPPED_FIRMWARE false false ;;
  sysSetCartOwner pmode ;;
  ret retok.

(** The scan of [flash_erase_check]: [for (i = 0; i < 512*1024; i += 2)
    { errf = (SLOT2_BASE_U16[i / 2] != 0xFFFF); if (errf) break; }],
    with [n] iterations left; the value is [errf] when the loop ends. *)
Fixpoint erase_check_loop (n : nat) (i : Z) : M device bool :=
  match n with
  | O => ret false
  | S n' =>
      v <- rd (i / 2) ;;
      let errf := negb (v =? 0xFFFF) in
      if errf then ret true else erase_check_loop n' (i + 2)
  end.

Definition FLASH_WORDS : nat := Z.to_nat (512 * 1024 / 2).

(** [static bool flash_erase_check()] *)
Definition flash_erase_check : M device bool :=
  pmode <- sysGetCartOwner ;;
  sysSetCartOwner BUS_OWNER_ARM9 ;;
  set_supercard_mode MAPPED_FIRMWARE true false ;;
  exmemcnt_or 0xF ;;
  errf <- erase_check_loop FLASH_WORDS 0 ;;
  set_supercard_mode MAPPED_FIRMWARE false false ;;
  sysSetCartOwner pmode ;;
  ret errf.

(** The wait loop of [flash_write]: [for (j = 0; j < 32*1024; j++) {
    if (SLOT2_BASE_U16[0] == SLOT2_BASE_U16[0]) break; }]. *)
Fixpoint write_poll (n : nat) : M device unit :=
  match n with
  | O => ret tt
  | S n' =>
      a <- rd 0 ;;
      b <- rd 0 ;;
      if a =? b then ret tt else write_poll n'
  end.

Definition WRITE_BUDGET : nat := Z.to_nat (32 * 1024).

(** The body of the loop of [flash_write] for the word at byte offset
    [i]; the value is the condition of its last [if]: timed out, or the
    write was incorrect.  The word is read back only when the first
    operand of [||] is false. *)
Definition flash_write_word (buf : Z -> Z) (i : Z) : M device bool :=
  b0 <- load buf i ;;
  b1 <- load buf (i + 1) ;;
  let value := u16 (Z.lor b0 (Z.shiftl b1 8)) in
  wr (addr_perm 0x555) 0x00AA ;;
  wr (addr_perm 0x2AA) 0x0055 ;;
  wr (addr_perm 0x555) 0x00A0 ;;
  wr (i / 2) value ;;
  write_poll WRITE_BUDGET ;;
  a <- rd 0 ;;
  b <- rd 0 ;;
  let notfinished := negb (a =? b) in
  wr 0 0x00F0 ;;
  if notfinished then ret true
  else v <- rd (i / 2) ;; ret (negb (v =? value)).

(** [for (unsigned i = 0; i < size; i += 2) { ...; if (...) { ok =
    false; break; } }] with [n] iterations left; the value is [ok]. *)
Fixpoint flash_write_loop (n : nat) (buf : Z -> Z) (i : Z) : M device bool :=
  match n with
  | O => ret true
  | S n' =>
      bad <- flash_write_word buf i ;;
      if bad then ret false else flash_write_loop n' buf (i + 2)
  end.

(** [static bool flash_write(const uint8_t *buf, unsigned size)].  The
    loop counter goes up by two from zero while below [size]: that is
    [(size + 1) / 2] iterations unless the loop is left early. *)
Definition flash_write (buf : Z -> Z) (size : Z) : M device bool :=
  pmode <- sysGetCartOwner ;;
  sysSetCartOwner BUS_OWNER_ARM9 ;;
  set_supercard_mode MAPPED_FIRMWARE true false ;;
  exmemcnt_or 0xF ;;
  wr 0 0x00F0 ;;
  ok <- flash_write_loop (Z.to_nat ((size + 1) / 2)) buf 0 ;;
  set_supercard_mode MAPPED_FIRMWARE false false ;;
  sysSetCartOwner pmode ;;
  ret ok.

(** Reading [n] half-words of the window from index [i] on, as the bytes
    they hold (low byte first): what [memcpy] and [memcmp] see at
    [0x08000000]. *)
Fixpoint read_window (n : nat) (i : Z) : M device (list Z) :=
  match n with
  | O => ret []
  | S n' =>
      v <- rd i ;;
      rest <- read_window n' (i + 1) ;;
      ret (Z.land v 0xFF :: Z.land (Z.shiftr v 8) 0xFF :: rest)
  end.

(** [memcmp(a, b, n) == 0] for [a] in the caller's memory and [b] a list
    of bytes. *)
Fixpoint bytes_equal (a : Z -> Z) (o : Z) (b : list Z) (n : nat) : bool :=
  match n, b with
  | O, _ => true
  | S n', x :: b' => (a o =? x) && bytes_equal a (o + 1) b' n'
  | S _, [] => false
  end.

(** [static bool flash_validate(const uint8_t *fwimg, unsigned fwsize)].
    The function returns at the [memcmp]; the two statements written
    after the [return] are never run. *)
Definition flash_validate (fwimg : Z -> Z) (fwsize : Z) : M device bool :=
  pmode <- sysGetCartOwner ;;
  sysSetCartOwner BUS_OWNER_ARM9 ;;
  set_supercard_mode MAPPED_FIRMWARE true false ;;
  flash <- read_window (Z.to_nat ((fwsize + 1) / 2)) 0 ;;
  ret (bytes_equal fwimg 0 flash (Z.to_nat fwsize)).

(** [static bool flash_dump(const char *filename)].  [fopen_ok] is
    whether [fopen] gives a file; the value is the result and, when the
    file is written, its contents. *)
Definition flash_dump (fopen_ok : bool) : M device (bool * option (list Z)) :=
  pmode <- sysGetCartOwner ;;
  sysSetCartOwner BUS_OWNER_ARM9 ;;
  set_supercard_mode MAPPED_FIRMWARE true false ;;
  data <- read_window FLASH_WORDS 0 ;;
  set_supercard_mode MAPPED_FIRMWARE false false ;;
  sysSetCartOwner pmode ;;
  if fopen_ok then ret (true, Some data) else ret (false, None).

End Bus.

(** Two device models used to exercise the operations.  A scripted device
    answers its reads from a list, one value per read whatever the address,
    and [0xFFFF] once the list is used up; it ignores writes.  A counting
    device answers every read with a value it has not given before. *)
Definition script_read (d : list Z) (_ : Z) : Z * list Z :=
  match d with
  | [] => (0xFFFF, [])
  | v :: d' => (v, d')
  end.

#[export] Instance script_cart : Cartridge (list Z) :=
  {| dev_read := script_read; dev_write := fun d _ _ => d; dev_sleep := fun d => d |}.

#[export] Instance counting_cart : Cartridge Z :=
  {| dev_read := fun d _ => (u16 d, d + 1); dev_write := fun d _ _ => d;
     dev_sleep := fun d => d |}.

#[export] Instance erased_cart : Cartridge unit :=
  {| dev_read := fun d _ => (0xFFFF, d); dev_write := fun d _ _ => d;
     dev_sleep := fun d => d |}.

(* ================================================================== *)
(** * main.c: known firmware images *)

(** [known_images]: name and the first 16 bytes of the SHA-256 digest. *)
Definition known_images : list (string * list Z) :=
  [ ("Empty/Zeroed"%string,
     [0x07;0x85;0x4d;0x2f;0xef;0x29;0x7a;0x06;0xba;0x81;0x68;0x5e;0x66;0x0c;0x33;0x2d]);
    ("Empty/Cleared"%string,
     [0x04;0x3e;0x23;0x8a;0x76;0x5f;0x7c;0xfb;0xc6;0x25;0x96;0xa5;0x0e;0x53;0xc8;0xff]);
    ("Official firmware v1.85 (EN)"%string,
     [0xc1;0x1d;0x86;0x4d;0x39;0xa4;0x58;0x60;0xa7;0xc5;0xc3;0x4c;0xa6;0x65;0xa9;0xc1]) ].

(** [!memcmp(a, b, n)] on two byte arrays at least [n] long. *)
Fixpoint memcmp_eq (a b : list Z) (n : nat) : bool :=
  match n, a, b with
  | O, _, _ => true
  | S n', x :: a', y :: b' => (x =? y) && memcmp_eq a' b' n'
  | S _, _, _ => false
  end.

(** The loop of [firmware_ident] over the entries left. *)
Fixpoint firmware_ident_loop (hash : list Z) (images : list (string * list Z))
  : option string :=
  match images with
  | [] => None
  | (fw_name, sha256) :: rest =>
      if memcmp_eq hash sha256 16 then Some fw_name else firmware_ident_loop hash rest
  end.

(** [const char * firmware_ident()], for the 512 KiB [flash] found at
    [0x08000000]; [None] is the [NULL] result. *)
Definition firmware_ident (host : byte_order) (flash : list Z) : option string :=
  let hash := sha256sum host flash (512 * 1024) in
  firmware_ident_loop hash known_images.

(* ================================================================== *)
(** * main.c: the SRAM test *)

(** The battery-backed memory of the cartridge, seen through
    [SLOT2_SRAM_U8]: any state type with a byte read and a byte write at an
    index. *)
Class Sram (device : Type) : Type := {
  sram_read : device -> Z -> Z * device;
  sram_write : device -> Z -> Z -> device
}.

(** [i ^ (i * i) ^ 0x5A] for [unsigned i]. *)
Definition sram_pattern (i : Z) : Z := Z.lxor (Z.lxor i (u32 (i * i))) 0x5A.

Section SramTest.

Context {device : Type} {sram : Sram device}.

Local Open Scope bus_scope.

(** [SLOT2_SRAM_U8[i]] as an rvalue: a [uint8_t]. *)
Definition sram_rd (i : Z) : M device Z := fun m =>
  let (v, d) := sram_read (cart m) i in
  (u8 v, Machine (exmemcnt m) (sd_mode m) d (trace m)).

(** [SLOT2_SRAM_U8[i] = v]: the value is stored as a [uint8_t]. *)
Definition sram_wr (i v : Z) : M device unit := fun m =>
  (tt, Machine (exmemcnt m) (sd_mode m) (sram_write (cart m) i (u8 v)) (trace m)).

(** [for (unsigned i = 0; i < 64*1024; i++) SLOT2_SRAM_U8[i] = f(i);]
    with [n] iterations left. *)
Fixpoint sram_fill (f : Z -> Z) (n : nat) (i : Z) : M device unit :=
  match n with
  | O => ret tt
  | S n' => sram_wr i (f i) ;; sram_fill f n' (i + 1)
  end.

(** [for (unsigned i = 0; i < 64*1024; i++) if (SLOT2_SRAM_U8[i] !=
    ((i ^ (i * i) ^ 0x5A) & 0xFF)) numerrs++;] with [n] iterations
    left. *)
Fixpoint sram_check (n : nat) (i : Z) (numerrs : Z) : M device Z :=
  match n with
  | O => ret numerrs
  | S n' =>
      v <- sram_rd i ;;
      let numerrs :=
        if negb (v =? Z.land (sram_pattern i) 0xFF) then u32 (numerrs + 1) else numerrs in
      sram_check n' (i + 1) numerrs
  end.

Definition SRAM_BYTES : nat := Z.to_nat (64 * 1024).

(** [static unsigned test_sram()] *)
Definition test_sram : M device Z :=
  pmode <- sysGetCartOwner ;;
  sysSetCartOwner BUS_OWNER_ARM9 ;;
  exmemcnt_or 0x3 ;;
  sram_fill (fun _ => 0x00) SRAM_BYTES 0 ;;
  sram_fill sram_pattern SRAM_BYTES 0 ;;
  numerrs <- sram_check SRAM_BYTES 0 0 ;;
  sysSetCartOwner pmode ;;
  ret numerrs.

End SramTest.

(** Memory models for the SRAM test, each a function from index to byte.
    [good_sram] keeps the byte last written at each index.  [small_sram]
    decodes only the low eight address lines and has data line 0 tied to
    ground: a write at [i] lands at [i mod 256] with bit 0 cleared.
    [open_bus] has no memory at all and reads [0xFF] everywhere. *)
#[export] Instance good_sram : Sram (Z -> Z) :=
  {| sram_read := fun d i => (d i, d);
     sram_write := fun d i v => fun j => if j =? i then v else d j |}.

Definition small_sram_cell (i : Z) : Z := Z.land i 0xFF.

Inductive small_memory : Type := SmallMemory (cells : Z -> Z).

#[export] Instance small_sram : Sram small_memory :=
  {| sram_read := fun d i => let 'SmallMemory c := d in (c (small_sram_cell i), d);
     sram_write := fun d i v =>
       let 'SmallMemory c := d in
       SmallMemory (fun j => if j =? small_sram_cell i then Z.land v 0xFE else c j) |}.

#[export] Instance open_bus : Sram unit :=
  {| sram_read := fun d _ => (0xFF, d); sram_write := fun d _ _ => d |}.

(* ================================================================== *)
(** * main.c: the header check *)

(** The [n] bytes found from offset [o] on in the memory that the pointer
    [fw] points to. *)
Definition bytes_at (fw : Z -> Z) (o : Z) (n : nat) : list Z :=
  map (fun k => fw (o + Z.of_nat k)) (seq 0 n).

Definition logo_hash : list Z :=
  [0x08;0xa0;0x15;0x3c;0xfd;0x6b;0x0e;0xa5;0x4b;0x93;0x8f;0x7d;0x20;0x99;0x33;0xfa].

(** [for (unsigned i = 0xA0; i < 0xBD; i++) checksum += fw[i];] on a
    [uint8_t checksum], with [n] iterations left. *)
Fixpoint header_checksum (n : nat) (i : Z) (fw : Z -> Z) (checksum : Z) : Z :=
  match n with
  | O => checksum
  | S n' => header_checksum n' (i + 1) fw (u8 (checksum + fw i))
  end.

(** [bool valid_header(const uint8_t *fw)] *)
Definition valid_header (host : byte_order) (fw : Z -> Z) : bool :=
  let hash := sha256sum host (bytes_at fw 0x4 156) 156 in
  let logo_ok := memcmp_eq hash logo_hash 16 in
  let checksum := 0x19 in
  let checksum := header_checksum (Z.to_nat (0xBD - 0xA0)) 0xA0 fw checksum in
  let checksum := u8 (- checksum) in
  let checksum_ok := checksum =? fw 0xBD in
  logo_ok && checksum_ok.

(* ================================================================== *)
(** * main.c: the directory listing and the menus *)

(** What [readdir] hands out: the name and the type of an entry.  Names
    are C strings, taken here without their terminating zero. *)
Record dirent : Type := Dirent {
  d_name : string;
  d_type : Z
}.

(** Modelled from the spec: [DT_DIR] comes from the platform header
    [<dirent.h>], which is not among the sources; it is the value of
    [d_type] that marks a directory. *)
Definition DT_DIR : Z := 4.

(** [typedef struct { char fn[PATH_MAX]; bool isdir; } t_fs_entry;] *)
Record t_fs_entry : Type := FsEntry {
  fn : string;
  isdir : bool
}.

(** [strcmp]: zero for equal strings, and otherwise the difference of the
    first two characters that differ, as unsigned characters. *)
Fixpoint strcmp (a b : string) : Z :=
  match a, b with
  | EmptyString, EmptyString => 0
  | EmptyString, String d _ => 0 - Z.of_N (Ascii.N_of_ascii d)
  | String c _, EmptyString => Z.of_N (Ascii.N_of_ascii c)
  | String c a', String d b' =>
      if Ascii.eqb c d then strcmp a' b'
      else Z.of_N (Ascii.N_of_ascii c) - Z.of_N (Ascii.N_of_ascii d)
  end.

(** [int fncomp(const void* a, const void* b)] *)
Definition fncomp (ea eb : t_fs_entry) : Z := strcmp (fn ea) (fn eb).

(** An array in allocated memory: the entries it has room for.  A write
    at an index past its end is a write outside the allocation and is
    answered with [None]. *)
Definition store_entry (ret : list t_fs_entry) (i : nat) (e : t_fs_entry)
  : option (list t_fs_entry) :=
  if (i <? List.length ret)%nat
  then Some (firstn i ret ++ e :: skipn (S i) ret)
  else None.

(** [ret[i].fn[0] = 0]: the name becomes the empty string, the flag
    stays. *)
Definition clear_name (ret : list t_fs_entry) (i : nat) : option (list t_fs_entry) :=
  match nth_error ret i with
  | Some e => store_entry ret i (FsEntry EmptyString (isdir e))
  | None => None
  end.

Section Listdir.

(** What the allocator hands out: the content found in the [i]-th entry
    of fresh memory.  [malloc] and [realloc] are taken to succeed. *)
Variable heap : nat -> t_fs_entry.

(** The library's [qsort] with its comparison function. *)
Variable qsort : (t_fs_entry -> t_fs_entry -> Z) -> list t_fs_entry -> list t_fs_entry.

Definition malloc_entries (cap : nat) : list t_fs_entry := map heap (seq 0 cap).

(** [realloc]: the entries there were, and fresh memory after them. *)
Definition realloc_entries (ret : list t_fs_entry) (cap : nat) : list t_fs_entry :=
  firstn cap ret ++ map heap (seq (List.length ret) (cap - List.length ret)).

(** The [while (1)] loop of [listdir] over what [readdir] returns, call
    after call; the end of the list is the [NULL] result. *)
Fixpoint listdir_loop (reads : list dirent) (cap nument : nat) (ret : list t_fs_entry)
  : option (nat * nat * list t_fs_entry) :=
  match reads with
  | [] => Some (cap, nument, ret)
  | cur :: rest =>
      if String.eqb (d_name cur) EmptyString then Some (cap, nument, ret)
      else if String.eqb (d_name cur) "."%string then listdir_loop rest cap nument ret
      else
        let dir := d_type cur =? DT_DIR in
        let name := if dir then (d_name cur ++ "/")%string else d_name cur in
        match store_entry ret nument (FsEntry name dir) with
        | None => None
        | Some ret =>
            let nument := S nument in
            let '(cap, ret) :=
              if (cap <=? nument)%nat
              then ((cap + 8)%nat, realloc_entries ret (cap + 8))
              else (cap, ret) in
            match clear_name ret nument with
            | None => None
            | Some ret => listdir_loop rest cap nument ret
            end
        end
  end.

(** [t_fs_entry *listdir(const char *path, unsigned *nume)], for the
    directory whose entries [readdir] gives as [reads]: the array and
    the number left in [*nume], or [None] when a write falls outside
    the array. *)
Definition listdir (reads : list dirent) : option (list t_fs_entry * nat) :=
  let cap := 8%nat in
  let ret := malloc_entries cap in
  match clear_name ret 0 with
  | None => None
  | Some ret =>
      match listdir_loop reads cap 0 ret with
      | None => None
      | Some (_, nument, ret) =>
          Some (qsort fncomp (firstn nument ret) ++ skipn nument ret, nument)
      end
  end.

End Listdir.

(** [(signed)x] for an [unsigned x]. *)
Definition s32 (x : Z) : Z := if x <? 2 ^ 31 then x else x - 2 ^ 32.

(** The two [if]s on [menu_sel] at the end of the loop of [main]: [down]
    and [up] are whether [keysDown()] has [KEY_DOWN] and [KEY_UP]. *)
Definition menu_step (down up : bool) (menu_sel : Z) : Z :=
  let menu_sel := if down then Z.land (u32 (menu_sel + 1)) 3 else menu_sel in
  let menu_sel := if up then Z.land (u32 (menu_sel - 1)) 3 else menu_sel in
  menu_sel.

(** The four [if]s on [cur_entry] and [top_entry] in the file browser of
    [main]. *)
Definition browser_cursor (down up : bool) (num_entries cur_entry top_entry : Z) : Z * Z :=
  let cur_entry :=
    if down
    then (if u32 (cur_entry + 1) <? num_entries then u32 (cur_entry + 1) else cur_entry)
    else cur_entry in
  let cur_entry :=
    if up then (if negb (cur_entry =? 0) then u32 (cur_entry - 1) else 0) else cur_entry in
  let top_entry :=
    if 8 <=? s32 cur_entry - s32 top_entry then u32 (cur_entry - 7) else top_entry in
  let top_entry := if cur_entry <? top_entry then cur_entry else top_entry in
  (cur_entry, top_entry).

(** The loop that prints the rows of the file browser: [for (unsigned i =
    0; i < 8; i++) { if (!l[top_entry + i].fn[0]) break; printf(...); }]
    with [n] iterations left.  A row is whether it carries the mark and
    the at most 28 characters of the name that [%.28s] prints; [None] is a
    read outside the array. *)
Fixpoint browser_rows (n : nat) (i : Z) (l : list t_fs_entry) (top_entry cur_entry : Z)
  : option (list (bool * string)) :=
  match n with
  | O => Some []
  | S n' =>
      match nth_error l (Z.to_nat (u32 (top_entry + i))) with
      | None => None
      | Some e =>
          if String.eqb (fn e) EmptyString then Some []
          else
            match browser_rows n' (i + 1) l top_entry cur_entry with
            | None => None
            | Some rows =>
                Some ((u32 (i + top_entry) =? cur_entry, substring 0 28 (fn e)) :: rows)
            end
      end
  end.

(* ================================================================== *)
(** * main.c: selecting and flashing an image *)

(** The lines [select_image] prints, without their colour codes. *)
Inductive message : Type :=
| CouldNotStat            (* "Could not stat() the selected file" *)
| FileTooBig              (* "The file is bigger than 512KiB!" *)
| CouldNotOpen            (* "Could not open the selected file!" *)
| ReadingFile             (* "Reading file ..." *)
| CouldNotRead            (* "Could not read the file correctly!" *)
| FileLoaded (hash : list Z) (* "File loaded with hash: ...", 8 bytes *)
| InvalidHeader           (* "Invalid firmware file detected (invalid header)" *)
| LooksValid              (* "Looks like a valid GBA rom/firmware" *)
| ReadyToFlash (size : Z) (* the top screen: file, size, "Ready to flash" *)
| ErasingFlash            (* "Erasing flash chip ..." *)
| EraseFailed             (* "Erase failed!" *)
| EraseComplete           (* "Erase operation complete" *)
| EraseValidationFailed   (* "Erase validation failed!" *)
| WritingFlash            (* "Writing flash chip ..." *)
| FlashedOk               (* "Firmware flashed successfully!" *)
| FlashingFailed          (* "Flashing operation failed!" *)
| Verifying               (* "Verifying written data ..." *)
| ValidationPassed        (* "Validation passed!" *)
| ValidationError.        (* "Validation error!" *)

Section SelectImage.

Context {device : Type} {cartridge : Cartridge device}.

Local Open Scope bus_scope.

(** The block of [select_image] run when L, R and A are held: the
    value is what it prints. *)
Definition select_image_flash (fwimg : Z -> Z) (st_size : Z) : M device (list message) :=
  ok <- flash_erase ;;
  if negb ok then ret [ErasingFlash; EraseFailed]
  else
    errf <- flash_erase_check ;;
    if errf then ret [ErasingFlash; EraseComplete; EraseValidationFailed]
    else
      written <- flash_write fwimg st_size ;;
      valid <- flash_validate fwimg st_size ;;
      ret [ ErasingFlash; EraseComplete; WritingFlash;
            if written then FlashedOk else FlashingFailed;
            Verifying;
            if valid then ValidationPassed else ValidationError ].

(** The [while (1)] loop of [select_image].  A frame is what the keys
    give after [scanKeys()]: whether [keysDown()] has KEY_B, and whether
    [keysHeld()] has all of KEY_L, KEY_R and KEY_A.  The value is what
    is printed and whether the loop has been left; it has not when the
    frames run out first. *)
Fixpoint select_image_wait (frames : list (bool * bool)) (fwimg : Z -> Z) (st_size : Z)
  : M device (list message * bool) :=
  match frames with
  | [] => ret ([], false)
  | (key_b, keys_lra) :: rest =>
      if key_b then ret ([], true)
      else if keys_lra
      then printed <- select_image_flash fwimg st_size ;; ret (printed, true)
      else select_image_wait rest fwimg st_size
  end.

(** [void select_image(const char *path, PrintConsole *tops,
    PrintConsole *bots)].  [st] is the size [stat] reports, or [None]
    when it fails; [fopen_ok] whether [fopen] gives a file; [fread_ret]
    what [fread] returns and [fwimg] the memory behind the buffer after
    it.  The value is what is printed and whether the function has
    returned. *)
Definition select_image (host : byte_order) (st : option Z) (fopen_ok : bool)
  (fread_ret : Z) (fwimg : Z -> Z) (frames : list (bool * bool))
  : M device (list message * bool) :=
  match st with
  | None => ret ([CouldNotStat], true)
  | Some st_size =>
      if 512 * 1024 <? st_size then ret ([FileTooBig], true)
      else if negb fopen_ok then ret ([CouldNotOpen], true)
      else if negb (fread_ret =? st_size) then ret ([ReadingFile; CouldNotRead], true)
      else
        let hash := sha256sum host (bytes_at fwimg 0 (Z.to_nat st_size)) st_size in
        let loaded := [ReadingFile; FileLoaded (firstn 8 hash)] in
        if negb (valid_header host fwimg) then ret (loaded ++ [InvalidHeader], true)
        else
          r <- select_image_wait frames fwimg st_size ;;
          ret (loaded ++ [LooksValid; ReadyToFlash st_size] ++ fst r, snd r)
  end.

End SelectImage.

(* ================================================================== *)
(** * Notions the statements are written with *)

Section BusNotions.

Context {device : Type} {cartridge : Cartridge device}.

(** The owner of the bus, as [sysGetCartOwner] reports it. *)
Definition owner (m : machine device) : bool := fst (sysGetCartOwner m).

(** A piece of code keeps the registers when it changes neither
    [REG_EXMEMCNT] nor the mapping mode. *)
Definition keeps_regs {A : Type} (c : M device A) : Prop :=
  forall m, exmemcnt (snd (c m)) = exmemcnt m /\ sd_mode (snd (c m)) = sd_mode m.

(** [wp c Q m]: running [c] from [m] gives a value and a machine that
    satisfy [Q]. *)
Definition wp {A : Type} (c : M device A) (Q : A -> machine device -> Prop)
  (m : machine device) : Prop := Q (fst (c m)) (snd (c m)).

(** The mode values the operations ask for. *)
Definition mode_value (mapped_area : Z) (write_access sdcard_interface : bool) : Z :=
  u16 (Z.lor (Z.lor mapped_area (if sdcard_interface then 0x2 else 0x0))
             (if write_access then 0x4 else 0x0)).

(** The four writes of the handshake, latest first. *)
Definition handshake (md value : Z) : list event :=
  [ EvWrite md REG_SD_MODE value; EvWrite md REG_SD_MODE value;
    EvWrite md REG_SD_MODE MODESWITCH_MAGIC; EvWrite md REG_SD_MODE MODESWITCH_MAGIC ].

(** The half-word indices [i], [i + 1], ... [i + n - 1]. *)
Fixpoint upfrom (i : Z) (n : nat) : list Z :=
  match n with
  | O => []
  | S n' => i :: upfrom (i + 1) n'
  end.

(** Reads of the values [vs] at consecutive indices from [i] on, in the
    order they are made. *)
Fixpoint read_events (md i : Z) (vs : list Z) : list event :=
  match vs with
  | [] => []
  | v :: vs' => EvRead md i v :: read_events md (i + 1) vs'
  end.

(** The two bytes of a half-word, low byte first. *)
Definition bytes_le16 (v : Z) : list Z := [Z.land v 0xFF; Z.land (Z.shiftr v 8) 0xFF].

(** What the scan can have read when it ends with the flag [errf]:
    nothing but [0xFFFF] from all [n] half-words, or [0xFFFF] from some
    and then another value. *)
Definition scanned (n : nat) (vs : list Z) (errf : bool) : Prop :=
  if errf
  then exists vs0 v, vs = vs0 ++ [v] /\ Forall (fun x => x = 0xFFFF) vs0 /\
                     v <> 0xFFFF /\ (List.length vs <= n)%nat
  else Forall (fun x => x = 0xFFFF) vs /\ List.length vs = n.

(** The events of a wait that read the status pairs [pairs]. *)
Definition poll_events (md : Z) (pairs : list (Z * Z)) : list event :=
  flat_map (fun p => [EvSleep; EvRead md 0 (fst p); EvRead md 0 (snd p)]) pairs.

(** A device whose two reads of the status location in a row never agree,
    and one whose two reads in a row always do. *)
Definition reads_differ (d0 : device) : Prop :=
  fst (dev_read d0 0) <> fst (dev_read (snd (dev_read d0 0)) 0).

Definition reads_agree (d0 : device) : Prop :=
  fst (dev_read d0 0) = fst (dev_read (snd (dev_read d0 0)) 0).

(** Whether the last two values of a list are the same. *)
Definition last_pair_equal (vs : list Z) : bool :=
  match rev vs with
  | b :: a :: _ => a =? b
  | _ => false
  end.

(** The 16-bit word assembled from the bytes at offsets [i] and [i + 1]. *)
Definition word_at (buf : Z -> Z) (i : Z) : Z :=
  u16 (Z.lor (buf i) (Z.shiftl (buf (i + 1)) 8)).

(** The writes of one program sequence, for the word at byte offset [i]:
    unlock, program command, the data word at its half-word index, and
    the return to idle. *)
Definition word_writes (md : Z) (buf : Z -> Z) (i : Z) : list (Z * Z * Z) :=
  [ (md, addr_perm 0x555, 0x00AA); (md, addr_perm 0x2AA, 0x0055);
    (md, addr_perm 0x555, 0x00A0); (md, i / 2, word_at buf i); (md, 0, 0x00F0) ].

(** The byte offsets [i], [i + 2], ... of [k] words in a row. *)
Fixpoint words_from (i : Z) (k : nat) : list Z :=
  match k with
  | O => []
  | S k' => i :: words_from (i + 2) k'
  end.

(** The machine when the loop body [body] has been run for [k] offsets in
    a row from [i], whatever it answered. *)
Fixpoint run_words (body : Z -> M device bool) (k : nat) (i : Z) (m : machine device)
  : machine device :=
  match k with
  | O => m
  | S k' => run_words body k' (i + 2) (snd (body i m))
  end.

(** A loop that runs [body] for the offsets [i], [i + 2], ... at most [n]
    times and is left with [false] as soon as [body] answers [true]. *)
Fixpoint loop_until_bad (body : Z -> M device bool) (n : nat) (i : Z) : M device bool :=
  match n with
  | O => ret true
  | S n' => bind (body i) (fun bad => if bad then ret false else loop_until_bad body n' (i + 2))
  end.

(** The machine when the loop of [flash_write] is entered, and when
    [flash_write] returns having left the loop in [m]. *)
Definition write_entry (m : machine device) : machine device :=
  snd ((sysGetCartOwner ;;
        sysSetCartOwner BUS_OWNER_ARM9 ;;
        set_supercard_mode MAPPED_FIRMWARE true false ;;
        exmemcnt_or 0xF ;;
        wr 0 0x00F0)%bus m).

Definition write_exit (pmode : bool) (m : machine device) : machine device :=
  snd ((set_supercard_mode MAPPED_FIRMWARE false false ;; sysSetCartOwner pmode)%bus m).

(** Whether the body of the loop fails on word number [j] (from 0) when
    every word before it went through: the poll of that word timed out,
    or the word read back is not the word written. *)
Definition word_fails (buf : Z -> Z) (m : machine device) (j : nat) : bool :=
  fst (flash_write_word buf (2 * Z.of_nat j)
         (run_words (flash_write_word buf) j 0 (write_entry m))).

(** The writes [flash_write] makes before its loop, entered in mode [md],
    and after it. *)
Definition write_prologue (md : Z) : list (Z * Z * Z) :=
  [ (md, REG_SD_MODE, MODESWITCH_MAGIC); (md, REG_SD_MODE, MODESWITCH_MAGIC);
    (md, REG_SD_MODE, 4); (md, REG_SD_MODE, 4); (4, 0, 0x00F0) ].

Definition write_epilogue : list (Z * Z * Z) :=
  [ (4, REG_SD_MODE, MODESWITCH_MAGIC); (4, REG_SD_MODE, MODESWITCH_MAGIC);
    (4, REG_SD_MODE, 0); (4, REG_SD_MODE, 0) ].

End BusNotions.

(* ================================================================== *)
(** * The reference: SHA-256 as the Secure Hash Standard (FIPS 180-4)
    words it, written without looking at [sha256.c] *)

Module FIPS180.

(** Section 3.2: operations on 32-bit words. *)
Definition SHR (n x : Z) : Z := Z.shiftr x n.

Definition ROTR (n x : Z) : Z := Z.lor (Z.shiftr x n) (Z.shiftl x (32 - n) mod 2 ^ 32).

Definition NOT (x : Z) : Z := Z.lxor x (Z.ones 32).

(** Section 4.1.2: the six logical functions. *)
Definition Ch (x y z : Z) : Z := Z.lxor (Z.land x y) (Z.land (NOT x) z).

Definition Maj (x y z : Z) : Z := Z.lxor (Z.lxor (Z.land x y) (Z.land x z)) (Z.land y z).

Definition Sigma0 (x : Z) : Z := Z.lxor (Z.lxor (ROTR 2 x) (ROTR 13 x)) (ROTR 22 x).

Definition Sigma1 (x : Z) : Z := Z.lxor (Z.lxor (ROTR 6 x) (ROTR 11 x)) (ROTR 25 x).

Definition sigma0 (x : Z) : Z := Z.lxor (Z.lxor (ROTR 7 x) (ROTR 18 x)) (SHR 3 x).

Definition sigma1 (x : Z) : Z := Z.lxor (Z.lxor (ROTR 17 x) (ROTR 19 x)) (SHR 10 x).

(** Section 4.2.2: the constants, the first 32 bits of the fractional parts
    of the cube roots of the first 64 primes. *)
Definition primes64 : list Z :=
  [ 2; 3; 5; 7; 11; 13; 17; 19; 23; 29; 31; 37; 41; 43; 47; 53;
    59; 61; 67; 71; 73; 79; 83; 89; 97; 101; 103; 107; 109; 113; 127; 131;
    137; 139; 149; 151; 157; 163; 167; 173; 179; 181; 191; 193; 197; 199; 211; 223;
    227; 229; 233; 239; 241; 251; 257; 263; 269; 271; 277; 281; 283; 293; 307; 311 ].

(** The integer cube root, found bit by bit from bit [n - 1] down: the
    largest [r] below [2 ^ n] whose cube is at most [x]. *)
Fixpoint cube_root (n : nat) (x r : Z) : Z :=
  match n with
  | O => r
  | S n' =>
      let r' := r + 2 ^ Z.of_nat n' in
      cube_root n' x (if r' ^ 3 <=? x then r' else r)
  end.

(** The first 32 bits of the fractional part of the cube root and of the
    square root of [p]. *)
Definition frac_cbrt (p : Z) : Z := cube_root 40 (p * 2 ^ 96) 0 mod 2 ^ 32.

Definition frac_sqrt (p : Z) : Z := Z.sqrt (p * 2 ^ 64) mod 2 ^ 32.

Definition K : list Z := Eval vm_compute in map frac_cbrt primes64.

(** Section 5.3.3: the initial hash value, the first 32 bits of the
    fractional parts of the square roots of the first 8 primes. *)
Definition H0 : list Z := Eval vm_compute in map frac_sqrt (firstn 8 primes64).

(** The bytes of a 32-bit and of a 64-bit number, most significant first. *)
Definition be32 (x : Z) : list Z :=
  [ Z.shiftr x 24 mod 256; Z.shiftr x 16 mod 256; Z.shiftr x 8 mod 256; x mod 256 ].

Definition be64 (x : Z) : list Z := be32 (Z.shiftr x 32) ++ be32 x.

(** Section 5.1.1: padding.  With [l] the length of the message in bits,
    append the bit 1, then [k] zero bits, [k] the smallest non-negative
    solution of [l + 1 + k = 448 mod 512], then [l] as a 64-bit number.
    In bytes the bit 1 and the first seven zero bits are the byte [0x80]. *)
Definition pad (M : list Z) : list Z :=
  let l := 8 * Z.of_nat (List.length M) in
  let k := (448 - (l + 1)) mod 512 in
  M ++ [0x80] ++ repeat 0 (Z.to_nat ((k - 7) / 8)) ++ be64 l.

(** Section 5.2.1: parsing into 512-bit blocks of sixteen 32-bit words. *)
Fixpoint blocks (n : nat) (bs : list Z) : list (list Z) :=
  match n with
  | O => []
  | S n' => firstn 64 bs :: blocks n' (skipn 64 bs)
  end.

Fixpoint words (n : nat) (bs : list Z) : list Z :=
  match n, bs with
  | S n', b0 :: b1 :: b2 :: b3 :: rest =>
      (b0 * 2 ^ 24 + b1 * 2 ^ 16 + b2 * 2 ^ 8 + b3) :: words n' rest
  | _, _ => []
  end.

(** Section 6.2.2, step 1: the message schedule [W_0 .. W_63]. *)
Definition W_next (ws : list Z) : Z :=
  let t := List.length ws in
  (sigma1 (nth (t - 2) ws 0) + nth (t - 7) ws 0 +
   sigma0 (nth (t - 15) ws 0) + nth (t - 16) ws 0) mod 2 ^ 32.

Fixpoint extend (n : nat) (ws : list Z) : list Z :=
  match n with
  | O => ws
  | S n' => extend n' (ws ++ [W_next ws])
  end.

Definition schedule (M : list Z) : list Z := extend 48 M.

(** Steps 2 and 3: the eight working variables and one of the 64 rounds. *)
Definition round (W : list Z) (v : list Z) (t : nat) : list Z :=
  match v with
  | [a; b; c; d; e; f; g; h] =>
      let T1 := (h + Sigma1 e + Ch e f g + nth t K 0 + nth t W 0) mod 2 ^ 32 in
      let T2 := (Sigma0 a + Maj a b c) mod 2 ^ 32 in
      [ (T1 + T2) mod 2 ^ 32; a; b; c; (d + T1) mod 2 ^ 32; e; f; g ]
  | _ => v
  end.

(** Step 4: the next intermediate hash value. *)
Fixpoint add_words (H v : list Z) : list Z :=
  match H, v with
  | x :: H', y :: v' => (x + y) mod 2 ^ 32 :: add_words H' v'
  | _, _ => []
  end.

Definition compress (H : list Z) (block : list Z) : list Z :=
  let W := schedule (words 16 block) in
  add_words H (fold_left (round W) (seq 0 64) H).

(** The digest of a message of bytes. *)
Definition sha256 (M : list Z) : list Z :=
  let P := pad M in
  flat_map be32 (fold_left compress (blocks (List.length P / 64) P) H0).

End FIPS180.

(* ================================================================== *)
(** * Notions the statements about the hash are written with *)

(** A list of bytes. *)
Definition is_bytes (l : list Z) : bool := forallb (fun b => (0 <=? b) && (b <? 256)) l.

(** At round [i] the window holds [W_i .. W_(i+15)], each at its index
    modulo 16, as far as the schedule goes. *)
Definition window (W : list Z) (i : nat) (w : list Z) : Prop :=
  List.length w = 16%nat /\
  forall t, (i <= t < i + 16)%nat -> (t < 64)%nat -> nth (t mod 16) w 0 = nth t W 0.

(** The last one or two blocks, from the [r] bytes left over. *)
Definition last_blocks (rest : list Z) (len : Z) : list (list Z) :=
  let r := List.length rest in
  if (56 <=? r)%nat
  then [ rest ++ 0x80 :: repeat 0 (63 - r); repeat 0 56 ++ FIPS180.be64 (8 * len) ]
  else [ rest ++ 0x80 :: repeat 0 (55 - r) ++ FIPS180.be64 (8 * len) ].

(* ================================================================== *)
(** * Device models, buffers and messages the statements are tried on *)

(** A buffer of erased bytes. *)
Definition erased_buf : Z -> Z := fun _ => 0xFF.

(** A device that lets the first word through and gives [0x1234] back for
    the second: per word two reads of the wait, two reads of the check
    after it, and the word read back. *)
Definition second_word_bad : list Z :=
  [1; 1; 2; 2; 0xFFFF; 3; 3; 4; 4; 0x1234].

(** A device whose status reads agree in the first round of the wait and
    differ in the two reads made after it. *)
Definition settles_then_toggles : list Z := [5; 5; 6; 7].

(** A device whose status reads differ all through the wait of
    [flash_erase] and agree in the two reads made after it. *)
Definition toggles_then_settles : list Z :=
  map u16 (upfrom 0 (2 * ERASE_BUDGET)) ++ [7; 7].

(** The bytes of a string of characters. *)
Definition bytes_of_string (s : string) : list Z :=
  map (fun a => Z.of_N (Ascii.N_of_ascii a)) (list_ascii_of_string s).

(** Messages with published digests: the empty one, the one-block and the
    two-block message of the standard's examples (3 and 56 bytes), and
    messages of 55 and 57 bytes around the point where a second block of
    padding is needed. *)
Definition msg_abc : list Z := bytes_of_string "abc".

Definition msg_56 : list Z :=
  bytes_of_string "abcdbcdecdefdefgefghfghighijhijkijkljklmklmnlmnomnopnopq".

Definition msg_55 : list Z := firstn 55 msg_56.

Definition msg_57 : list Z := msg_56 ++ [0x72].

Definition msg_112 : list Z :=
  bytes_of_string
    "abcdefghbcdefghicdefghijdefghijkefghijklfghijklmghijklmnhijklmnoijklmnopjklmnopqklmnopqrlmnopqrsmnopqrstnopqrstu".

Definition digest_empty : list Z :=
  [ 0xe3; 0xb0; 0xc4; 0x42; 0x98; 0xfc; 0x1c; 0x14;
    0x9a; 0xfb; 0xf4; 0xc8; 0x99; 0x6f; 0xb9; 0x24;
    0x27; 0xae; 0x41; 0xe4; 0x64; 0x9b; 0x93; 0x4c;
    0xa4; 0x95; 0x99; 0x1b; 0x78; 0x52; 0xb8; 0x55 ].

Definition digest_abc : list Z :=
  [ 0xba; 0x78; 0x16; 0xbf; 0x8f; 0x01; 0xcf; 0xea;
    0x41; 0x41; 0x40; 0xde; 0x5d; 0xae; 0x22; 0x23;
    0xb0; 0x03; 0x61; 0xa3; 0x96; 0x17; 0x7a; 0x9c;
    0xb4; 0x10; 0xff; 0x61; 0xf2; 0x00; 0x15; 0xad ].

Definition digest_56 : list Z :=
  [ 0x24; 0x8d; 0x6a; 0x61; 0xd2; 0x06; 0x38; 0xb8;
    0xe5; 0xc0; 0x26; 0x93; 0x0c; 0x3e; 0x60; 0x39;
    0xa3; 0x3c; 0xe4; 0x59; 0x64; 0xff; 0x21; 0x67;
    0xf6; 0xec; 0xed; 0xd4; 0x19; 0xdb; 0x06; 0xc1 ].

Definition digest_112 : list Z :=
  [ 0xcf; 0x5b; 0x16; 0xa7; 0x78; 0xaf; 0x83; 0x80;
    0x03; 0x6c; 0xe5; 0x9e; 0x7b; 0x04; 0x92; 0x37;
    0x0b; 0x24; 0x9b; 0x11; 0xe8; 0xf0; 0x7a; 0x51;
    0xaf; 0xac; 0x45; 0x03; 0x7a; 0xfe; 0xe9; 0xd1 ].

Definition digest_55 : list Z :=
  [ 0xaa; 0x35; 0x3e; 0x00; 0x9e; 0xdb; 0xae; 0xbf;
    0xc6; 0xe4; 0x94; 0xc8; 0xd8; 0x47; 0x69; 0x68;
    0x96; 0xcb; 0x8b; 0x39; 0x8e; 0x01; 0x73; 0xa4;
    0xb5; 0xc1; 0xb6; 0x36; 0x29; 0x2d; 0x87; 0xc7 ].

Definition digest_57 : list Z :=
  [ 0x4e; 0x0e; 0xa7; 0x75; 0xaa; 0x77; 0x66; 0xcf;
    0x27; 0x36; 0xd5; 0xa4; 0x0e; 0x4c; 0x6f; 0x76;
    0xe1; 0xc4; 0xc6; 0x9e; 0xda; 0x0f; 0x3c; 0x78;
    0x2c; 0x5a; 0x2b; 0xd7; 0x7b; 0x3f; 0x96; 0x95 ].

(** Fifty-six bytes [0x61]: a message that fills its last block up to the
    place of the length. *)
Definition msg_a56 : list Z := repeat 0x61 56.

(* ================================================================== *)
(** * Further notions for the bus *)

(** The four writes of a mode switch as they show in the log: made in mode
    [md], asking for the mode [value]. *)
Definition mode_switch (md value : Z) : list (Z * Z * Z) :=
  [ (md, REG_SD_MODE, MODESWITCH_MAGIC); (md, REG_SD_MODE, MODESWITCH_MAGIC);
    (md, REG_SD_MODE, value); (md, REG_SD_MODE, value) ].

(** [n] writes of the reset command [0xF0] at index 0, in mode 4. *)
Definition resets (n : nat) : list (Z * Z * Z) := repeat (4, 0, 0x00F0) n.

(** The wiring of [addr_perm] read the other way: the address line that
    each line of the flash device is driven back to. *)
Definition addr_unperm (x : Z) : Z :=
  Z.lor (Z.lor (Z.lor (Z.lor (Z.lor (Z.lor (Z.lor (Z.lor
    (Z.land x 0xFFFFFE02)
    (shr32 (Z.land x 0x080) 7))
    (shr32 (Z.land x 0x040) 4))
    (shr32 (Z.land x 0x020) 2))
    (shl32 (Z.land x 0x001) 4))
    (shl32 (Z.land x 0x004) 3))
    (shr32 (Z.land x 0x100) 2))
    (shl32 (Z.land x 0x010) 3))
    (shl32 (Z.land x 0x008) 5).

(** For a memory read through [content] that decodes indices by [cell]:
    the bytes of the cells written so far, at the indices below [k], hold
    the test pattern. *)
Definition filled {device : Type} (content : device -> Z -> Z) (cell : Z -> Z)
  (k : Z) (d : device) : Prop :=
  forall b, 0 <= b < 65536 -> (exists j, 0 <= j < k /\ cell j = cell b) ->
            content d b = u8 (sram_pattern b).

(** The sum of the [n] bytes from offset [o] on. *)
Fixpoint sum_at (fw : Z -> Z) (o : Z) (n : nat) : Z :=
  match n with
  | O => 0
  | S n' => fw o + sum_at fw (o + 1) n'
  end.

(** A header of zero bytes, and the same memory followed by other bytes
    from offset 190 on. *)
Definition zero_header : Z -> Z := fun _ => 0.

Definition zero_header_then_ones : Z -> Z := fun o => if o <? 190 then 0 else 1.

(** A flash of 512 KiB of zero bytes. *)
Definition zeroed_flash : list Z := repeat 0 (Z.to_nat (512 * 1024)).

(** The entries [listdir] is to keep of what [readdir] returns: those
    before the end of the directory or the first empty name, without the
    entry ".", directories with a slash after their name. *)
Fixpoint kept_entries (reads : list dirent) : list t_fs_entry :=
  match reads with
  | [] => []
  | cur :: rest =>
      if String.eqb (d_name cur) EmptyString then []
      else if String.eqb (d_name cur) "."%string then kept_entries rest
      else
        let dir := d_type cur =? DT_DIR in
        FsEntry (if dir then (d_name cur ++ "/")%string else d_name cur) dir
          :: kept_entries rest
  end.

(** A sorting function to stand for [qsort]: insertion into a sorted
    list, after the entries that compare lower or equal. *)
Fixpoint insert_entry (cmp : t_fs_entry -> t_fs_entry -> Z) (e : t_fs_entry)
  (l : list t_fs_entry) : list t_fs_entry :=
  match l with
  | [] => [e]
  | x :: l' => if cmp e x <? 0 then e :: l else x :: insert_entry cmp e l'
  end.

Definition insertion_sort (cmp : t_fs_entry -> t_fs_entry -> Z) (l : list t_fs_entry)
  : list t_fs_entry :=
  fold_right (insert_entry cmp) [] l.

(** The state of the file browser fits a directory of [num_entries]
    entries: the cursor is on an entry (on the first place of an empty
    directory) and within the eight rows from [top_entry] on. *)
Definition cursor_ok (num_entries cur_entry top_entry : Z) : Prop :=
  0 <= top_entry <= cur_entry /\ cur_entry <= top_entry + 7 /\
  (cur_entry < num_entries \/ (num_entries = 0 /\ cur_entry = 0)).

(** An array as [listdir] leaves it: more than [nument] entries long, and
    with an empty name at index [nument]. *)
Definition terminated (ret : list t_fs_entry) (nument : nat) : Prop :=
  exists e, nth_error ret nument = Some e /\ fn e = EmptyString.

(** A directory as [readdir] may give it. *)
Definition sample_dir : list dirent :=
  [ Dirent "." DT_DIR; Dirent ".." DT_DIR; Dirent "superfw.gba" 8; Dirent "roms" DT_DIR;
    Dirent "a.bin" 8; Dirent "b.bin" 8; Dirent "c.bin" 8; Dirent "d.bin" 8;
    Dirent "e.bin" 8; Dirent "f.bin" 8; Dirent "g.bin" 8 ].

(** An array of three entries and the empty name after them. *)
Definition sample_listing : list t_fs_entry :=
  [ FsEntry "a.bin" false; FsEntry "roms/" true; FsEntry "superfw.gba" false;
    FsEntry "" false ].

(** Whether the frames lead into the flashing block: the first frame with
    KEY_B down or with L, R and A held has the three held and KEY_B not
    down. *)
Fixpoint armed (frames : list (bool * bool)) : bool :=
  match frames with
  | [] => false
  | (key_b, keys_lra) :: rest =>
      if key_b then false else if keys_lra then true else armed rest
  end.

(** Whether a loop over the frames is left: some frame has KEY_B down or
    the three keys held. *)
Definition decided (frames : list (bool * bool)) : bool :=
  existsb (fun f => fst f || snd f) frames.

(** The flashing block of [select_image] over any four operations in the
    place of erase, erase check, program and compare. *)
Definition flash_block {device : Type} (erase check write validate : M device bool)
  : M device (list message) :=
  bind erase (fun ok =>
    if negb ok then ret [ErasingFlash; EraseFailed]
    else
      bind check (fun errf =>
        if errf then ret [ErasingFlash; EraseComplete; EraseValidationFailed]
        else
          bind write (fun written =>
            bind validate (fun valid =>
              ret [ ErasingFlash; EraseComplete; WritingFlash;
                    if written then FlashedOk else FlashingFailed;
                    Verifying;
                    if valid then ValidationPassed else ValidationError ])))).

(* ================================================================== *)
(** * A model of the flash chip

    A NOR flash of 262144 half-words with the command set the operations
    use: every command starts with the two unlock writes ([AA] at [555],
    [55] at [2AA]); then [A0] at [555] makes the next write a program
    operation, which can only clear bits; [80] and a second unlock
    followed by [10] at [555] erase the chip to [FFFF]; [90] makes the chip
    answer reads with its identification until it is reset; [F0] resets.
    Every operation of the chip is taken to complete at once.  The
    address lines reach the chip through the wiring that [addr_perm]
    makes up for: the chip sees the index [addr_unperm i] when the program
    uses the index [i].  Writes above the chip, like those to the mode
    register, do not reach it. *)

Inductive nor_mode : Type :=
| NorRead | NorUnlocked1 | NorUnlocked2 | NorProgram
| NorErase | NorEraseUnlocked1 | NorEraseUnlocked2 | NorAutoselect.

Record nor_flash : Type := NorFlash {
  nor_cells : Z -> Z;
  nor_now : nor_mode
}.

Definition NOR_WORDS : Z := 512 * 1024 / 2.

(** The identification of the chip: manufacturer and device. *)
Definition NOR_MANUFACTURER : Z := 0x00C2.
Definition NOR_DEVICE : Z := 0x2249.

Definition nor_command (d : nor_flash) (a v : Z) : nor_flash :=
  let into mode := NorFlash (nor_cells d) mode in
  match nor_now d with
  | NorProgram =>
      NorFlash (fun x => if x =? a then Z.land (nor_cells d x) v else nor_cells d x) NorRead
  | mode =>
      if v =? 0xF0 then into NorRead
      else
        match mode with
        | NorRead => if (a =? 0x555) && (v =? 0xAA) then into NorUnlocked1 else into NorRead
        | NorUnlocked1 =>
            if (a =? 0x2AA) && (v =? 0x55) then into NorUnlocked2 else into NorRead
        | NorUnlocked2 =>
            if a =? 0x555
            then (if v =? 0xA0 then into NorProgram
                  else if v =? 0x80 then into NorErase
                  else if v =? 0x90 then into NorAutoselect
                  else into NorRead)
            else into NorRead
        | NorErase => if (a =? 0x555) && (v =? 0xAA) then into NorEraseUnlocked1 else into NorRead
        | NorEraseUnlocked1 =>
            if (a =? 0x2AA) && (v =? 0x55) then into NorEraseUnlocked2 else into NorRead
        | NorEraseUnlocked2 =>
            if (a =? 0x555) && (v =? 0x10) then NorFlash (fun _ => 0xFFFF) NorRead
            else into NorRead
        | NorAutoselect => into NorAutoselect
        | NorProgram => into NorRead
        end
  end.

Definition nor_write (d : nor_flash) (i v : Z) : nor_flash :=
  if (0 <=? i) && (i <? NOR_WORDS) then nor_command d (addr_unperm i) v else d.

Definition nor_read (d : nor_flash) (i : Z) : Z * nor_flash :=
  if (0 <=? i) && (i <? NOR_WORDS)
  then
    let a := addr_unperm i in
    match nor_now d with
    | NorAutoselect =>
        (if a =? 0 then NOR_MANUFACTURER else if a =? 1 then NOR_DEVICE else 0, d)
    | _ => (nor_cells d a, d)
    end
  else (0xFFFF, d).

#[export] Instance nor_cart : Cartridge nor_flash :=
  {| dev_read := nor_read; dev_write := nor_write; dev_sleep := fun d => d |}.

(** An image to exercise the chip with: the byte at offset [o] is [o]
    modulo 256. *)
Definition ramp_image : Z -> Z := fun o => o mod 256.

(* ================================================================== *)
(** * The cartridge bus: facts *)

Create HintDb keeps.

(** The loop bounds are large numbers; proofs never need their value. *)
Opaque ERASE_BUDGET WRITE_BUDGET FLASH_WORDS.
#[global] Create Rewrite HintDb evlog.

Section BusFacts.

Context {device : Type} {cartridge : Cartridge device}.

Local Open Scope bus_scope.

(** ** Running sequenced code *)

Lemma bind_run {A B : Type} (c : M device A) (k : A -> M device B) (m : machine device) :
  bind c k m = k (fst (c m)) (snd (c m)).
Proof. unfold bind. destruct (c m); reflexivity. Qed.

(** ** The log, one kind of event at a time *)

Lemma reads_of_read (md i v : Z) (t : list event) :
  reads_of (EvRead md i v :: t) = reads_of t ++ [(md, i, v)].
Proof. unfold reads_of; simpl. rewrite flat_map_app. reflexivity. Qed.

Lemma reads_of_write (md i v : Z) (t : list event) :
  reads_of (EvWrite md i v :: t) = reads_of t.
Proof. unfold reads_of; simpl. rewrite flat_map_app; simpl. apply app_nil_r. Qed.

Lemma reads_of_sleep (t : list event) : reads_of (EvSleep :: t) = reads_of t.
Proof. unfold reads_of; simpl. rewrite flat_map_app; simpl. apply app_nil_r. Qed.

Lemma reads_of_load (o : Z) (t : list event) : reads_of (EvLoad o :: t) = reads_of t.
Proof. unfold reads_of; simpl. rewrite flat_map_app; simpl. apply app_nil_r. Qed.

Lemma writes_of_write (md i v : Z) (t : list event) :
  writes_of (EvWrite md i v :: t) = writes_of t ++ [(md, i, v)].
Proof. unfold writes_of; simpl. rewrite flat_map_app. reflexivity. Qed.

Lemma writes_of_read (md i v : Z) (t : list event) :
  writes_of (EvRead md i v :: t) = writes_of t.
Proof. unfold writes_of; simpl. rewrite flat_map_app; simpl. apply app_nil_r. Qed.

Lemma writes_of_sleep (t : list event) : writes_of (EvSleep :: t) = writes_of t.
Proof. unfold writes_of; simpl. rewrite flat_map_app; simpl. apply app_nil_r. Qed.

Lemma writes_of_load (o : Z) (t : list event) : writes_of (EvLoad o :: t) = writes_of t.
Proof. unfold writes_of; simpl. rewrite flat_map_app; simpl. apply app_nil_r. Qed.

Lemma loads_of_load (o : Z) (t : list event) : loads_of (EvLoad o :: t) = loads_of t ++ [o].
Proof. unfold loads_of; simpl. rewrite flat_map_app. reflexivity. Qed.

Lemma loads_of_read (md i v : Z) (t : list event) :
  loads_of (EvRead md i v :: t) = loads_of t.
Proof. unfold loads_of; simpl. rewrite flat_map_app; simpl. apply app_nil_r. Qed.

Lemma loads_of_write (md i v : Z) (t : list event) :
  loads_of (EvWrite md i v :: t) = loads_of t.
Proof. unfold loads_of; simpl. rewrite flat_map_app; simpl. apply app_nil_r. Qed.

Lemma loads_of_sleep (t : list event) : loads_of (EvSleep :: t) = loads_of t.
Proof. unfold loads_of; simpl. rewrite flat_map_app; simpl. apply app_nil_r. Qed.

Lemma reads_of_app (l t : list event) : reads_of (l ++ t) = reads_of t ++ reads_of l.
Proof. unfold reads_of. rewrite rev_app_distr, flat_map_app. reflexivity. Qed.

Lemma writes_of_app (l t : list event) : writes_of (l ++ t) = writes_of t ++ writes_of l.
Proof. unfold writes_of. rewrite rev_app_distr, flat_map_app. reflexivity. Qed.

Lemma loads_of_app (l t : list event) : loads_of (l ++ t) = loads_of t ++ loads_of l.
Proof. unfold loads_of. rewrite rev_app_distr, flat_map_app. reflexivity. Qed.

(** ** What the steps leave alone *)

Lemma keeps_ret {A : Type} (a : A) : keeps_regs (ret (device := device) a).
Proof. intro m; split; reflexivity. Qed.

Lemma keeps_bind {A B : Type} (c : M device A) (k : A -> M device B) :
  keeps_regs c -> (forall a, keeps_regs (k a)) -> keeps_regs (bind c k).
Proof.
  intros Hc Hk m. rewrite bind_run.
  destruct (Hk (fst (c m)) (snd (c m))) as [H1 H2], (Hc m) as [H3 H4].
  split; congruence.
Qed.

Lemma keeps_rd (i : Z) : keeps_regs (rd i).
Proof. intro m; unfold rd; destruct (dev_read (cart m) i); split; reflexivity. Qed.

Lemma keeps_wr (i v : Z) : keeps_regs (wr i v).
Proof. intro m; split; reflexivity. Qed.

Lemma keeps_load (buf : Z -> Z) (o : Z) : keeps_regs (load (device := device) buf o).
Proof. intro m; split; reflexivity. Qed.

Lemma keeps_sleep : keeps_regs sleep_1ms.
Proof. intro m; split; reflexivity. Qed.

Lemma keeps_times (n : nat) (c : M device unit) : keeps_regs c -> keeps_regs (times n c).
Proof.
  intro Hc; induction n as [|n IH]; simpl.
  - apply keeps_ret.
  - apply keeps_bind; auto.
Qed.

Lemma keeps_if {A : Type} (b : bool) (c1 c2 : M device A) :
  keeps_regs c1 -> keeps_regs c2 -> keeps_regs (if b then c1 else c2).
Proof. destruct b; auto. Qed.

Hint Resolve keeps_ret keeps_rd keeps_wr keeps_load keeps_sleep keeps_times : keeps.

Ltac keeps :=
  repeat lazymatch goal with
    | |- keeps_regs (bind _ _) => apply keeps_bind; [|intro]
    | |- keeps_regs (if _ then _ else _) => apply keeps_if
    | |- _ => solve [auto with keeps]
    end.

Lemma keeps_erase_poll (n : nat) : keeps_regs (erase_poll n).
Proof. induction n; simpl; keeps. Qed.

Lemma keeps_write_poll (n : nat) : keeps_regs (write_poll n).
Proof. induction n; simpl; keeps. Qed.

Lemma keeps_erase_check_loop (n : nat) (i : Z) : keeps_regs (erase_check_loop n i).
Proof. revert i; induction n; intro i; simpl; keeps. Qed.

Lemma keeps_read_window (n : nat) (i : Z) : keeps_regs (read_window n i).
Proof. revert i; induction n; intro i; simpl; keeps. Qed.

Hint Resolve keeps_erase_poll keeps_write_poll keeps_erase_check_loop
  keeps_read_window : keeps.

Lemma keeps_flash_write_word (buf : Z -> Z) (i : Z) : keeps_regs (flash_write_word buf i).
Proof. unfold flash_write_word; keeps. Qed.

Hint Resolve keeps_flash_write_word : keeps.

Lemma keeps_flash_write_loop (n : nat) (buf : Z -> Z) (i : Z) :
  keeps_regs (flash_write_loop n buf i).
Proof. revert i; induction n; intro i; simpl; keeps. Qed.

(** ** The owner bit and the mode register *)

Lemma owner_set (arm9 : bool) (m : machine device) :
  owner (snd (sysSetCartOwner arm9 m)) = arm9.
Proof.
  unfold owner, sysGetCartOwner, sysSetCartOwner, ARM7_OWNS_ROM; simpl.
  rewrite Z.land_lor_distr_l, Z.land_ldiff.
  destruct arm9; reflexivity.
Qed.

Lemma owner_regs (m m' : machine device) : exmemcnt m' = exmemcnt m -> owner m' = owner m.
Proof. unfold owner, sysGetCartOwner; simpl; intros ->; reflexivity. Qed.

(** ** Weakest preconditions *)

Lemma wp_bind {A B : Type} (c : M device A) (k : A -> M device B) Q m :
  wp c (fun a m' => wp (k a) Q m') m -> wp (bind c k) Q m.
Proof. unfold wp. rewrite bind_run. auto. Qed.

Lemma wp_ret {A : Type} (a : A) (Q : A -> machine device -> Prop) m :
  Q a m -> wp (ret a) Q m.
Proof. auto. Qed.

Lemma wp_let {A : Type} (c : M device A) (Q : A -> machine device -> Prop) m :
  wp c Q m -> let '(a, m') := c m in Q a m'.
Proof. unfold wp. destruct (c m); auto. Qed.

Lemma wp_any {A : Type} (c : M device A) (Q : A -> machine device -> Prop) m :
  (forall a m', Q a m') -> wp c Q m.
Proof. unfold wp; auto. Qed.

Lemma wp_keeps {A : Type} (c : M device A) (Q : A -> machine device -> Prop) m :
  keeps_regs c ->
  (forall a d t, Q a (Machine (exmemcnt m) (sd_mode m) d t)) -> wp c Q m.
Proof.
  unfold wp; intros Hk H. destruct (Hk m) as [He Hm].
  destruct (snd (c m)) as [e' md' d' t']; simpl in *; subst. apply H.
Qed.

Lemma wp_wr (i v : Z) (Q : unit -> machine device -> Prop) m :
  Q tt (Machine (exmemcnt m) (sd_mode m) (dev_write (cart m) i v)
          (EvWrite (sd_mode m) i v :: trace m)) ->
  wp (wr i v) Q m.
Proof. auto. Qed.

Lemma wp_rd (i : Z) (Q : Z -> machine device -> Prop) m :
  (forall v d, dev_read (cart m) i = (v, d) ->
     Q v (Machine (exmemcnt m) (sd_mode m) d (EvRead (sd_mode m) i v :: trace m))) ->
  wp (rd i) Q m.
Proof.
  unfold wp, rd; intro H.
  specialize (H (fst (dev_read (cart m) i)) (snd (dev_read (cart m) i))).
  destruct (dev_read (cart m) i) as [v d]; simpl in *. apply H; reflexivity.
Qed.

Lemma wp_load (buf : Z -> Z) (o : Z) (Q : Z -> machine device -> Prop) m :
  Q (buf o) (Machine (exmemcnt m) (sd_mode m) (cart m) (EvLoad o :: trace m)) ->
  wp (load buf o) Q m.
Proof. auto. Qed.

Lemma wp_sleep (Q : unit -> machine device -> Prop) m :
  Q tt (Machine (exmemcnt m) (sd_mode m) (dev_sleep (cart m)) (EvSleep :: trace m)) ->
  wp sleep_1ms Q m.
Proof. auto. Qed.

Lemma wp_exmemcnt_or (v : Z) (Q : unit -> machine device -> Prop) m :
  Q tt (Machine (Z.lor (exmemcnt m) v) (sd_mode m) (cart m) (trace m)) ->
  wp (exmemcnt_or v) Q m.
Proof. auto. Qed.

Lemma wp_get_owner (Q : bool -> machine device -> Prop) m :
  Q (owner m) m -> wp sysGetCartOwner Q m.
Proof. auto. Qed.

Lemma wp_set_owner (arm9 : bool) (Q : unit -> machine device -> Prop) m :
  (forall e, owner (Machine e (sd_mode m) (cart m) (trace m)) = arm9 ->
     Q tt (Machine e (sd_mode m) (cart m) (trace m))) ->
  wp (sysSetCartOwner arm9) Q m.
Proof. unfold wp; intro H. apply H. apply (owner_set arm9 m). Qed.

Lemma reads_of_nil : reads_of [] = [].
Proof. reflexivity. Qed.

Lemma reads_of_handshake (md v : Z) : reads_of (handshake md v) = [].
Proof. reflexivity. Qed.

Lemma writes_of_nil : writes_of [] = [].
Proof. reflexivity. Qed.

Lemma loads_of_nil : loads_of [] = [].
Proof. reflexivity. Qed.

Lemma loads_of_handshake (md v : Z) : loads_of (handshake md v) = [].
Proof. reflexivity. Qed.

Lemma writes_of_handshake (md v : Z) :
  writes_of (handshake md v) =
  [ (md, REG_SD_MODE, MODESWITCH_MAGIC); (md, REG_SD_MODE, MODESWITCH_MAGIC);
    (md, REG_SD_MODE, v); (md, REG_SD_MODE, v) ].
Proof. reflexivity. Qed.

Lemma wp_set_mode (a : Z) (w s : bool) (Q : unit -> machine device -> Prop) m :
  (forall d, Q tt (Machine (exmemcnt m) (mode_value a w s) d
                     (handshake (sd_mode m) (mode_value a w s) ++ trace m))) ->
  wp (set_supercard_mode a w s) Q m.
Proof. unfold wp; intro H. apply H. Qed.

Lemma wp_times_wr (n : nat) (i v : Z) (Q : unit -> machine device -> Prop) m :
  (forall d, Q tt (Machine (exmemcnt m) (sd_mode m) d
                     (repeat (EvWrite (sd_mode m) i v) n ++ trace m))) ->
  wp (times n (wr i v)) Q m.
Proof.
  revert m; induction n as [|n IH]; intros m H.
  - destruct m; apply H.
  - simpl times. apply wp_bind, wp_wr, IH. simpl. intro d.
    specialize (H d).
    replace (repeat (EvWrite (sd_mode m) i v) n ++ EvWrite (sd_mode m) i v :: trace m)
      with (repeat (EvWrite (sd_mode m) i v) (S n) ++ trace m); [exact H|].
    change (EvWrite (sd_mode m) i v :: trace m) with ([EvWrite (sd_mode m) i v] ++ trace m).
    rewrite app_assoc. f_equal.
    change [EvWrite (sd_mode m) i v] with (repeat (EvWrite (sd_mode m) i v) 1).
    rewrite <- repeat_app. f_equal. lia.
Qed.

Ltac wp_step :=
  lazymatch goal with
  | |- wp (bind _ _) _ _ => apply wp_bind
  | |- wp (ret _) _ _ => apply wp_ret
  | |- wp (wr _ _) _ _ => apply wp_wr
  | |- wp (rd _) _ _ => apply wp_rd; intros ? ? ?
  | |- wp (load _ _) _ _ => apply wp_load
  | |- wp sleep_1ms _ _ => apply wp_sleep
  | |- wp (exmemcnt_or _) _ _ => apply wp_exmemcnt_or
  | |- wp sysGetCartOwner _ _ => apply wp_get_owner
  | |- wp (sysSetCartOwner _) _ _ => apply wp_set_owner; intros ? ?
  | |- wp (set_supercard_mode _ _ _) _ _ => apply wp_set_mode; intros ?
  | |- wp (times _ (wr _ _)) _ _ => apply wp_times_wr; intros ?
  end; cbv beta; cbn [exmemcnt sd_mode cart trace] in *.

(** Steps through code whose effect does not matter for the goal. *)
Ltac wp_skip :=
  lazymatch goal with
  | |- wp (bind _ _) _ _ => apply wp_bind
  | |- wp _ _ _ => apply wp_any; intros ? ?
  end; cbv beta.

(** ** The operations that give the bus back *)

Ltac restores :=
  repeat lazymatch goal with
    | |- wp (bind _ _) _ _ => apply wp_bind
    | |- wp sysGetCartOwner _ _ => wp_step
    | |- wp (sysSetCartOwner _) _ _ => wp_step
    | |- wp (set_supercard_mode _ _ _) _ _ => wp_step
    | |- wp (ret _) _ _ => wp_step
    | |- wp (if ?b then _ else _) _ _ => destruct b
    | |- wp _ _ _ => apply wp_any; intros ? [? ? ? ?]
    end;
  (split; [reflexivity | assumption]).

Lemma flash_ident_restores (m : machine device) :
  let m' := snd (flash_ident m) in sd_mode m' = 0 /\ owner m' = owner m.
Proof.
  change (wp flash_ident (fun _ m' => sd_mode m' = 0 /\ owner m' = owner m) m).
  unfold flash_ident. restores.
Qed.

Lemma flash_erase_restores (m : machine device) :
  let m' := snd (flash_erase m) in sd_mode m' = 0 /\ owner m' = owner m.
Proof.
  change (wp flash_erase (fun _ m' => sd_mode m' = 0 /\ owner m' = owner m) m).
  unfold flash_erase. restores.
Qed.

Lemma flash_erase_check_restores (m : machine device) :
  let m' := snd (flash_erase_check m) in sd_mode m' = 0 /\ owner m' = owner m.
Proof.
  change (wp flash_erase_check (fun _ m' => sd_mode m' = 0 /\ owner m' = owner m) m).
  unfold flash_erase_check. restores.
Qed.

Lemma flash_write_restores (buf : Z -> Z) (size : Z) (m : machine device) :
  let m' := snd (flash_write buf size m) in sd_mode m' = 0 /\ owner m' = owner m.
Proof.
  change (wp (flash_write buf size) (fun _ m' => sd_mode m' = 0 /\ owner m' = owner m) m).
  unfold flash_write. restores.
Qed.

Lemma flash_dump_restores (fopen_ok : bool) (m : machine device) :
  let m' := snd (flash_dump fopen_ok m) in sd_mode m' = 0 /\ owner m' = owner m.
Proof.
  change (wp (flash_dump fopen_ok) (fun _ m' => sd_mode m' = 0 /\ owner m' = owner m) m).
  unfold flash_dump. restores.
Qed.

(** C1 (the function that does not): [flash_validate] returns with the
    mapping mode still flash-mapped and write-enabled (value 4) and with
    the bus still taken by the host, whoever owned it at entry. *)
Theorem flash_validate_leaves_bus_taken (fwimg : Z -> Z) (fwsize : Z) (m : machine device) :
  let m' := snd (flash_validate fwimg fwsize m) in
  sd_mode m' = 4 /\ owner m' = BUS_OWNER_ARM9.
Proof.
  change (wp (flash_validate fwimg fwsize)
            (fun _ m' => sd_mode m' = 4 /\ owner m' = BUS_OWNER_ARM9) m).
  unfold flash_validate.
  wp_step. wp_step. wp_step. wp_step. wp_step. wp_step.
  wp_step. apply wp_keeps; [apply keeps_read_window|]. intros bs d0 t0.
  wp_step. split; [reflexivity|].
  rewrite <- H. apply owner_regs. reflexivity.
Qed.

(** ** Reading the window in a row *)

Lemma reads_of_rev (l : list event) :
  reads_of (rev l) =
  flat_map (fun e => match e with EvRead md i v => [(md, i, v)] | _ => [] end) l.
Proof. unfold reads_of. rewrite rev_involutive. reflexivity. Qed.

Lemma reads_of_read_events (md i : Z) (vs : list Z) :
  reads_of (rev (read_events md i vs)) =
  map (fun iv => (md, fst iv, snd iv)) (combine (upfrom i (List.length vs)) vs).
Proof.
  rewrite reads_of_rev. revert i; induction vs as [|v vs IH]; intro i; simpl.
  - reflexivity.
  - rewrite IH. reflexivity.
Qed.

Lemma map_index_read_events (md i : Z) (vs : list Z) :
  map (fun r => snd (fst r)) (reads_of (rev (read_events md i vs))) =
  upfrom i (List.length vs).
Proof.
  rewrite reads_of_read_events.
  revert i; induction vs as [|v vs IH]; intro i; simpl; [reflexivity|].
  rewrite IH; reflexivity.
Qed.

Lemma map_value_read_events (md i : Z) (vs : list Z) :
  map snd (reads_of (rev (read_events md i vs))) = vs.
Proof.
  rewrite reads_of_read_events.
  revert i; induction vs as [|v vs IH]; intro i; simpl; [reflexivity|].
  rewrite IH; reflexivity.
Qed.

Lemma mode_read_events (md i : Z) (vs : list Z) :
  Forall (fun r => fst (fst r) = md) (reads_of (rev (read_events md i vs))).
Proof.
  rewrite reads_of_read_events.
  revert i; induction vs as [|v vs IH]; intro i; simpl; constructor; auto.
Qed.

Lemma wp_read_window (n : nat) (i : Z) (Q : list Z -> machine device -> Prop) m :
  (forall vs d, List.length vs = n ->
     Q (flat_map bytes_le16 vs)
       (Machine (exmemcnt m) (sd_mode m) d (rev (read_events (sd_mode m) i vs) ++ trace m))) ->
  wp (read_window n i) Q m.
Proof.
  revert i Q m; induction n as [|n IH]; intros i Q m H.
  - destruct m as [e0 md0 d0 t0]. apply (H [] d0 eq_refl).
  - simpl read_window. wp_step. wp_step. wp_step.
    apply IH. intros vs d0 Hlen. cbn [exmemcnt sd_mode cart trace]. wp_step.
    specialize (H (v :: vs) d0). simpl in H. rewrite <- app_assoc in H. simpl in H.
    apply H. simpl. congruence.
Qed.

(** ** The scan of the erase check *)

Lemma wp_erase_check_loop (n : nat) (i j : Z) (Q : bool -> machine device -> Prop) m :
  i = 2 * j ->
  (forall vs d errf, scanned n vs errf ->
     Q errf (Machine (exmemcnt m) (sd_mode m) d
               (rev (read_events (sd_mode m) j vs) ++ trace m))) ->
  wp (erase_check_loop n i) Q m.
Proof.
  revert i j Q m; induction n as [|n IH]; intros i j Q m Hi H.
  - destruct m as [e0 md0 d0 t0]. apply (H [] d0 false). split; [constructor | reflexivity].
  - simpl erase_check_loop. wp_step.
    replace (i / 2) with j by (subst i; rewrite Z.mul_comm, Z.div_mul; lia).
    wp_step.
    destruct (v =? 0xFFFF) eqn:Ev; cbn [negb].
    + apply (IH (i + 2) (j + 1)); [lia|].
      intros vs d0 errf Hs. cbn [exmemcnt sd_mode cart trace].
      specialize (H (v :: vs) d0 errf). simpl in H. rewrite <- app_assoc in H. simpl in H.
      apply H. apply Z.eqb_eq in Ev.
      unfold scanned in *. destruct errf.
      * destruct Hs as (vs0 & x & -> & Hall & Hx & Hlen).
        exists (v :: vs0), x. repeat split; auto. simpl in *. lia.
      * destruct Hs as [Hall Hlen]. split; [constructor; auto | simpl; congruence].
    + wp_step. apply (H [v] d true). apply Z.eqb_neq in Ev.
      exists [], v. repeat split; auto. simpl; lia.
Qed.

(** ** The restore-free read-back *)

(** C5 (as the code has it): [flash_dump] and [flash_validate] copy from
    the window with the device flash-mapped and write access ENABLED (mode
    value 4: bit 0 clear, bit 2 set): every read of the copy is made in
    that mode, the reads go through the half-words from index 0 upwards,
    [size] bytes' worth of them, and the bytes handed on are exactly the
    ones read. *)
Theorem readback_copies_write_enabled
  (e md : Z) (d : device) (fopen_ok : bool) (fwimg : Z -> Z) (fwsize : Z) :
  (let '(r, m') := flash_dump fopen_ok (Machine e md d []) in
   let rs := reads_of (trace m') in
   Forall (fun r => fst (fst r) = 4) rs /\
   map (fun r => snd (fst r)) rs = upfrom 0 FLASH_WORDS /\
   r = if fopen_ok then (true, Some (flat_map bytes_le16 (map snd rs))) else (false, None)) /\
  (let '(r, m') := flash_validate fwimg fwsize (Machine e md d []) in
   let rs := reads_of (trace m') in
   Forall (fun r => fst (fst r) = 4) rs /\
   map (fun r => snd (fst r)) rs = upfrom 0 (Z.to_nat ((fwsize + 1) / 2)) /\
   r = bytes_equal fwimg 0 (flat_map bytes_le16 (map snd rs)) (Z.to_nat fwsize)).
Proof.
  split.
  - apply wp_let. unfold flash_dump.
    do 6 wp_step. wp_step. apply wp_read_window. intros vs d1 Hlen.
    do 4 wp_step.
    destruct fopen_ok; wp_step; cbv zeta;
      change (mode_value MAPPED_FIRMWARE true false) with 4;
      rewrite !reads_of_app, !reads_of_handshake, reads_of_nil, app_nil_r;
      cbn [app];
      rewrite map_index_read_events, ?map_value_read_events, Hlen;
      (split; [apply mode_read_events | split; reflexivity]).
  - apply wp_let. unfold flash_validate.
    do 6 wp_step. wp_step. apply wp_read_window. intros vs d1 Hlen.
    wp_step. cbv zeta.
    change (mode_value MAPPED_FIRMWARE true false) with 4.
    rewrite !reads_of_app, !reads_of_handshake, reads_of_nil. cbn [app].
    rewrite map_index_read_events, map_value_read_events, Hlen.
    split; [apply mode_read_events | split; reflexivity].
Qed.

(** C8: the erase check reads the half-words of the 512 KiB window in
    order from index 0, stops at the first one that is not [0xFFFF] and
    reports dirty then, and reports clean only when it has read all
    262144 of them and every one was [0xFFFF]; so it reports dirty exactly
    when some half-word it read differs from [0xFFFF]. *)
Theorem flash_erase_check_scans (e md : Z) (d : device) :
  let '(errf, m') := flash_erase_check (Machine e md d []) in
  let rs := reads_of (trace m') in
  let vs := map snd rs in
  map (fun r => snd (fst r)) rs = upfrom 0 (List.length rs) /\
  (List.length rs <= FLASH_WORDS)%nat /\
  (errf = true <-> Exists (fun v => v <> 0xFFFF) vs) /\
  (errf = true ->
     Forall (fun v => v = 0xFFFF) (removelast vs) /\ last vs 0xFFFF <> 0xFFFF) /\
  (errf = false -> List.length rs = FLASH_WORDS /\ Forall (fun v => v = 0xFFFF) vs).
Proof.
  apply wp_let. unfold flash_erase_check.
  do 8 wp_step. wp_step.
  apply (wp_erase_check_loop FLASH_WORDS 0 0); [reflexivity|].
  intros vs d1 errf Hs. do 5 wp_step. cbv zeta.
  rewrite !reads_of_app, !reads_of_handshake, reads_of_nil. cbn [app].
  rewrite !app_nil_r.
  rewrite map_index_read_events, map_value_read_events.
  assert (Hl : List.length (reads_of (rev (read_events (mode_value MAPPED_FIRMWARE true false) 0 vs)))
               = List.length vs).
  { rewrite <- (map_value_read_events (mode_value MAPPED_FIRMWARE true false) 0 vs) at 2.
    rewrite length_map. reflexivity. }
  rewrite Hl. split; [reflexivity|].
  unfold scanned in Hs. destruct errf.
  - destruct Hs as (vs0 & v & -> & Hall & Hv & Hlen).
    split; [exact Hlen|]. split; [|split].
    + split; [intros _|reflexivity].
      apply Exists_app. right. constructor. exact Hv.
    + intros _. rewrite removelast_last, last_last. auto.
    + discriminate.
  - destruct Hs as [Hall Hlen]. split; [lia|]. split; [|split].
    + split; [discriminate|]. intro Hex. exfalso.
      apply Exists_exists in Hex. destruct Hex as (v & Hin & Hv).
      rewrite Forall_forall in Hall. auto.
    + discriminate.
    + auto.
Qed.

(** ** The wait of the erase *)

Lemma sleeps_of_app (l t : list event) : sleeps_of (l ++ t) = (sleeps_of l + sleeps_of t)%nat.
Proof. unfold sleeps_of. rewrite filter_app, length_app. reflexivity. Qed.

Lemma sleeps_of_rev (l : list event) : sleeps_of (rev l) = sleeps_of l.
Proof.
  unfold sleeps_of. induction l as [|x l IH]; simpl; [reflexivity|].
  rewrite filter_app, length_app, IH. simpl. destruct x; simpl; lia.
Qed.

Lemma sleeps_of_poll (md : Z) (pairs : list (Z * Z)) :
  sleeps_of (poll_events md pairs) = List.length pairs.
Proof.
  induction pairs as [|p ps IH]; simpl; [reflexivity|].
  unfold sleeps_of in *. simpl. rewrite IH. reflexivity.
Qed.

Lemma sleeps_of_repeat_write (md i v : Z) (n : nat) :
  sleeps_of (repeat (EvWrite md i v) n) = O.
Proof. induction n; simpl; auto. Qed.

Lemma reads_of_repeat_write (md i v : Z) (n : nat) :
  reads_of (repeat (EvWrite md i v) n) = [].
Proof.
  induction n as [|n IH]; [reflexivity|].
  simpl repeat. rewrite reads_of_write. exact IH.
Qed.

Lemma reads_of_poll (md : Z) (pairs : list (Z * Z)) :
  reads_of (rev (poll_events md pairs)) =
  flat_map (fun p => [(md, 0, fst p); (md, 0, snd p)]) pairs.
Proof.
  rewrite reads_of_rev. induction pairs as [|p ps IH]; simpl; [reflexivity|].
  rewrite <- IH. reflexivity.
Qed.

Lemma sleeps_of_sleep (t : list event) : sleeps_of (EvSleep :: t) = S (sleeps_of t).
Proof. reflexivity. Qed.

Lemma sleeps_of_read (md i v : Z) (t : list event) :
  sleeps_of (EvRead md i v :: t) = sleeps_of t.
Proof. reflexivity. Qed.

Lemma sleeps_of_write (md i v : Z) (t : list event) :
  sleeps_of (EvWrite md i v :: t) = sleeps_of t.
Proof. reflexivity. Qed.

Lemma sleeps_of_load (o : Z) (t : list event) : sleeps_of (EvLoad o :: t) = sleeps_of t.
Proof. reflexivity. Qed.

Lemma sleeps_of_nil : sleeps_of [] = O.
Proof. reflexivity. Qed.

Lemma sleeps_of_handshake (md v : Z) : sleeps_of (handshake md v) = O.
Proof. reflexivity. Qed.

Lemma sleeps_of_rev_poll (md : Z) (pairs : list (Z * Z)) :
  sleeps_of (rev (poll_events md pairs)) = List.length pairs.
Proof. rewrite sleeps_of_rev. apply sleeps_of_poll. Qed.

Hint Rewrite reads_of_app reads_of_read reads_of_write reads_of_sleep reads_of_load
  reads_of_nil reads_of_handshake reads_of_repeat_write reads_of_poll
  sleeps_of_app sleeps_of_sleep sleeps_of_read sleeps_of_write sleeps_of_load
  sleeps_of_nil sleeps_of_handshake sleeps_of_repeat_write sleeps_of_rev_poll
  @app_nil_r @app_nil_l Nat.add_0_r Nat.add_0_l : evlog.

Lemma wp_erase_poll (n : nat) (Q : unit -> machine device -> Prop) m :
  (forall pairs d,
     (List.length pairs <= n)%nat ->
     ((forall d0, reads_differ d0) -> List.length pairs = n) ->
     ((forall d0, reads_agree d0) -> List.length pairs = Nat.min 1 n) ->
     Q tt (Machine (exmemcnt m) (sd_mode m) d
             (rev (poll_events (sd_mode m) pairs) ++ trace m))) ->
  wp (erase_poll n) Q m.
Proof.
  revert Q m; induction n as [|n IH]; intros Q m H.
  - destruct m as [e0 md0 d0 t0]. apply (H [] d0); simpl; auto.
  - simpl erase_poll. do 3 wp_step.
    apply wp_rd; intros a d1 H0; cbv beta; cbn [exmemcnt sd_mode cart trace] in *.
    wp_step.
    apply wp_rd; intros b d2 H1; cbv beta; cbn [exmemcnt sd_mode cart trace] in *.
    assert (Hab : a = fst (dev_read (dev_sleep (cart m)) 0) /\
                  b = fst (dev_read (snd (dev_read (dev_sleep (cart m)) 0)) 0)).
    { rewrite H0; simpl. rewrite H1; simpl. auto. }
    destruct Hab as [Ha Hb].
    destruct (a =? b) eqn:Eab.
    + wp_step. apply Z.eqb_eq in Eab.
      specialize (H [(a, b)] d2). simpl in H. apply H.
      * lia.
      * intro Hd. exfalso. apply (Hd (dev_sleep (cart m))). congruence.
      * reflexivity.
    + apply IH. intros pairs d3 Hlen Hd Hs. cbn [exmemcnt sd_mode cart trace].
      apply Z.eqb_neq in Eab.
      specialize (H ((a, b) :: pairs) d3). simpl in H.
      rewrite <- !app_assoc in H. simpl in H. apply H.
      * lia.
      * intro Hd'. rewrite (Hd Hd'). reflexivity.
      * intro Hs'. exfalso. apply Eab. rewrite Ha, Hb. apply Hs'.
Qed.

Lemma length_reads_of_poll (md : Z) (pairs : list (Z * Z)) :
  List.length (flat_map (fun p : Z * Z => [(md, 0, fst p); (md, 0, snd p)]) pairs) =
  (2 * List.length pairs)%nat.
Proof. induction pairs as [|p ps IH]; simpl; [reflexivity | rewrite IH; lia]. Qed.

Lemma index_reads_of_poll (md : Z) (pairs : list (Z * Z)) :
  Forall (fun r : Z * Z * Z => snd (fst r) = 0)
    (flat_map (fun p : Z * Z => [(md, 0, fst p); (md, 0, snd p)]) pairs).
Proof. induction pairs as [|p ps IH]; simpl; repeat constructor; auto. Qed.


(** ** Programming, word by word *)

Lemma writes_of_repeat_write (md i v : Z) (n : nat) :
  writes_of (repeat (EvWrite md i v) n) = repeat (md, i, v) n.
Proof.
  induction n as [|n IH]; [reflexivity|].
  simpl repeat. rewrite writes_of_write, IH. symmetry. apply repeat_cons.
Qed.

Hint Rewrite writes_of_app writes_of_read writes_of_write writes_of_sleep writes_of_load
  writes_of_nil writes_of_handshake writes_of_repeat_write
  loads_of_app loads_of_read loads_of_write loads_of_sleep loads_of_load
  loads_of_nil loads_of_handshake : evlog.

Lemma wp_write_poll (n : nat) (Q : unit -> machine device -> Prop) m :
  (forall d t, writes_of t = writes_of (trace m) -> loads_of t = loads_of (trace m) ->
     Q tt (Machine (exmemcnt m) (sd_mode m) d t)) ->
  wp (write_poll n) Q m.
Proof.
  revert Q m; induction n as [|n IH]; intros Q m H.
  - destruct m as [e0 md0 d0 t0]. apply H; reflexivity.
  - simpl write_poll. repeat wp_step.
    destruct (v =? v0).
    + wp_step. apply H; autorewrite with evlog; reflexivity.
    + apply IH. intros d1 t Hw Hl. cbn [exmemcnt sd_mode cart trace] in *.
      apply H; [rewrite Hw | rewrite Hl]; autorewrite with evlog; reflexivity.
Qed.

Lemma wp_flash_write_word (buf : Z -> Z) (i : Z) (Q : bool -> machine device -> Prop) m :
  (forall bad d t,
     writes_of t = writes_of (trace m) ++ word_writes (sd_mode m) buf i ->
     loads_of t = loads_of (trace m) ++ [i; i + 1] ->
     Q bad (Machine (exmemcnt m) (sd_mode m) d t)) ->
  wp (flash_write_word buf i) Q m.
Proof.
  intro H. unfold flash_write_word. generalize WRITE_BUDGET; intro n. repeat wp_step.
  apply wp_write_poll. intros d1 t Hw Hl. cbn [exmemcnt sd_mode cart trace] in *.
  repeat wp_step.
  autorewrite with evlog in Hw, Hl.
  destruct (negb (v =? v0)); repeat wp_step; apply H; autorewrite with evlog;
    rewrite ?Hw, ?Hl; rewrite <- ?app_assoc; reflexivity.
Qed.

Lemma flash_write_word_log (buf : Z -> Z) (i : Z) (m : machine device) :
  exmemcnt (snd (flash_write_word buf i m)) = exmemcnt m /\
  sd_mode (snd (flash_write_word buf i m)) = sd_mode m /\
  writes_of (trace (snd (flash_write_word buf i m))) =
    writes_of (trace m) ++ word_writes (sd_mode m) buf i /\
  loads_of (trace (snd (flash_write_word buf i m))) = loads_of (trace m) ++ [i; i + 1].
Proof.
  apply (wp_flash_write_word buf i
           (fun _ m1 =>
              exmemcnt m1 = exmemcnt m /\ sd_mode m1 = sd_mode m /\
              writes_of (trace m1) = writes_of (trace m) ++ word_writes (sd_mode m) buf i /\
              loads_of (trace m1) = loads_of (trace m) ++ [i; i + 1]) m).
  intros; cbn [exmemcnt sd_mode trace]; auto.
Qed.

Section Steps.

(** The facts below hold of any loop body; the body of [flash_write]
    is put in afterwards. *)
Variable body : Z -> M device bool.

Lemma run_words_S (k : nat) (i : Z) (m : machine device) :
  run_words body (S k) i m = run_words body k (i + 2) (snd (body i m)).
Proof. reflexivity. Qed.

Lemma loop_until_bad_S (n : nat) (i : Z) (m : machine device) :
  loop_until_bad body (S n) i m =
  (if fst (body i m) then (false, snd (body i m))
   else loop_until_bad body n (i + 2) (snd (body i m))).
Proof.
  cbn [loop_until_bad]. rewrite bind_run. destruct (fst (body i m)); reflexivity.
Qed.

Lemma loop_until_bad_ok (n : nat) (i : Z) (m : machine device) :
  (forall j, (j < n)%nat ->
     fst (body (i + 2 * Z.of_nat j) (run_words body j i m)) = false) ->
  loop_until_bad body n i m = (true, run_words body n i m).
Proof.
  revert i m; induction n as [|n IH]; intros i m H.
  - reflexivity.
  - rewrite loop_until_bad_S, run_words_S.
    pose proof (H O ltac:(lia)) as H0. cbn [run_words Z.of_nat Z.mul] in H0.
    rewrite Z.add_0_r in H0. rewrite H0. apply IH. intros j Hj.
    specialize (H (S j) ltac:(lia)). rewrite run_words_S in H.
    replace (i + 2 + 2 * Z.of_nat j) with (i + 2 * Z.of_nat (S j)) by lia. exact H.
Qed.

Lemma loop_until_bad_fail (n k : nat) (i : Z) (m : machine device) :
  (k < n)%nat ->
  (forall j, (j < k)%nat ->
     fst (body (i + 2 * Z.of_nat j) (run_words body j i m)) = false) ->
  fst (body (i + 2 * Z.of_nat k) (run_words body k i m)) = true ->
  loop_until_bad body n i m = (false, run_words body (S k) i m).
Proof.
  revert k i m; induction n as [|n IH]; intros k i m Hk Hok Hbad; [lia|].
  rewrite loop_until_bad_S, run_words_S.
  destruct k as [|k].
  - cbn [run_words Z.of_nat Z.mul] in Hbad. rewrite Z.add_0_r in Hbad.
    rewrite Hbad. reflexivity.
  - pose proof (Hok O ltac:(lia)) as H0. cbn [run_words Z.of_nat Z.mul] in H0.
    rewrite Z.add_0_r in H0. rewrite H0.
    rewrite (IH k); [rewrite run_words_S; reflexivity | lia | |].
    + intros j Hj. specialize (Hok (S j) ltac:(lia)). rewrite run_words_S in Hok.
      replace (i + 2 + 2 * Z.of_nat j) with (i + 2 * Z.of_nat (S j)) by lia. exact Hok.
    + rewrite run_words_S in Hbad.
      replace (i + 2 + 2 * Z.of_nat k) with (i + 2 * Z.of_nat (S k)) by lia. exact Hbad.
Qed.

(** The loop always ends in one of the two ways. *)
Lemma loop_until_bad_cases (n : nat) (i : Z) (m : machine device) :
  loop_until_bad body n i m = (true, run_words body n i m) \/
  exists k, (k < n)%nat /\ loop_until_bad body n i m = (false, run_words body (S k) i m).
Proof.
  revert i m; induction n as [|n IH]; intros i m.
  - left; reflexivity.
  - rewrite loop_until_bad_S. destruct (fst (body i m)) eqn:E.
    + right. exists O. split; [lia | reflexivity].
    + destruct (IH (i + 2) (snd (body i m))) as [H | (k & Hk & H)].
      * left. rewrite run_words_S. exact H.
      * right. exists (S k). split; [lia|]. rewrite (run_words_S (S k)). exact H.
Qed.

Variable wrs : Z -> Z -> list (Z * Z * Z).
Variable lds : Z -> list Z.

Hypothesis body_log : forall i m,
  exmemcnt (snd (body i m)) = exmemcnt m /\
  sd_mode (snd (body i m)) = sd_mode m /\
  writes_of (trace (snd (body i m))) = writes_of (trace m) ++ wrs (sd_mode m) i /\
  loads_of (trace (snd (body i m))) = loads_of (trace m) ++ lds i.

Lemma run_words_log (k : nat) (i : Z) (m : machine device) :
  exmemcnt (run_words body k i m) = exmemcnt m /\
  sd_mode (run_words body k i m) = sd_mode m /\
  writes_of (trace (run_words body k i m)) =
    writes_of (trace m) ++ flat_map (wrs (sd_mode m)) (words_from i k) /\
  loads_of (trace (run_words body k i m)) =
    loads_of (trace m) ++ flat_map lds (words_from i k).
Proof.
  revert i m; induction k as [|k IH]; intros i m.
  - cbn [run_words words_from flat_map]. rewrite !app_nil_r. auto.
  - rewrite run_words_S. cbn [words_from flat_map].
    destruct (body_log i m) as (He & Hm & Hw & Hl).
    destruct (IH (i + 2) (snd (body i m))) as (He' & Hm' & Hw' & Hl').
    rewrite He', Hm', Hw', Hl', He, Hm, Hw, Hl.
    rewrite <- !app_assoc. auto.
Qed.

End Steps.

Lemma flash_write_loop_is (n : nat) (buf : Z -> Z) (i : Z) :
  flash_write_loop n buf i = loop_until_bad (flash_write_word buf) n i.
Proof.
  revert i; induction n as [|n IH]; intro i; [reflexivity|].
  cbn [flash_write_loop loop_until_bad]. rewrite IH. reflexivity.
Qed.

Lemma in_words_from (o i : Z) (k : nat) :
  In o (words_from i k) <-> exists j, (j < k)%nat /\ o = i + 2 * Z.of_nat j.
Proof.
  revert i; induction k as [|k IH]; intro i; cbn [words_from In].
  - split; [tauto | intros (j & Hj & _); lia].
  - rewrite IH. split.
    + intros [<- | (j & Hj & ->)].
      * exists O. split; [lia | simpl; lia].
      * exists (S j). split; [lia | lia].
    + intros (j & Hj & ->). destruct j as [|j].
      * left. simpl; lia.
      * right. exists j. split; [lia | lia].
Qed.

Lemma write_exit_log (pmode : bool) (m : machine device) :
  sd_mode (write_exit pmode m) = 0 /\
  owner (write_exit pmode m) = pmode /\
  trace (write_exit pmode m) = handshake (sd_mode m) 0 ++ trace m.
Proof.
  unfold write_exit. rewrite !bind_run.
  split; [reflexivity|]. split; [apply owner_set | reflexivity].
Qed.

Lemma write_entry_log (e md : Z) (d : device) :
  sd_mode (write_entry (Machine e md d [])) = 4 /\
  writes_of (trace (write_entry (Machine e md d []))) = write_prologue md /\
  loads_of (trace (write_entry (Machine e md d []))) = [].
Proof. repeat split. Qed.

Lemma flash_write_run (buf : Z -> Z) (size : Z) (m : machine device) :
  flash_write buf size m =
  (fst (loop_until_bad (flash_write_word buf) (Z.to_nat ((size + 1) / 2)) 0 (write_entry m)),
   write_exit (owner m)
     (snd (loop_until_bad (flash_write_word buf) (Z.to_nat ((size + 1) / 2)) 0 (write_entry m)))).
Proof.
  unfold flash_write, write_entry, write_exit.
  rewrite flash_write_loop_is.
  generalize (loop_until_bad (flash_write_word buf) (Z.to_nat ((size + 1) / 2)) 0).
  intro c. rewrite !bind_run. reflexivity.
Qed.

Lemma flash_write_log (buf : Z -> Z) (size e md : Z) (d : device) (k : nat) (ok : bool) :
  loop_until_bad (flash_write_word buf) (Z.to_nat ((size + 1) / 2)) 0
    (write_entry (Machine e md d [])) =
  (ok, run_words (flash_write_word buf) k 0 (write_entry (Machine e md d []))) ->
  fst (flash_write buf size (Machine e md d [])) = ok /\
  writes_of (trace (snd (flash_write buf size (Machine e md d [])))) =
    write_prologue md ++ flat_map (word_writes 4 buf) (words_from 0 k) ++ write_epilogue /\
  loads_of (trace (snd (flash_write buf size (Machine e md d [])))) =
    flat_map (fun o => [o; o + 1]) (words_from 0 k).
Proof.
  intro HL. rewrite flash_write_run, HL. cbn [fst snd].
  destruct (run_words_log (flash_write_word buf) (fun md0 i => word_writes md0 buf i)
              (fun o => [o; o + 1])
              (flash_write_word_log buf) k 0 (write_entry (Machine e md d [])))
    as (_ & Hm & Hw & Hl).
  destruct (write_entry_log e md d) as (Hm0 & Hw0 & Hl0).
  rewrite Hm0 in *. rewrite Hw0 in Hw. rewrite Hl0 in Hl.
  destruct (write_exit_log (owner (Machine e md d []))
              (run_words (flash_write_word buf) k 0 (write_entry (Machine e md d []))))
    as (_ & _ & Ht).
  rewrite Ht, Hm. rewrite writes_of_app, loads_of_app, Hw, Hl, loads_of_handshake.
  rewrite app_nil_r, <- app_assoc. auto.
Qed.



End BusFacts.

(* ================================================================== *)
(** * SHA-256: the code against the standard *)

(** ** Words *)

Lemma u32_mod (x : Z) : u32 x = x mod 2 ^ 32.
Proof. unfold u32. change 0xFFFFFFFF with (Z.ones 32). apply Z.land_ones. lia. Qed.

Lemma u32_range (x : Z) : 0 <= u32 x < 2 ^ 32.
Proof. rewrite u32_mod. apply Z.mod_pos_bound. lia. Qed.

Lemma rotr_ROTR (x a : Z) : rotr x a = FIPS180.ROTR a x.
Proof. unfold rotr, FIPS180.ROTR, shr32, shl32. rewrite u32_mod. reflexivity. Qed.

Lemma bswap32_bytes (b0 b1 b2 b3 : Z) :
  0 <= b0 < 2 ^ 8 -> 0 <= b1 < 2 ^ 8 -> 0 <= b2 < 2 ^ 8 -> 0 <= b3 < 2 ^ 8 ->
  bswap32 (Z.lor (Z.lor (Z.lor b0 (Z.shiftl b1 8)) (Z.shiftl b2 16)) (Z.shiftl b3 24)) =
  Z.lor (Z.lor (Z.lor b3 (Z.shiftl b2 8)) (Z.shiftl b1 16)) (Z.shiftl b0 24).
Proof.
  intros. unfold bswap32. change 255 with (Z.ones 8). prove_Zeq_bitwise.
Qed.

Lemma lor_plus (a b : Z) : Z.land a b = 0 -> Z.lor a b = a + b.
Proof.
  intro H. rewrite <- Z.lxor_lor by exact H. symmetry. apply Z.add_nocarry_lxor. exact H.
Qed.

Lemma be_word_lor (b0 b1 b2 b3 : Z) :
  0 <= b0 < 2 ^ 8 -> 0 <= b1 < 2 ^ 8 -> 0 <= b2 < 2 ^ 8 -> 0 <= b3 < 2 ^ 8 ->
  Z.lor (Z.lor (Z.lor b3 (Z.shiftl b2 8)) (Z.shiftl b1 16)) (Z.shiftl b0 24) =
  b0 * 2 ^ 24 + b1 * 2 ^ 16 + b2 * 2 ^ 8 + b3.
Proof.
  intros.
  rewrite !lor_plus by prove_Zeq_bitwise.
  rewrite !Z.shiftl_mul_pow2 by lia. lia.
Qed.

Section HostFacts.

Variable host : byte_order.

Lemma read32be_load32 (data : list Z) (i : nat) :
  Forall (fun b => 0 <= b < 2 ^ 8) data ->
  read32be host (load32 host data (Z.of_nat i)) =
  nth (4 * i) data 0 * 2 ^ 24 + nth (4 * i + 1) data 0 * 2 ^ 16 +
  nth (4 * i + 2) data 0 * 2 ^ 8 + nth (4 * i + 3) data 0.
Proof.
  intro Hb.
  assert (Hn : forall k, 0 <= nth k data 0 < 2 ^ 8).
  { intro k. destruct (Nat.lt_ge_cases k (List.length data)) as [Hk | Hk].
    - rewrite Forall_forall in Hb. apply Hb, nth_In, Hk.
    - rewrite nth_overflow by exact Hk. lia. }
  unfold load32, idx.
  replace (Z.to_nat (4 * Z.of_nat i + 0)) with (4 * i)%nat by lia.
  replace (Z.to_nat (4 * Z.of_nat i + 1)) with (4 * i + 1)%nat by lia.
  replace (Z.to_nat (4 * Z.of_nat i + 2)) with (4 * i + 2)%nat by lia.
  replace (Z.to_nat (4 * Z.of_nat i + 3)) with (4 * i + 3)%nat by lia.
  destruct host; unfold read32be.
  - rewrite bswap32_bytes by apply Hn. apply be_word_lor; apply Hn.
  - apply be_word_lor; apply Hn.
Qed.

Lemma store32_read32be (s : Z) :
  0 <= s < 2 ^ 32 -> store32 host (read32be host s) = FIPS180.be32 s.
Proof.
  intro Hs. unfold FIPS180.be32.
  change 256 with (2 ^ 8). rewrite <- !Z.land_ones by lia.
  destruct host; unfold store32, read32be, bytes_le32, bswap32; cbn [rev app];
    change 255 with (Z.ones 8);
    repeat (apply (f_equal2 (@cons Z)); [prove_Zeq_bitwise|]); reflexivity.
Qed.

Lemma store64_read64be (x : Z) :
  0 <= x < 2 ^ 64 -> store64 host (read64be host x) = FIPS180.be64 x.
Proof.
  intro Hx. unfold FIPS180.be64, FIPS180.be32.
  change 256 with (2 ^ 8). rewrite <- !Z.land_ones by lia.
  destruct host; unfold store64, read64be, bytes_le64, bytes_le32, bswap64, bswap32;
    cbn [rev app];
    change 255 with (Z.ones 8); change 4294967295 with (Z.ones 32);
    repeat (apply (f_equal2 (@cons Z)); [prove_Zeq_bitwise|]); reflexivity.
Qed.

End HostFacts.

(** ** The message schedule of the standard *)

Lemma extend_app (n : nat) (ws : list Z) :
  exists tl, FIPS180.extend n ws = ws ++ tl /\ List.length tl = n.
Proof.
  revert ws; induction n as [|n IH]; intro ws; simpl.
  - exists []. rewrite app_nil_r. auto.
  - destruct (IH (ws ++ [FIPS180.W_next ws])) as (tl & Htl & Hlen).
    exists (FIPS180.W_next ws :: tl). rewrite Htl, <- app_assoc. simpl. auto.
Qed.

Lemma extend_length (n : nat) (ws : list Z) :
  List.length (FIPS180.extend n ws) = (n + List.length ws)%nat.
Proof.
  destruct (extend_app n ws) as (tl & -> & Hlen). rewrite length_app. lia.
Qed.

Lemma extend_prefix (n t : nat) (ws : list Z) :
  (t < List.length ws)%nat -> nth t (FIPS180.extend n ws) 0 = nth t ws 0.
Proof.
  intro Ht. destruct (extend_app n ws) as (tl & -> & _). apply app_nth1, Ht.
Qed.

Lemma extend_firstn (n : nat) (ws : list Z) :
  firstn (List.length ws) (FIPS180.extend n ws) = ws.
Proof.
  destruct (extend_app n ws) as (tl & -> & _).
  rewrite firstn_app, Nat.sub_diag, firstn_all. simpl. apply app_nil_r.
Qed.

Lemma extend_next (n t : nat) (ws : list Z) :
  (List.length ws <= t < List.length ws + n)%nat ->
  nth t (FIPS180.extend n ws) 0 = FIPS180.W_next (firstn t (FIPS180.extend n ws)).
Proof.
  revert ws; induction n as [|n IH]; intros ws Ht; [lia|].
  cbn [FIPS180.extend].
  destruct (Nat.eq_dec t (List.length ws)) as [-> | Hne].
  - rewrite extend_prefix by (rewrite length_app; simpl; lia).
    rewrite app_nth2, Nat.sub_diag by lia. simpl nth.
    destruct (extend_app n (ws ++ [FIPS180.W_next ws])) as (tl & -> & _).
    rewrite <- app_assoc, firstn_app, Nat.sub_diag, firstn_all. simpl.
    rewrite app_nil_r. reflexivity.
  - apply IH. rewrite length_app. simpl. lia.
Qed.

(** The equations of section 6.2.2, step 1. *)
Lemma schedule_low (M : list Z) (t : nat) :
  (t < List.length M)%nat -> nth t (FIPS180.schedule M) 0 = nth t M 0.
Proof. apply extend_prefix. Qed.

Lemma schedule_high (M : list Z) (t : nat) :
  List.length M = 16%nat -> (16 <= t < 64)%nat ->
  let W := FIPS180.schedule M in
  nth t W 0 =
  (FIPS180.sigma1 (nth (t - 2) W 0) + nth (t - 7) W 0 +
   FIPS180.sigma0 (nth (t - 15) W 0) + nth (t - 16) W 0) mod 2 ^ 32.
Proof.
  intros HM Ht W. unfold W, FIPS180.schedule.
  rewrite extend_next by lia.
  unfold FIPS180.W_next.
  assert (Hlen : List.length (firstn t (FIPS180.extend 48 M)) = t).
  { rewrite length_firstn, extend_length. lia. }
  rewrite Hlen.
  assert (Hnth : forall j, (j < t)%nat ->
            nth j (firstn t (FIPS180.extend 48 M)) 0 = nth j (FIPS180.extend 48 M) 0).
  { intros j Hj. rewrite <- (firstn_skipn t (FIPS180.extend 48 M)) at 2.
    rewrite app_nth1 by lia. reflexivity. }
  rewrite !Hnth by lia. reflexivity.
Qed.

(** ** The sixteen-word window of the code *)

Lemma idx_land15 (w : list Z) (n : nat) :
  idx w (Z.land (Z.of_nat n) 15) = nth (n mod 16) w 0.
Proof.
  unfold idx. f_equal. change 15 with (Z.ones 4). rewrite Z.land_ones by lia.
  change (2 ^ 4) with (Z.of_nat 16). rewrite <- Nat2Z.inj_mod. apply Nat2Z.id.
Qed.

Lemma nth_upd_same (a : list Z) (k : nat) (v : Z) :
  (k < List.length a)%nat -> nth k (upd a k v) 0 = v.
Proof.
  revert k; induction a as [|x a IH]; intros k Hk; simpl in Hk; [lia|].
  destruct k; simpl; [reflexivity | apply IH; lia].
Qed.

Lemma nth_upd_other (a : list Z) (k j : nat) (v : Z) :
  j <> k -> nth j (upd a k v) 0 = nth j a 0.
Proof.
  revert k j; induction a as [|x a IH]; intros k j Hjk; simpl.
  - destruct k; reflexivity.
  - destruct k, j; simpl; try reflexivity; try lia. apply IH. lia.
Qed.

Lemma length_upd (a : list Z) (k : nat) (v : Z) : List.length (upd a k v) = List.length a.
Proof.
  revert k; induction a as [|x a IH]; intro k; simpl.
  - destruct k; reflexivity.
  - destruct k; simpl; [reflexivity | rewrite IH; reflexivity].
Qed.

Lemma sha256k_K : sha256k = FIPS180.K.
Proof. reflexivity. Qed.

Lemma sha256_kinit_H0 : sha256_kinit = FIPS180.H0.
Proof. reflexivity. Qed.

(** One round of the code is one round of the standard, and it moves the
    window on by one. *)
Lemma sha256_round_ok (M : list Z) (i : nat) (a b c d e f g h : Z) (w : list Z) :
  List.length M = 16%nat -> (i < 64)%nat ->
  window (FIPS180.schedule M) i w ->
  exists w',
    sha256_round (Z.of_nat i) ([a; b; c; d; e; f; g; h], w) =
      (FIPS180.round (FIPS180.schedule M) [a; b; c; d; e; f; g; h] i, w') /\
    window (FIPS180.schedule M) (S i) w'.
Proof.
  intros HM Hi [Hlen Hw].
  unfold sha256_round.
  replace (Z.of_nat i + 1) with (Z.of_nat (i + 1)) by lia.
  replace (Z.of_nat i + 9) with (Z.of_nat (i + 9)) by lia.
  replace (Z.of_nat i + 14) with (Z.of_nat (i + 14)) by lia.
  rewrite !idx_land15.
  eexists. split.
  - f_equal. unfold FIPS180.round, idx.
    change (nth (Z.to_nat 0) [a; b; c; d; e; f; g; h] 0) with a.
    change (nth (Z.to_nat 1) [a; b; c; d; e; f; g; h] 0) with b.
    change (nth (Z.to_nat 2) [a; b; c; d; e; f; g; h] 0) with c.
    change (nth (Z.to_nat 3) [a; b; c; d; e; f; g; h] 0) with d.
    change (nth (Z.to_nat 4) [a; b; c; d; e; f; g; h] 0) with e.
    change (nth (Z.to_nat 5) [a; b; c; d; e; f; g; h] 0) with f.
    change (nth (Z.to_nat 6) [a; b; c; d; e; f; g; h] 0) with g.
    change (nth (Z.to_nat 7) [a; b; c; d; e; f; g; h] 0) with h.
    rewrite Nat2Z.id, sha256k_K, (Hw i) by lia.
    rewrite !u32_mod, !rotr_ROTR. reflexivity.
  - split; [rewrite length_upd; exact Hlen|].
    intros t Ht Ht64.
    assert (Hk : Z.to_nat (Z.land (Z.of_nat i) 15) = (i mod 16)%nat).
    { change 15 with (Z.ones 4). rewrite Z.land_ones by lia.
      change (2 ^ 4) with (Z.of_nat 16). rewrite <- Nat2Z.inj_mod. apply Nat2Z.id. }
    rewrite Hk.
    destruct (Nat.eq_dec t (i + 16)) as [-> | Hne].
    + replace ((i + 16) mod 16)%nat with (i mod 16)%nat
        by (rewrite <- (Nat.Div0.add_mod_idemp_r i 16 16), Nat.Div0.mod_same, Nat.add_0_r;
            reflexivity).
      rewrite nth_upd_same by (rewrite Hlen; apply Nat.mod_upper_bound; lia).
      rewrite (schedule_high M (i + 16)) by (auto; lia).
      rewrite !(Hw i), !(Hw (i + 1)%nat), !(Hw (i + 9)%nat), !(Hw (i + 14)%nat) by lia.
      replace (i + 16 - 2)%nat with (i + 14)%nat by lia.
      replace (i + 16 - 7)%nat with (i + 9)%nat by lia.
      replace (i + 16 - 15)%nat with (i + 1)%nat by lia.
      replace (i + 16 - 16)%nat with i by lia.
      rewrite u32_mod, !rotr_ROTR. unfold FIPS180.sigma0, FIPS180.sigma1, FIPS180.SHR, shr32.
      f_equal. lia.
    + rewrite nth_upd_other.
      * apply Hw; lia.
      * intro Heq.
        assert (Hd : t = (i + (t - i))%nat) by lia.
        rewrite Hd in Heq.
        pose proof (Nat.div_mod_eq i 16). pose proof (Nat.div_mod_eq (i + (t - i)) 16).
        pose proof (Nat.mod_upper_bound i 16 ltac:(lia)).
        pose proof (Nat.mod_upper_bound (i + (t - i)) 16 ltac:(lia)).
        nia.
Qed.

Lemma round_length (W v : list Z) (t : nat) :
  List.length v = 8%nat -> List.length (FIPS180.round W v t) = 8%nat.
Proof.
  intro Hv.
  do 8 (destruct v as [|? v]; [discriminate Hv|]). destruct v; [reflexivity | discriminate Hv].
Qed.

Lemma sha256_rounds_ok (M : list Z) (n i : nat) (ls w : list Z) :
  List.length M = 16%nat -> List.length ls = 8%nat -> (i + n <= 64)%nat ->
  window (FIPS180.schedule M) i w ->
  fst (sha256_rounds n (Z.of_nat i) (ls, w)) =
  fold_left (FIPS180.round (FIPS180.schedule M)) (seq i n) ls.
Proof.
  intro HM. revert i ls w; induction n as [|n IH]; intros i ls w Hls Hin Hw.
  - reflexivity.
  - cbn [sha256_rounds seq fold_left].
    do 8 (destruct ls as [|? ls]; [discriminate Hls|]). destruct ls; [|discriminate Hls].
    destruct (sha256_round_ok M i z z0 z1 z2 z3 z4 z5 z6 w HM ltac:(lia) Hw)
      as (w' & Hr & Hw').
    rewrite Hr.
    replace (Z.of_nat i + 1) with (Z.of_nat (S i)) by lia.
    apply IH; [apply round_length; reflexivity | lia | exact Hw'].
Qed.

Lemma words_length (n : nat) (bs : list Z) :
  (4 * n <= List.length bs)%nat -> List.length (FIPS180.words n bs) = n.
Proof.
  revert bs; induction n as [|n IH]; intros bs Hbs; [reflexivity|].
  do 4 (destruct bs as [|? bs]; [simpl in Hbs; lia|]).
  cbn [FIPS180.words List.length]. rewrite IH; [reflexivity | simpl in Hbs; lia].
Qed.

Lemma words_nth (n i : nat) (bs : list Z) :
  (i < n)%nat -> (4 * n <= List.length bs)%nat ->
  nth i (FIPS180.words n bs) 0 =
  nth (4 * i) bs 0 * 2 ^ 24 + nth (4 * i + 1) bs 0 * 2 ^ 16 +
  nth (4 * i + 2) bs 0 * 2 ^ 8 + nth (4 * i + 3) bs 0.
Proof.
  revert i bs; induction n as [|n IH]; intros i bs Hi Hbs; [lia|].
  do 4 (destruct bs as [|? bs]; [simpl in Hbs; lia|]).
  cbn [FIPS180.words]. destruct i as [|i].
  - reflexivity.
  - cbn [nth]. rewrite IH by (simpl in Hbs; lia).
    replace (4 * S i)%nat with (S (S (S (S (4 * i))))) by lia.
    reflexivity.
Qed.

Section TransformFacts.

Variable host : byte_order.

(** The sixteen words the code loads are the block parsed as the
    standard says. *)
Lemma loaded_words (data : list Z) :
  List.length data = 64%nat -> Forall (fun b => 0 <= b < 2 ^ 8) data ->
  map (fun i => read32be host (load32 host data (Z.of_nat i))) (seq 0 16) =
  FIPS180.words 16 data.
Proof.
  intros Hlen Hb.
  set (f := fun i => read32be host (load32 host data (Z.of_nat i))).
  apply (nth_ext _ _ 0 0).
  - rewrite length_map, length_seq, words_length by lia. reflexivity.
  - intros i Hi. rewrite length_map, length_seq in Hi.
    rewrite (nth_indep _ 0 (f O)) by (rewrite length_map, length_seq; exact Hi).
    rewrite (map_nth f (seq 0 16) O i), seq_nth by exact Hi. cbn [Nat.add].
    unfold f. rewrite read32be_load32 by exact Hb.
    rewrite words_nth by lia. reflexivity.
Qed.

(** [sha256_transform] is the compression function of the standard. *)
Lemma sha256_transform_compress (state data : list Z) :
  List.length state = 8%nat -> List.length data = 64%nat ->
  Forall (fun b => 0 <= b < 2 ^ 8) data ->
  sha256_transform host state data = FIPS180.compress state data.
Proof.
  intros Hs Hd Hb. unfold sha256_transform, FIPS180.compress.
  rewrite loaded_words by assumption.
  rewrite firstn_all2 by lia.
  pose proof (sha256_rounds_ok (FIPS180.words 16 data) 64 0 state (FIPS180.words 16 data))
    as Hr.
  change (Z.of_nat 0) with 0 in Hr.
  destruct (sha256_rounds 64 0 (state, FIPS180.words 16 data)) as [ls' w'].
  cbn [fst] in Hr. rewrite <- Hr.
  - assert (Hl : List.length ls' = 8%nat).
    { rewrite Hr.
      + clear Hr. generalize (FIPS180.schedule (FIPS180.words 16 data)). intro W.
        revert Hs. generalize state. generalize (seq 0 64). intro l.
        induction l as [|t l IH]; intros v Hv; cbn [fold_left]; [exact Hv|].
        apply IH, round_length, Hv.
      + apply words_length; lia.
      + exact Hs.
      + lia.
      + split; [apply words_length; lia|].
        intros t Ht Ht64. rewrite Nat.mod_small by lia.
        symmetry. apply schedule_low. rewrite words_length; lia. }
    clear Hr.
    do 8 (destruct state as [|? state]; [discriminate Hs|]).
    destruct state; [|discriminate Hs].
    do 8 (destruct ls' as [|? ls']; [discriminate Hl|]). destruct ls'; [|discriminate Hl].
    cbn [map seq FIPS180.add_words]. unfold idx. cbn [Z.of_nat Z.to_nat Pos.to_nat Pos.iter_op Nat.add nth].
    rewrite !u32_mod. reflexivity.
  - apply words_length; lia.
  - exact Hs.
  - lia.
  - split; [apply words_length; lia|].
    intros t Ht Ht64. rewrite Nat.mod_small by lia.
    symmetry. apply schedule_low. rewrite words_length; lia.
Qed.

Lemma compress_length (H block : list Z) :
  List.length H = 8%nat -> List.length (FIPS180.compress H block) = 8%nat.
Proof.
  intro HH. unfold FIPS180.compress.
  assert (Hl : List.length (fold_left (FIPS180.round (FIPS180.schedule (FIPS180.words 16 block)))
                              (seq 0 64) H) = 8%nat).
  { generalize (FIPS180.schedule (FIPS180.words 16 block)). intro W.
    revert HH. generalize H. generalize (seq 0 64). intro l.
    induction l as [|t l IH]; intros v Hv; cbn [fold_left]; [exact Hv|].
    apply IH, round_length, Hv. }
  revert Hl. generalize (fold_left (FIPS180.round (FIPS180.schedule (FIPS180.words 16 block)))
                           (seq 0 64) H). intros v Hv.
  do 8 (destruct H as [|? H]; [discriminate HH|]). destruct H; [|discriminate HH].
  do 8 (destruct v as [|? v]; [discriminate Hv|]). destruct v; [|discriminate Hv].
  reflexivity.
Qed.

Lemma compress_range (H block : list Z) :
  Forall (fun x => 0 <= x < 2 ^ 32) (FIPS180.compress H block).
Proof.
  unfold FIPS180.compress.
  generalize (fold_left (FIPS180.round (FIPS180.schedule (FIPS180.words 16 block)))
                (seq 0 64) H). intro v.
  revert v; induction H as [|x H IH]; intro v; cbn [FIPS180.add_words]; [constructor|].
  destruct v as [|y v]; [constructor|].
  constructor; [apply Z.mod_pos_bound; lia | apply IH].
Qed.

End TransformFacts.

(** ** Blocks *)

Lemma blocks_length (n : nat) (l : list Z) : List.length (FIPS180.blocks n l) = n.
Proof. revert l; induction n as [|n IH]; intro l; simpl; [reflexivity | rewrite IH; reflexivity]. Qed.

Lemma blocks_app (n m : nat) (l1 l2 : list Z) :
  (64 * n <= List.length l1)%nat ->
  FIPS180.blocks (n + m) (l1 ++ l2) =
  FIPS180.blocks n l1 ++ FIPS180.blocks m (skipn (64 * n) l1 ++ l2).
Proof.
  revert l1; induction n as [|n IH]; intros l1 Hl.
  - reflexivity.
  - cbn [Nat.add FIPS180.blocks app].
    rewrite firstn_app, skipn_app.
    replace (64 - List.length l1)%nat with O by lia.
    rewrite firstn_0, skipn_0, app_nil_r.
    rewrite IH by (rewrite length_skipn; lia).
    rewrite skipn_skipn.
    replace (64 * n + 64)%nat with (64 * S n)%nat by lia. reflexivity.
Qed.

Lemma blocks_all_64 (n : nat) (l : list Z) :
  (64 * n <= List.length l)%nat ->
  Forall (fun blk => List.length blk = 64%nat) (FIPS180.blocks n l).
Proof.
  revert l; induction n as [|n IH]; intros l Hl; cbn [FIPS180.blocks]; constructor.
  - rewrite length_firstn. lia.
  - apply IH. rewrite length_skipn. lia.
Qed.

Lemma concat_blocks (n : nat) (l : list Z) :
  concat (FIPS180.blocks n l) = firstn (64 * n) l.
Proof.
  revert l; induction n as [|n IH]; intro l; cbn [FIPS180.blocks concat].
  - reflexivity.
  - rewrite IH. replace (64 * S n)%nat with (64 + 64 * n)%nat by lia.
    rewrite <- (firstn_skipn 64 l) at 3.
    destruct (Nat.le_gt_cases 64 (List.length l)) as [Hl | Hl].
    + rewrite firstn_app, length_firstn, Nat.min_l by lia.
      rewrite (firstn_all2 (n := 64 + 64 * n) (firstn 64 l)) by (rewrite length_firstn; lia).
      replace (64 + 64 * n - 64)%nat with (64 * n)%nat by lia. reflexivity.
    + rewrite (skipn_all2 (n := 64) l) by lia. rewrite firstn_nil, !app_nil_r.
      symmetry. apply firstn_all2. rewrite length_firstn. lia.
Qed.

Lemma Forall_firstn_skipn (P : Z -> Prop) (n : nat) (l : list Z) :
  Forall P l -> Forall P (firstn n l) /\ Forall P (skipn n l).
Proof. intro H. apply Forall_app. rewrite firstn_skipn. exact H. Qed.

Lemma blocks_bytes (n : nat) (l : list Z) :
  Forall (fun b => 0 <= b < 2 ^ 8) l ->
  Forall (Forall (fun b => 0 <= b < 2 ^ 8)) (FIPS180.blocks n l).
Proof.
  revert l; induction n as [|n IH]; intros l Hl; cbn [FIPS180.blocks]; constructor.
  - apply (Forall_firstn_skipn _ 64 l Hl).
  - apply IH. apply (Forall_firstn_skipn _ 64 l Hl).
Qed.

Lemma firstn_repeat (x : Z) (k n : nat) :
  (k <= n)%nat -> firstn k (repeat x n) = repeat x k.
Proof.
  intro Hk. replace n with (k + (n - k))%nat by lia.
  rewrite repeat_app, firstn_app, repeat_length, Nat.sub_diag, firstn_0, app_nil_r.
  apply firstn_all2. rewrite repeat_length. lia.
Qed.

(** ** What is handed to the compression function *)

Section FeedFacts.

Variable host : byte_order.

(** The loop over the whole blocks, in any instance of the state. *)
Lemma full_blocks_fold (St : Type) (tr : St -> list Z -> St) (n : nat) (st : St)
  (buf : list Z) (len : Z) :
  (64 * n <= List.length buf)%nat -> len = Z.of_nat (List.length buf) ->
  sha256_full_blocks St tr n st buf len =
  (fold_left tr (FIPS180.blocks n buf) st, skipn (64 * n) buf, len - 64 * Z.of_nat n).
Proof.
  revert st buf len; induction n as [|n IH]; intros st buf len Hn Hlen.
  - cbn [sha256_full_blocks FIPS180.blocks fold_left]. rewrite skipn_0.
    f_equal. lia.
  - cbn [sha256_full_blocks FIPS180.blocks fold_left].
    replace (64 <=? len) with true by (symmetry; apply Z.leb_le; lia).
    rewrite IH.
    + rewrite skipn_skipn. replace (64 * n + 64)%nat with (64 * S n)%nat by lia.
      f_equal. lia.
    + rewrite length_skipn. lia.
    + rewrite length_skipn. lia.
Qed.

Lemma sha256_bitlen_small (len : Z) : 0 <= len < 2 ^ 29 -> sha256_bitlen len = 8 * len.
Proof.
  intro H. unfold sha256_bitlen, shl32. rewrite u32_mod, Z.shiftl_mul_pow2 by lia.
  rewrite Z.mod_small; lia.
Qed.

Lemma internal_from_fold (St : Type) (tr : St -> list Z -> St) (init : St) (msg : list Z) :
  let len := Z.of_nat (List.length msg) in
  len < 2 ^ 29 ->
  sha256_internal_from host St tr init msg len =
  fold_left tr
    (FIPS180.blocks (Z.to_nat (len / 64)) msg ++
     last_blocks (skipn (64 * Z.to_nat (len / 64)) msg) len) init.
Proof.
  intros len Hlen. unfold sha256_internal_from.
  assert (Hn : (64 * Z.to_nat (len / 64) <= List.length msg)%nat).
  { subst len. pose proof (Z.mul_div_le (Z.of_nat (List.length msg)) 64 ltac:(lia)).
    pose proof (Z.div_pos (Z.of_nat (List.length msg)) 64 ltac:(lia) ltac:(lia)). lia. }
  rewrite full_blocks_fold by (auto; reflexivity).
  set (n := Z.to_nat (len / 64)) in *.
  set (rest := skipn (64 * n) msg).
  assert (Hrest : Z.of_nat (List.length rest) = len - 64 * Z.of_nat n).
  { unfold rest. rewrite length_skipn. subst len. lia. }
  assert (Hr : 0 <= len - 64 * Z.of_nat n < 64).
  { subst n. rewrite Z2Nat.id by (apply Z.div_pos; lia).
    pose proof (Z.mod_pos_bound len 64 ltac:(lia)).
    rewrite Z.mod_eq in H by lia. lia. }
  rewrite fold_left_app.
  rewrite sha256_bitlen_small by (subst len; lia).
  rewrite store64_read64be by (subst len; lia).
  rewrite <- Hrest, Nat2Z.id.
  rewrite firstn_all.
  unfold last_blocks.
  destruct (Z.leb_spec 56 (Z.of_nat (List.length rest))) as [H56 | H56].
  - replace (56 <=? List.length rest)%nat with true by (symmetry; apply Nat.leb_le; lia).
    cbn [fold_left app]. reflexivity.
  - replace (56 <=? List.length rest)%nat with false by (symmetry; apply Nat.leb_gt; lia).
    cbn [fold_left]. apply f_equal.
    rewrite firstn_app, firstn_all2 by lia.
    replace (56 - List.length rest)%nat with (S (55 - List.length rest)) by lia.
    cbn [app]. rewrite firstn_cons, firstn_repeat by lia.
    rewrite <- app_assoc. reflexivity.
Qed.

Lemma fold_left_snoc (L acc : list (list Z)) :
  fold_left (fun a blk => a ++ [blk]) L acc = acc ++ L.
Proof.
  revert acc; induction L as [|b L IH]; intro acc; cbn [fold_left].
  - symmetry. apply app_nil_r.
  - rewrite IH, <- app_assoc. reflexivity.
Qed.

(** The blocks the code hands on, written out. *)
Lemma sha256_feed_blocks (msg : list Z) :
  let len := Z.of_nat (List.length msg) in
  len < 2 ^ 29 ->
  sha256_feed host msg len =
  FIPS180.blocks (Z.to_nat (len / 64)) msg ++
  last_blocks (skipn (64 * Z.to_nat (len / 64)) msg) len.
Proof.
  intros len Hlen. unfold sha256_feed.
  rewrite (internal_from_fold _ _ _ msg Hlen). rewrite fold_left_snoc. reflexivity.
Qed.

(** [sha256_internal] applies [sha256_transform] to those blocks in turn. *)
Lemma sha256_internal_feed (msg : list Z) :
  let len := Z.of_nat (List.length msg) in
  len < 2 ^ 29 ->
  sha256_internal host msg len =
  fold_left (sha256_transform host) (sha256_feed host msg len) sha256_kinit.
Proof.
  intros len Hlen. unfold sha256_internal.
  rewrite (internal_from_fold _ _ _ msg Hlen).
  pose proof (sha256_feed_blocks msg Hlen) as Hf. fold len in Hf. rewrite Hf. reflexivity.
Qed.

Lemma be64_length (x : Z) : List.length (FIPS180.be64 x) = 8%nat.
Proof. reflexivity. Qed.

(** The number of zero bytes of the standard's padding. *)
Lemma pad_zero_bytes (len : Z) :
  0 <= len ->
  ((448 - (8 * len + 1)) mod 512 - 7) / 8 = (55 - len) mod 64.
Proof. intro H. Z.div_mod_to_equations. lia. Qed.

(** The blocks of the padded message of the standard are the blocks the
    code hands on. *)
Lemma pad_blocks (msg : list Z) :
  let len := Z.of_nat (List.length msg) in
  let P := FIPS180.pad msg in
  FIPS180.blocks (List.length P / 64) P =
  FIPS180.blocks (Z.to_nat (len / 64)) msg ++
  last_blocks (skipn (64 * Z.to_nat (len / 64)) msg) len.
Proof.
  intros len P. unfold P, FIPS180.pad. fold len.
  rewrite pad_zero_bytes by (subst len; lia).
  assert (Hn : (64 * Z.to_nat (len / 64) <= List.length msg)%nat).
  { subst len. pose proof (Z.mul_div_le (Z.of_nat (List.length msg)) 64 ltac:(lia)).
    pose proof (Z.div_pos (Z.of_nat (List.length msg)) 64 ltac:(lia) ltac:(lia)). lia. }
  set (n := Z.to_nat (len / 64)) in *.
  set (rest := skipn (64 * n) msg).
  assert (Hrest : Z.of_nat (List.length rest) = len mod 64).
  { unfold rest. rewrite length_skipn. subst n len.
    rewrite Z.mod_eq by lia.
    pose proof (Z.div_pos (Z.of_nat (List.length msg)) 64 ltac:(lia) ltac:(lia)). lia. }
  pose proof (Z.mod_pos_bound len 64 ltac:(lia)) as Hr.
  unfold last_blocks.
  destruct (Nat.leb_spec 56 (List.length rest)) as [H56 | H56].
  - assert (Hk : Z.to_nat ((55 - len) mod 64) = (63 - List.length rest + 56)%nat).
    { assert ((55 - len) mod 64 = 119 - len mod 64) by (Z.div_mod_to_equations; lia). lia. }
    rewrite Hk.
    replace (Nat.div (List.length (msg ++ [128] ++ repeat 0 (63 - List.length rest + 56) ++
                                   FIPS180.be64 (8 * len))) 64) with (n + 2)%nat.
    + rewrite blocks_app by exact Hn. fold rest. f_equal.
      rewrite repeat_app. cbn [FIPS180.blocks app].
      replace (rest ++ 128 :: (repeat 0 (63 - List.length rest) ++ repeat 0 56) ++
               FIPS180.be64 (8 * len))
        with ((rest ++ 128 :: repeat 0 (63 - List.length rest)) ++
              (repeat 0 56 ++ FIPS180.be64 (8 * len)))
        by (rewrite <- ?app_assoc; cbn [app]; rewrite <- ?app_assoc; reflexivity).
      assert (Hl1 : List.length (rest ++ 128 :: repeat 0 (63 - List.length rest)) = 64%nat).
      { rewrite length_app. cbn [List.length]. rewrite repeat_length. lia. }
      rewrite firstn_app, skipn_app, Hl1, Nat.sub_diag, firstn_0, skipn_0, app_nil_r.
      rewrite <- Hl1 at 1 3. rewrite firstn_all, skipn_all. cbn [app].
      rewrite firstn_all2 by (rewrite length_app, repeat_length, be64_length; lia).
      reflexivity.
    + apply Nat.div_unique with (r := O); [lia|].
      rewrite !length_app, repeat_length, be64_length. cbn [List.length].
      pose proof (firstn_skipn (64 * n) msg) as Hsplit. fold rest in Hsplit.
      assert (List.length msg = (64 * n + List.length rest)%nat).
      { unfold rest. rewrite length_skipn. lia. }
      lia.
  - assert (Hk : Z.to_nat ((55 - len) mod 64) = (55 - List.length rest)%nat).
    { assert ((55 - len) mod 64 = 55 - len mod 64) by (Z.div_mod_to_equations; lia). lia. }
    rewrite Hk.
    replace (Nat.div (List.length (msg ++ [128] ++ repeat 0 (55 - List.length rest) ++
                                   FIPS180.be64 (8 * len))) 64) with (n + 1)%nat.
    + rewrite blocks_app by exact Hn. fold rest. f_equal.
      cbn [FIPS180.blocks app].
      rewrite firstn_all2
        by (rewrite length_app; cbn [List.length];
            rewrite length_app, repeat_length, be64_length; lia).
      reflexivity.
    + apply Nat.div_unique with (r := O); [lia|].
      rewrite !length_app, repeat_length, be64_length. cbn [List.length].
      assert (List.length msg = (64 * n + List.length rest)%nat).
      { unfold rest. rewrite length_skipn. lia. }
      lia.
Qed.

End FeedFacts.

(** ** The whole hash *)

Lemma is_bytes_Forall (l : list Z) :
  is_bytes l = true <-> Forall (fun b => 0 <= b < 2 ^ 8) l.
Proof.
  unfold is_bytes. rewrite forallb_forall, Forall_forall.
  split; intros H b Hb; specialize (H b Hb).
  - apply andb_prop in H. destruct H as [H1 H2].
    apply Z.leb_le in H1. apply Z.ltb_lt in H2. change (2 ^ 8) with 256. lia.
  - change (2 ^ 8) with 256 in H. apply andb_true_intro. split.
    + apply Z.leb_le. lia.
    + apply Z.ltb_lt. lia.
Qed.

Lemma be32_bytes (x : Z) : Forall (fun b => 0 <= b < 2 ^ 8) (FIPS180.be32 x).
Proof.
  unfold FIPS180.be32. change (2 ^ 8) with 256.
  repeat constructor; apply Z.mod_pos_bound; lia.
Qed.

Lemma pad_bytes (msg : list Z) :
  Forall (fun b => 0 <= b < 2 ^ 8) msg -> Forall (fun b => 0 <= b < 2 ^ 8) (FIPS180.pad msg).
Proof.
  intro Hm. unfold FIPS180.pad. cbv zeta.
  apply Forall_app. split; [exact Hm|].
  apply Forall_app. split; [repeat constructor; lia|].
  apply Forall_app. split.
  - apply Forall_forall. intros b Hb. apply repeat_spec in Hb. subst b. lia.
  - unfold FIPS180.be64. apply Forall_app. split; apply be32_bytes.
Qed.

Lemma fold_left_cons {A B : Type} (f : A -> B -> A) (x : B) (l : list B) (a : A) :
  fold_left f (x :: l) a = fold_left f l (f a x).
Proof. reflexivity. Qed.

Lemma fold_left_one {A B : Type} (f : A -> B -> A) (x : B) (a : A) :
  fold_left f [x] a = f a x.
Proof. reflexivity. Qed.

Section HashFacts.

Variable host : byte_order.

Lemma fold_transform_compress (L : list (list Z)) (st : list Z) :
  List.length st = 8%nat ->
  Forall (fun blk => List.length blk = 64%nat) L ->
  Forall (Forall (fun b => 0 <= b < 2 ^ 8)) L ->
  fold_left (sha256_transform host) L st = fold_left FIPS180.compress L st.
Proof.
  revert st; induction L as [|blk L IH]; intros st Hst H64 Hb; [reflexivity|].
  rewrite !fold_left_cons. inversion H64; subst. inversion Hb; subst.
  rewrite sha256_transform_compress by assumption.
  apply IH; [apply compress_length, Hst | assumption | assumption].
Qed.

Lemma fold_compress_range (L : list (list Z)) (st : list Z) :
  L <> [] -> Forall (fun x => 0 <= x < 2 ^ 32) (fold_left FIPS180.compress L st).
Proof.
  intro HL. destruct (exists_last HL) as (L' & blk & ->).
  rewrite fold_left_app, fold_left_one. apply compress_range.
Qed.

Lemma digest_bytes (st : list Z) :
  Forall (fun x => 0 <= x < 2 ^ 32) st ->
  concat (map (store32 host) (map (read32be host) st)) = flat_map FIPS180.be32 st.
Proof.
  induction 1 as [|x st Hx Hst IH]; [reflexivity|].
  cbn [map concat flat_map]. rewrite IH, store32_read32be by exact Hx. reflexivity.
Qed.

(** [sha256sum] computes SHA-256 as the standard defines it, on either
    kind of host, for every message of bytes shorter than 2^29 bytes. *)
Lemma sha256sum_refines (msg : list Z) :
  is_bytes msg = true -> Z.of_nat (List.length msg) < 2 ^ 29 ->
  sha256sum host msg (Z.of_nat (List.length msg)) = FIPS180.sha256 msg.
Proof.
  intros Hb Hlen. apply is_bytes_Forall in Hb.
  unfold sha256sum, FIPS180.sha256. cbv zeta.
  rewrite (sha256_internal_feed host msg Hlen).
  rewrite (sha256_feed_blocks host msg Hlen).
  rewrite <- (pad_blocks msg).
  assert (H64 : Forall (fun blk => List.length blk = 64%nat)
                  (FIPS180.blocks (List.length (FIPS180.pad msg) / 64) (FIPS180.pad msg))).
  { apply blocks_all_64. apply Nat.Div0.mul_div_le. }
  rewrite fold_transform_compress;
    [ | reflexivity | exact H64 | apply blocks_bytes, pad_bytes, Hb ].
  rewrite sha256_kinit_H0.
  apply digest_bytes, fold_compress_range.
  rewrite (pad_blocks msg). unfold last_blocks.
  destruct (56 <=? List.length (skipn _ msg))%nat; intro Hnil;
    apply app_eq_nil in Hnil; destruct Hnil as [_ Hnil]; discriminate Hnil.
Qed.

(** C3 (as the code has it): for every message shorter than 2^29 bytes
    the blocks handed to the compression function are, end to end, the
    message, one byte [0x80], zero bytes and the bit length of the message
    as a 64-bit big-endian number; each is 64 bytes long; there is one
    block after the whole blocks of the message, or two exactly when the
    bytes left over number 56 or more, and then the extra, last block is
    zero in its first 56 bytes and carries the bit length in its last 8. *)
Theorem sha256_padding (msg : list Z) :
  let len := Z.of_nat (List.length msg) in
  len < 2 ^ 29 ->
  let fed := sha256_feed host msg len in
  concat fed =
    msg ++ [0x80] ++ repeat 0 (Z.to_nat ((55 - len) mod 64)) ++ FIPS180.be64 (8 * len) /\
  Forall (fun blk => List.length blk = 64%nat) fed /\
  List.length fed = (Z.to_nat (len / 64) + (if (56 <=? len mod 64)%Z then 2 else 1))%nat /\
  (56 <= len mod 64 -> last fed [] = repeat 0 56 ++ FIPS180.be64 (8 * len)).
Proof.
  intros len Hlen fed.
  pose proof (sha256_feed_blocks host msg Hlen) as Hblocks. fold len in Hblocks.
  assert (Hfed : fed = FIPS180.blocks (List.length (FIPS180.pad msg) / 64) (FIPS180.pad msg)).
  { unfold fed. rewrite Hblocks. symmetry. apply pad_blocks. }
  assert (Hpad : FIPS180.pad msg =
                 msg ++ [0x80] ++ repeat 0 (Z.to_nat ((55 - len) mod 64)) ++
                 FIPS180.be64 (8 * len)).
  { unfold FIPS180.pad. cbv zeta. fold len. rewrite pad_zero_bytes by (subst len; lia).
    reflexivity. }
  assert (Hrest : Z.of_nat (List.length (skipn (64 * Z.to_nat (len / 64)) msg)) = len mod 64).
  { rewrite length_skipn. subst len. rewrite Z.mod_eq by lia.
    pose proof (Z.div_pos (Z.of_nat (List.length msg)) 64 ltac:(lia) ltac:(lia)).
    pose proof (Z.mul_div_le (Z.of_nat (List.length msg)) 64 ltac:(lia)). lia. }
  split; [|split; [|split]].
  - rewrite Hfed, concat_blocks, <- Hpad. apply firstn_all2.
    pose proof (Nat.Div0.mul_div_le (List.length (FIPS180.pad msg)) 64) as Hle.
    assert (Hex : (List.length (FIPS180.pad msg) mod 64 = 0)%nat).
    { pose proof (f_equal (@List.length (list Z)) (pad_blocks msg)) as Hl.
      cbv zeta in Hl. rewrite blocks_length, length_app, blocks_length in Hl.
      rewrite Hpad in *. rewrite !length_app, repeat_length, be64_length in *.
      cbn [List.length] in *.
      pose proof (Z.mod_pos_bound (55 - len) 64 ltac:(lia)).
      assert (Hmod : (Z.of_nat (List.length msg) + 1 +
                      (55 - len) mod 64 + 8) mod 64 = 0).
      { fold len. Z.div_mod_to_equations. lia. }
      apply Nat2Z.inj. rewrite Nat2Z.inj_mod.
      replace (Z.of_nat (List.length msg + (1 + (Z.to_nat ((55 - len) mod 64) + 8))))
        with (Z.of_nat (List.length msg) + 1 + (55 - len) mod 64 + 8) by lia.
      exact Hmod. }
    pose proof (Nat.div_mod_eq (List.length (FIPS180.pad msg)) 64). lia.
  - rewrite Hfed. apply blocks_all_64, Nat.Div0.mul_div_le.
  - unfold fed. rewrite Hblocks.
    rewrite length_app, blocks_length. f_equal. unfold last_blocks.
    destruct (Z.leb_spec 56 (len mod 64)) as [H56 | H56].
    + replace (56 <=? List.length (skipn (64 * Z.to_nat (len / 64)) msg))%nat with true
        by (symmetry; apply Nat.leb_le; lia).
      reflexivity.
    + replace (56 <=? List.length (skipn (64 * Z.to_nat (len / 64)) msg))%nat with false
        by (symmetry; apply Nat.leb_gt; lia).
      reflexivity.
  - intro H56. unfold fed. rewrite Hblocks.
    unfold last_blocks.
    replace (56 <=? List.length (skipn (64 * Z.to_nat (len / 64)) msg))%nat with true
      by (symmetry; apply Nat.leb_le; lia).
    match goal with
    | |- last (?l ++ [?x; ?y]) _ = _ =>
        change (l ++ [x; y]) with (l ++ [x] ++ [y]); rewrite app_assoc, last_last
    end.
    reflexivity.
Qed.

End HashFacts.

(* ================================================================== *)
(** * The address permutation *)

Lemma testbit_small (c n : Z) :
  0 <= c < 2 ^ n -> 0 <= n -> forall j, n <= j -> Z.testbit c j = false.
Proof.
  intros Hc Hn j Hj.
  destruct (Z.eq_dec c 0) as [-> | Hne]; [apply Z.testbit_0_l|].
  apply Z.bits_above_log2; [lia|].
  assert (Z.log2 c < n) by (apply Z.log2_lt_pow2; lia). lia.
Qed.

Lemma below_pow2 (x n : Z) :
  0 <= x -> 0 <= n -> (forall j, n <= j -> Z.testbit x j = false) -> x < 2 ^ n.
Proof.
  intros Hx Hn Hbits.
  destruct (Z.lt_ge_cases x (2 ^ n)) as [Hlt | Hge]; [exact Hlt|].
  exfalso.
  assert (Hpos : 0 < x) by (pose proof (Z.pow_pos_nonneg 2 n ltac:(lia) Hn); lia).
  assert (Hlog : n <= Z.log2 x) by (apply Z.log2_le_pow2; lia).
  pose proof (Z.bit_log2 x Hpos) as Hbit.
  rewrite (Hbits _ Hlog) in Hbit. discriminate.
Qed.

Ltac perm_bits :=
  unfold addr_perm, shl32, shr32, u32;
  repeat (rewrite ?Z.lor_spec, ?Z.land_spec, ?Z.shiftl_spec, ?Z.shiftr_spec by lia).

Lemma addr_perm_low_bit (addr i : Z) :
  0 <= i < 9 -> Z.testbit (addr_perm addr) i = Z.testbit addr (perm_src i).
Proof.
  intro Hi.
  assert (Hc : i = 0 \/ i = 1 \/ i = 2 \/ i = 3 \/ i = 4 \/ i = 5 \/ i = 6 \/ i = 7 \/ i = 8)
    by lia.
  repeat (destruct Hc as [-> | Hc]); try subst i; perm_bits; cbn;
    rewrite ?andb_false_r, ?andb_true_r, ?orb_false_r, ?orb_false_l; reflexivity.
Qed.

Lemma addr_perm_high_bit (addr i : Z) :
  0 <= addr < 2 ^ 32 -> 9 <= i -> Z.testbit (addr_perm addr) i = Z.testbit addr i.
Proof.
  intros Ha Hi. perm_bits.
  rewrite (testbit_small 1 1), (testbit_small 4 3), (testbit_small 8 4),
    (testbit_small 16 5), (testbit_small 32 6), (testbit_small 64 7),
    (testbit_small 128 8), (testbit_small 256 9) by lia.
  rewrite ?andb_false_r, ?orb_false_r, ?andb_false_l.
  destruct (Z_lt_le_dec i 32) as [Hlt | Hge].
  - assert (Hc : i = 9 \/ i = 10 \/ i = 11 \/ i = 12 \/ i = 13 \/ i = 14 \/ i = 15 \/
                 i = 16 \/ i = 17 \/ i = 18 \/ i = 19 \/ i = 20 \/ i = 21 \/ i = 22 \/
                 i = 23 \/ i = 24 \/ i = 25 \/ i = 26 \/ i = 27 \/ i = 28 \/ i = 29 \/
                 i = 30 \/ i = 31) by lia.
    repeat (destruct Hc as [-> | Hc]); try subst i; cbn; rewrite ?andb_true_r; reflexivity.
  - rewrite (testbit_small addr 32) by lia. reflexivity.
Qed.

Lemma addr_perm_nonneg (addr : Z) : 0 <= addr -> 0 <= addr_perm addr.
Proof.
  intro Ha. unfold addr_perm, shl32, shr32, u32.
  repeat (apply Z.lor_nonneg; split);
    repeat first [ apply Z.shiftr_nonneg
                 | apply Z.land_nonneg; right; lia
                 | apply Z.land_nonneg; left; lia ].
Qed.

(** C2 (as the code has it): [addr_perm] maps 32-bit addresses to 32-bit
    addresses; bits 9 and above and bit 1 pass through; bit 0 goes to bit
    7, bit 2 to 6, bit 3 to 5, bit 4 to 0, bit 5 to 2, bit 6 to 8, bit 7
    to 4 and bit 8 to 3. *)
Theorem addr_perm_wiring (addr : Z) :
  0 <= addr < 2 ^ 32 ->
  0 <= addr_perm addr < 2 ^ 32 /\
  (forall i, 9 <= i -> Z.testbit (addr_perm addr) i = Z.testbit addr i) /\
  Z.testbit (addr_perm addr) 1 = Z.testbit addr 1 /\
  Z.testbit (addr_perm addr) 7 = Z.testbit addr 0 /\
  Z.testbit (addr_perm addr) 6 = Z.testbit addr 2 /\
  Z.testbit (addr_perm addr) 5 = Z.testbit addr 3 /\
  Z.testbit (addr_perm addr) 0 = Z.testbit addr 4 /\
  Z.testbit (addr_perm addr) 2 = Z.testbit addr 5 /\
  Z.testbit (addr_perm addr) 8 = Z.testbit addr 6 /\
  Z.testbit (addr_perm addr) 4 = Z.testbit addr 7 /\
  Z.testbit (addr_perm addr) 3 = Z.testbit addr 8.
Proof.
  intro Ha. split; [split|].
  - apply addr_perm_nonneg; lia.
  - apply below_pow2; [apply addr_perm_nonneg; lia | lia |].
    intros j Hj. rewrite addr_perm_high_bit by lia. apply (testbit_small addr 32); lia.
  - split; [intros i Hi; apply addr_perm_high_bit; assumption|].
    repeat split; apply addr_perm_low_bit; lia.
Qed.

Lemma addr_perm_wiring_witness :
  0 <= 0x555 < 2 ^ 32 /\
  (0 <= addr_perm 0x555 < 2 ^ 32 /\
   (forall i, 9 <= i -> Z.testbit (addr_perm 0x555) i = Z.testbit 0x555 i) /\
   Z.testbit (addr_perm 0x555) 1 = Z.testbit 0x555 1 /\
   Z.testbit (addr_perm 0x555) 7 = Z.testbit 0x555 0 /\
   Z.testbit (addr_perm 0x555) 6 = Z.testbit 0x555 2 /\
   Z.testbit (addr_perm 0x555) 5 = Z.testbit 0x555 3 /\
   Z.testbit (addr_perm 0x555) 0 = Z.testbit 0x555 4 /\
   Z.testbit (addr_perm 0x555) 2 = Z.testbit 0x555 5 /\
   Z.testbit (addr_perm 0x555) 8 = Z.testbit 0x555 6 /\
   Z.testbit (addr_perm 0x555) 4 = Z.testbit 0x555 7 /\
   Z.testbit (addr_perm 0x555) 3 = Z.testbit 0x555 8).
Proof.
  split; [lia | apply (addr_perm_wiring 0x555); lia].
Defined.

(** Bit 6 of the address does not drive bit 2 of the result: the address
    with bit 6 alone set comes out with bit 8 alone set. *)
Lemma addr_perm_bit6_not_to_bit2 :
  addr_perm 0x040 = 0x100 /\ Z.testbit (addr_perm 0x040) 2 <> Z.testbit 0x040 6.
Proof. split; [reflexivity | discriminate]. Qed.

(** The addresses the command sequences use. *)
Lemma addr_perm_commands :
  addr_perm 0x555 = 0x5C9 /\ addr_perm 0x2AA = 0x236 /\
  addr_perm 0x000 = 0x000 /\ addr_perm 0x001 = 0x080.
Proof. repeat split. Qed.

(* ================================================================== *)
(** * The operations run on the device models *)

(** The read-back is not read-only: [flash_validate] of four bytes reads
    its two half-words in mode 4, the flash-mapped mode with the
    write-access bit (bit 2) set, and not in the read-only mode 0. *)
Lemma readback_is_not_read_only :
  reads_of (trace (snd (flash_validate erased_buf 4 (Machine 0 0 tt [])))) =
    [(4, 0, 0xFFFF); (4, 1, 0xFFFF)] /\
  mode_value MAPPED_FIRMWARE true false = 4 /\
  mode_value MAPPED_FIRMWARE false false = 0 /\
  Z.testbit 4 2 = true.
Proof. repeat split. Qed.


(** [flash_erase] on a device that never gives the same value twice and
    on one that always reads [0xFFFF]. *)
Lemma flash_erase_on_models :
  (let r := flash_erase (Machine 0 0 0 []) in
   fst r = false /\ sleeps_of (trace (snd r)) = ERASE_BUDGET) /\
  (let r := flash_erase (Machine 0 0 tt []) in
   fst r = true /\ sleeps_of (trace (snd r)) = 1%nat).
Proof.
  split; cbv zeta; (split; [vm_compute; reflexivity | apply Nat2Z.inj; vm_compute; reflexivity]).
Qed.



(** The loads of that run, as they come out. *)
Lemma flash_write_odd_size_loads :
  loads_of (trace (snd (flash_write erased_buf 3 (Machine 0 0 tt [])))) = [0; 1; 2; 3] /\
  fst (flash_write erased_buf 3 (Machine 0 0 tt [])) = true.
Proof. split; vm_compute; reflexivity. Qed.

(* ================================================================== *)
(** * The hash on concrete messages and against the standard *)

(** The reference computes the digests the standard publishes for its
    example messages. *)
Lemma FIPS180_examples :
  FIPS180.sha256 [] = digest_empty /\
  FIPS180.sha256 msg_abc = digest_abc /\
  FIPS180.sha256 msg_56 = digest_56 /\
  FIPS180.sha256 msg_112 = digest_112.
Proof. repeat split; vm_compute; reflexivity. Qed.

(** The constants of the reference are what the standard says they are:
    the first 32 bits of the fractional parts of the cube roots of the
    first 64 primes and of the square roots of the first 8; the cube roots
    are cube roots. *)
Lemma FIPS180_constants :
  FIPS180.K = map FIPS180.frac_cbrt FIPS180.primes64 /\
  FIPS180.H0 = map FIPS180.frac_sqrt (firstn 8 FIPS180.primes64) /\
  forallb (fun p => let r := FIPS180.cube_root 40 (p * 2 ^ 96) 0 in
                    (r ^ 3 <=? p * 2 ^ 96) && (p * 2 ^ 96 <? (r + 1) ^ 3))
          FIPS180.primes64 = true.
Proof. repeat split; vm_compute; reflexivity. Qed.

Lemma sha256_transform_range (host : byte_order) (state data : list Z) :
  Forall (fun x => 0 <= x < 2 ^ 32) (sha256_transform host state data) /\
  List.length (sha256_transform host state data) = 8%nat.
Proof.
  unfold sha256_transform. cbv zeta.
  destruct (sha256_rounds 64 0 _) as [ls' w']. split.
  - apply Forall_forall. intros x Hx. apply in_map_iff in Hx.
    destruct Hx as (i & <- & _). apply u32_range.
  - rewrite length_map. reflexivity.
Qed.

Lemma sha256_internal_range (host : byte_order) (inbuffer : list Z) (length : Z) :
  Forall (fun x => 0 <= x < 2 ^ 32) (sha256_internal host inbuffer length) /\
  List.length (sha256_internal host inbuffer length) = 8%nat.
Proof.
  unfold sha256_internal, sha256_internal_from. cbv zeta.
  destruct (sha256_full_blocks (list Z) (sha256_transform host) _ _ _ _)
    as [[st ib] l].
  destruct (56 <=? l); apply sha256_transform_range.
Qed.

(** The 32 bytes [sha256sum] leaves are the eight state words, each most
    significant byte first, on either kind of host. *)
Lemma sha256sum_big_endian (host : byte_order) (inbuffer : list Z) (length : Z) :
  sha256sum host inbuffer length =
  flat_map FIPS180.be32 (sha256_internal host inbuffer length).
Proof.
  unfold sha256sum. cbv zeta. apply digest_bytes, sha256_internal_range.
Qed.

(** C4: on either kind of host [sha256sum] gives the published digests of
    the empty message and of "abc"; for every message of 55, 56 or 57
    bytes it gives the digest the reference implementation of the standard
    gives; and its output is the eight state words written most
    significant byte first, so that the same message has the same digest
    on a little-endian and on a big-endian host. *)
Theorem sha256sum_standard (host : byte_order) :
  sha256sum host [] 0 = digest_empty /\
  sha256sum host msg_abc 3 = digest_abc /\
  (forall msg, is_bytes msg = true -> In (List.length msg) [55; 56; 57]%nat ->
     sha256sum host msg (Z.of_nat (List.length msg)) = FIPS180.sha256 msg) /\
  (forall msg len,
     sha256sum host msg len = flat_map FIPS180.be32 (sha256_internal host msg len)) /\
  (forall msg, is_bytes msg = true -> Z.of_nat (List.length msg) < 2 ^ 29 ->
     sha256sum LittleEndian msg (Z.of_nat (List.length msg)) =
     sha256sum BigEndian msg (Z.of_nat (List.length msg))).
Proof.
  split; [|split; [|split; [|split]]].
  - destruct host; vm_compute; reflexivity.
  - destruct host; vm_compute; reflexivity.
  - intros msg Hb Hlen. apply sha256sum_refines; [exact Hb|].
    cbn [In] in Hlen. destruct Hlen as [<- | [<- | [<- | []]]]; reflexivity.
  - intros msg len. apply sha256sum_big_endian.
  - intros msg Hb Hlen. rewrite !sha256sum_refines by assumption. reflexivity.
Qed.

(** C4 on the messages of 55, 56 and 57 bytes, on a little-endian host. *)
Lemma sha256sum_standard_witness :
  sha256sum LittleEndian msg_55 (Z.of_nat (List.length msg_55)) = FIPS180.sha256 msg_55 /\
  sha256sum LittleEndian msg_56 (Z.of_nat (List.length msg_56)) = FIPS180.sha256 msg_56 /\
  sha256sum LittleEndian msg_57 (Z.of_nat (List.length msg_57)) = FIPS180.sha256 msg_57.
Proof.
  pose proof (proj1 (proj2 (proj2 (sha256sum_standard LittleEndian)))) as H.
  split; [|split].
  - apply (H msg_55); [reflexivity | left; reflexivity].
  - apply (H msg_56); [reflexivity | right; left; reflexivity].
  - apply (H msg_57); [reflexivity | right; right; left; reflexivity].
Defined.

(** The digests of those messages on both kinds of host. *)
Lemma sha256sum_boundary_digests (host : byte_order) :
  sha256sum host msg_56 56 = digest_56 /\
  sha256sum host msg_112 112 = digest_112 /\
  sha256sum host msg_55 55 = digest_55 /\
  sha256sum host msg_57 57 = digest_57.
Proof. destruct host; repeat split; vm_compute; reflexivity. Qed.

(** No block that [sha256_internal] hands to the compression function for
    [msg_a56] is all zero: the extra block is the one that takes the byte
    [0x80], and the last one carries the bit length 448. *)
Lemma sha256_extra_block_not_zero :
  sha256_feed LittleEndian msg_a56 56 =
    [ msg_a56 ++ 0x80 :: repeat 0 7; repeat 0 56 ++ [0; 0; 0; 0; 0; 0; 0x01; 0xC0] ] /\
  ~ In (repeat 0 64) (sha256_feed LittleEndian msg_a56 56).
Proof.
  split; [vm_compute; reflexivity|].
  vm_compute. intros [H | [H | []]]; discriminate H.
Qed.

(** The bit length is computed in 32 bits: from 2^29 bytes on it is not
    eight times the length. *)
Lemma sha256_bitlen_wraps :
  sha256_bitlen (2 ^ 29) = 0 /\ sha256_bitlen (2 ^ 29 + 1) = 8 /\
  forall length, 0 <= length < 2 ^ 29 -> sha256_bitlen length = 8 * length.
Proof.
  split; [reflexivity | split; [reflexivity|]].
  intros length H. apply sha256_bitlen_small. exact H.
Qed.

(** C3 on [msg_a56], on a little-endian host. *)
Lemma sha256_padding_witness :
  let len := Z.of_nat (List.length msg_a56) in
  len < 2 ^ 29 /\
  (let fed := sha256_feed LittleEndian msg_a56 len in
   concat fed =
     msg_a56 ++ [0x80] ++ repeat 0 (Z.to_nat ((55 - len) mod 64)) ++ FIPS180.be64 (8 * len) /\
   Forall (fun blk => List.length blk = 64%nat) fed /\
   List.length fed = (Z.to_nat (len / 64) + (if (56 <=? len mod 64)%Z then 2 else 1))%nat /\
   (56 <= len mod 64 -> last fed [] = repeat 0 56 ++ FIPS180.be64 (8 * len))).
Proof.
  split; [reflexivity | apply (sha256_padding LittleEndian msg_a56); reflexivity].
Defined.

(* ================================================================== *)
(** * The cartridge bus: what the operations leave behind and what they
    send *)

#[global] Create Rewrite HintDb buslog.

#[global] Hint Rewrite @reads_of_app @reads_of_read @reads_of_write @reads_of_sleep
  @reads_of_load @reads_of_nil @reads_of_handshake
  @writes_of_app @writes_of_read @writes_of_write @writes_of_sleep @writes_of_load
  @writes_of_nil @writes_of_handshake @writes_of_repeat_write
  @app_nil_r @app_nil_l : buslog.

Lemma wp_set_owner_exact {device : Type}
  (arm9 : bool) (Q : unit -> machine device -> Prop) (m : machine device) :
  Q tt (Machine (Z.lor (Z.ldiff (exmemcnt m) ARM7_OWNS_ROM)
                       (if arm9 then 0 else ARM7_OWNS_ROM))
          (sd_mode m) (cart m) (trace m)) ->
  wp (sysSetCartOwner arm9) Q m.
Proof. auto. Qed.

Ltac bus_step :=
  lazymatch goal with
  | |- wp (bind _ _) _ _ => apply wp_bind
  | |- wp (ret _) _ _ => apply wp_ret
  | |- wp (wr _ _) _ _ => apply wp_wr
  | |- wp (rd _) _ _ => apply wp_rd; intros ? ? ?
  | |- wp (load _ _) _ _ => apply wp_load
  | |- wp sleep_1ms _ _ => apply wp_sleep
  | |- wp (exmemcnt_or _) _ _ => apply wp_exmemcnt_or
  | |- wp sysGetCartOwner _ _ => apply wp_get_owner
  | |- wp (sysSetCartOwner _) _ _ => apply wp_set_owner_exact
  | |- wp (set_supercard_mode _ _ _) _ _ => apply wp_set_mode; intros ?
  | |- wp (times _ (wr _ _)) _ _ => apply wp_times_wr; intros ?
  | |- wp (erase_poll _) _ _ => apply wp_erase_poll; intros ? ? ? ? ?
  | |- wp (read_window _ _) _ _ => apply wp_read_window; intros ? ? ?
  | |- wp (erase_check_loop _ _) _ _ =>
      apply wp_keeps; [apply keeps_erase_check_loop | intros ? ? ?]
  | |- wp (flash_write_loop _ _ _) _ _ =>
      apply wp_keeps; [apply keeps_flash_write_loop | intros ? ? ?]
  | |- wp (if ?b then _ else _) _ _ => destruct b
  end; cbv beta; cbn [exmemcnt sd_mode cart trace] in *.

Section BusMore.

Context {device : Type} {cartridge : Cartridge device}.

Local Open Scope bus_scope.

(** ** The memory-control register *)

Lemma owner_bit (e : Z) : (Z.land e ARM7_OWNS_ROM =? 0) = negb (Z.testbit e 7).
Proof.
  unfold ARM7_OWNS_ROM. change 0x80 with (2 ^ 7).
  destruct (Z.testbit e 7) eqn:Hb; cbn [negb].
  - apply Z.eqb_neq. intro H0.
    assert (Hc : Z.testbit (Z.land e (2 ^ 7)) 7 = false) by (rewrite H0; apply Z.testbit_0_l).
    rewrite Z.land_spec, Hb, Z.pow2_bits_true in Hc by lia. discriminate Hc.
  - apply Z.eqb_eq. apply Z.bits_inj'. intros n Hn.
    rewrite Z.land_spec, Z.testbit_0_l, Z.pow2_bits_eqb by lia.
    destruct (Z.eqb_spec 7 n) as [<- | Hne]; [rewrite Hb; reflexivity | apply andb_false_r].
Qed.

Lemma give_back_owner (m : machine device) (x : Z) :
  Z.testbit x 7 = false ->
  Z.lor (Z.ldiff (Z.lor (Z.lor (Z.ldiff (exmemcnt m) ARM7_OWNS_ROM) 0) x) ARM7_OWNS_ROM)
        (if owner m then 0 else ARM7_OWNS_ROM) = Z.lor (exmemcnt m) x.
Proof.
  intro Hx. unfold owner, sysGetCartOwner. cbn [fst]. rewrite owner_bit.
  unfold ARM7_OWNS_ROM. change 0x80 with (2 ^ 7). rewrite Z.lor_0_r.
  apply Z.bits_inj'. intros n Hn.
  destruct (Z.testbit (exmemcnt m) 7) eqn:Hb; cbn [negb];
    rewrite !Z.lor_spec, !Z.ldiff_spec, !Z.lor_spec, !Z.ldiff_spec, ?Z.testbit_0_l,
      Z.pow2_bits_eqb by lia;
    (destruct (Z.eqb_spec 7 n) as [<- | Hne];
     [ rewrite Hb, Hx; reflexivity
     | cbn [negb]; rewrite ?andb_true_r, ?orb_false_r; reflexivity ]).
Qed.

Lemma give_back_owner_plain (m : machine device) :
  Z.lor (Z.ldiff (Z.lor (Z.ldiff (exmemcnt m) ARM7_OWNS_ROM) 0) ARM7_OWNS_ROM)
        (if owner m then 0 else ARM7_OWNS_ROM) = exmemcnt m.
Proof.
  pose proof (give_back_owner m 0 (Z.testbit_0_l 7)) as H.
  rewrite !Z.lor_0_r in H. rewrite Z.lor_0_r. exact H.
Qed.

(** X1: the five operations that end with the restore return with the
    mapping mode at 0 (flash-mapped, read-only) and with the bus owner
    that [sysGetCartOwner] reported at entry, whatever the device
    answered and whether they succeeded or not. *)
Theorem operations_restore_mode_and_owner
  (buf : Z -> Z) (size : Z) (fopen_ok : bool) (m : machine device) :
  (sd_mode (snd (flash_ident m)) = 0 /\ owner (snd (flash_ident m)) = owner m) /\
  (sd_mode (snd (flash_erase m)) = 0 /\ owner (snd (flash_erase m)) = owner m) /\
  (sd_mode (snd (flash_erase_check m)) = 0 /\
   owner (snd (flash_erase_check m)) = owner m) /\
  (sd_mode (snd (flash_write buf size m)) = 0 /\
   owner (snd (flash_write buf size m)) = owner m) /\
  (sd_mode (snd (flash_dump fopen_ok m)) = 0 /\
   owner (snd (flash_dump fopen_ok m)) = owner m).
Proof.
  split; [apply flash_ident_restores|].
  split; [apply flash_erase_restores|].
  split; [apply flash_erase_check_restores|].
  split; [apply flash_write_restores | apply flash_dump_restores].
Qed.

(** X2: what the operations leave in [REG_EXMEMCNT].  The four that set
    the slow access timing ([REG_EXMEMCNT |= 0xF]) never take it back:
    the register is left as found with its low four bits set.
    [flash_dump] leaves the register exactly as found, and
    [flash_validate] leaves it with the owner bit cleared. *)
Theorem exmemcnt_after_operations
  (buf fwimg : Z -> Z) (size fwsize : Z) (fopen_ok : bool) (m : machine device) :
  exmemcnt (snd (flash_ident m)) = Z.lor (exmemcnt m) 0xF /\
  exmemcnt (snd (flash_erase m)) = Z.lor (exmemcnt m) 0xF /\
  exmemcnt (snd (flash_erase_check m)) = Z.lor (exmemcnt m) 0xF /\
  exmemcnt (snd (flash_write buf size m)) = Z.lor (exmemcnt m) 0xF /\
  exmemcnt (snd (flash_dump fopen_ok m)) = exmemcnt m /\
  exmemcnt (snd (flash_validate fwimg fwsize m)) = Z.ldiff (exmemcnt m) ARM7_OWNS_ROM.
Proof.
  split; [|split; [|split; [|split; [|split]]]].
  - change (wp flash_ident (fun _ m' => exmemcnt m' = Z.lor (exmemcnt m) 0xF) m).
    unfold flash_ident. repeat bus_step. apply give_back_owner. reflexivity.
  - change (wp flash_erase (fun _ m' => exmemcnt m' = Z.lor (exmemcnt m) 0xF) m).
    unfold flash_erase. repeat bus_step. apply give_back_owner. reflexivity.
  - change (wp flash_erase_check (fun _ m' => exmemcnt m' = Z.lor (exmemcnt m) 0xF) m).
    unfold flash_erase_check. repeat bus_step. apply give_back_owner. reflexivity.
  - change (wp (flash_write buf size)
              (fun _ m' => exmemcnt m' = Z.lor (exmemcnt m) 0xF) m).
    unfold flash_write. repeat bus_step. apply give_back_owner. reflexivity.
  - change (wp (flash_dump fopen_ok) (fun _ m' => exmemcnt m' = exmemcnt m) m).
    unfold flash_dump. repeat bus_step; apply give_back_owner_plain.
  - change (wp (flash_validate fwimg fwsize)
              (fun _ m' => exmemcnt m' = Z.ldiff (exmemcnt m) ARM7_OWNS_ROM) m).
    unfold flash_validate. repeat bus_step. apply Z.lor_0_r.
Qed.

(** ** What is sent to the flash *)

Lemma writes_of_read_events (md i : Z) (vs : list Z) :
  writes_of (rev (read_events md i vs)) = [].
Proof.
  unfold writes_of. rewrite rev_involutive.
  revert i; induction vs as [|v vs IH]; intro i; [reflexivity | apply IH].
Qed.

Lemma writes_of_poll_events (md : Z) (pairs : list (Z * Z)) :
  writes_of (rev (poll_events md pairs)) = [].
Proof.
  unfold writes_of. rewrite rev_involutive.
  induction pairs as [|p ps IH]; [reflexivity | exact IH].
Qed.

(** X3: [flash_ident] sends, in write-enabled mode, 32 resets, the
    three-cycle autoselect command at the permuted addresses [0x5C9] and
    [0x236], and 32 resets again, between the two mode switches; it reads
    two half-words, at indices 0 and [0x80] (addresses 0 and 1 permuted),
    and returns the first in the high and the second in the low half of
    its result. *)
Theorem flash_ident_exchange (e md : Z) (d : device) :
  let '(r, m') := flash_ident (Machine e md d []) in
  writes_of (trace m') =
    mode_switch md 4 ++ resets 32 ++
    [ (4, 0x5C9, 0x00AA); (4, 0x236, 0x0055); (4, 0x5C9, 0x0090) ] ++
    resets 32 ++ mode_switch 4 0 /\
  exists hi lo,
    reads_of (trace m') = [ (4, 0, hi); (4, 0x80, lo) ] /\
    r = Z.lor (shl32 hi 16) lo /\
    (0 <= hi < 2 ^ 16 -> 0 <= lo < 2 ^ 16 -> r = hi * 2 ^ 16 + lo).
Proof.
  apply wp_let. unfold flash_ident. repeat bus_step.
  split.
  - autorewrite with buslog. rewrite <- !app_assoc. reflexivity.
  - exists v, v0. split; [|split].
    + autorewrite with buslog. rewrite ?reads_of_repeat_write. reflexivity.
    + reflexivity.
    + intros Hhi Hlo. unfold shl32. rewrite u32_mod.
      change (2 ^ 16) with 65536 in *. change (2 ^ 32) with 4294967296.
      rewrite Z.shiftl_mul_pow2 by lia. change (2 ^ 16) with 65536.
      rewrite Z.mod_small by lia.
      apply lor_plus. apply Z.bits_inj'. intros n Hn.
      rewrite Z.land_spec, Z.testbit_0_l.
      destruct (Z_lt_le_dec n 16) as [Hlt | Hge].
      * change 65536 with (2 ^ 16). rewrite Z.mul_pow2_bits_low by lia. reflexivity.
      * rewrite (testbit_small v0 16) by (change (2 ^ 16) with 65536; lia).
        apply andb_false_r.
Qed.

(** X4: whatever the device answers, [flash_erase] sends exactly this:
    the switch to write-enabled mode, 32 resets, the six-cycle chip-erase
    command ([AA 55 80 AA 55 10]) at the permuted addresses [0x5C9] and
    [0x236], nothing during the wait, 32 resets and the switch back to
    read-only mode. *)
Theorem flash_erase_command (e md : Z) (d : device) :
  writes_of (trace (snd (flash_erase (Machine e md d [])))) =
    mode_switch md 4 ++ resets 32 ++
    [ (4, 0x5C9, 0x00AA); (4, 0x236, 0x0055); (4, 0x5C9, 0x0080);
      (4, 0x5C9, 0x00AA); (4, 0x236, 0x0055); (4, 0x5C9, 0x0010) ] ++
    resets 32 ++ mode_switch 4 0.
Proof.
  change (wp flash_erase
            (fun _ m' => writes_of (trace m') =
               mode_switch md 4 ++ resets 32 ++
               [ (4, 0x5C9, 0x00AA); (4, 0x236, 0x0055); (4, 0x5C9, 0x0080);
                 (4, 0x5C9, 0x00AA); (4, 0x236, 0x0055); (4, 0x5C9, 0x0010) ] ++
               resets 32 ++ mode_switch 4 0)
            (Machine e md d [])).
  unfold flash_erase. repeat bus_step.
  autorewrite with buslog. rewrite writes_of_poll_events.
  autorewrite with buslog. rewrite <- !app_assoc. reflexivity.
Qed.

(** X5: the operations that only read never write to the flash array:
    the only writes [flash_erase_check], [flash_dump] and
    [flash_validate] make are those of the mode switches, all at the
    mode register. *)
Theorem readers_write_the_mode_register_only
  (e md : Z) (d : device) (fopen_ok : bool) (fwimg : Z -> Z) (fwsize : Z) :
  writes_of (trace (snd (flash_erase_check (Machine e md d [])))) =
    mode_switch md 4 ++ mode_switch 4 0 /\
  writes_of (trace (snd (flash_dump fopen_ok (Machine e md d [])))) =
    mode_switch md 4 ++ mode_switch 4 0 /\
  writes_of (trace (snd (flash_validate fwimg fwsize (Machine e md d [])))) =
    mode_switch md 4.
Proof.
  split; [|split].
  - change (wp flash_erase_check
              (fun _ m' => writes_of (trace m') = mode_switch md 4 ++ mode_switch 4 0)
              (Machine e md d [])).
    unfold flash_erase_check. do 8 bus_step. bus_step.
    apply (wp_erase_check_loop FLASH_WORDS 0 0); [reflexivity|].
    intros vs d1 errf _. repeat bus_step.
    autorewrite with buslog. rewrite writes_of_read_events. reflexivity.
  - change (wp (flash_dump fopen_ok)
              (fun _ m' => writes_of (trace m') = mode_switch md 4 ++ mode_switch 4 0)
              (Machine e md d [])).
    unfold flash_dump. repeat bus_step;
      autorewrite with buslog; rewrite writes_of_read_events; reflexivity.
  - change (wp (flash_validate fwimg fwsize)
              (fun _ m' => writes_of (trace m') = mode_switch md 4)
              (Machine e md d [])).
    unfold flash_validate. repeat bus_step.
    autorewrite with buslog. rewrite writes_of_read_events. reflexivity.
Qed.

(** ** What the comparison of [flash_validate] decides *)

Lemma bytes_equal_spec (a : Z -> Z) (o : Z) (b : list Z) (n : nat) :
  (n <= List.length b)%nat ->
  (bytes_equal a o b n = true <->
   forall k, (k < n)%nat -> nth k b 0 = a (o + Z.of_nat k)).
Proof.
  revert o b; induction n as [|n IH]; intros o b Hn.
  - split; [intros _ k Hk; lia | destruct b; reflexivity].
  - destruct b as [|x b]; [simpl in Hn; lia|]. simpl in Hn.
    cbn [bytes_equal]. rewrite andb_true_iff, Z.eqb_eq, (IH (o + 1) b) by lia. split.
    + intros [Hx Hrest] k Hk. destruct k as [|k].
      * cbn [nth]. rewrite Z.add_0_r. auto.
      * cbn [nth]. rewrite Hrest by lia. f_equal. lia.
    + intro H. split.
      * specialize (H O ltac:(lia)). cbn [nth] in H. rewrite Z.add_0_r in H. auto.
      * intros k Hk. specialize (H (S k) ltac:(lia)). cbn [nth] in H.
        rewrite H. f_equal. lia.
Qed.

Lemma length_flat_map_bytes_le16 (vs : list Z) :
  List.length (flat_map bytes_le16 vs) = (2 * List.length vs)%nat.
Proof. induction vs as [|v vs IH]; [reflexivity | simpl; rewrite IH; lia]. Qed.

(** X6: [flash_validate] reads [(fwsize + 1) / 2] half-words and answers
    true exactly when each of the first [fwsize] bytes they hold, low
    byte first, is the byte of the image at the same offset. *)
Theorem flash_validate_decides (fwimg : Z -> Z) (fwsize e md : Z) (d : device) :
  let '(r, m') := flash_validate fwimg fwsize (Machine e md d []) in
  let flash := flat_map bytes_le16 (map snd (reads_of (trace m'))) in
  List.length flash = (2 * Z.to_nat ((fwsize + 1) / 2))%nat /\
  (r = true <-> forall k, 0 <= k < fwsize -> nth (Z.to_nat k) flash 0 = fwimg k).
Proof.
  apply wp_let. unfold flash_validate. repeat bus_step. cbv zeta.
  autorewrite with buslog. rewrite map_value_read_events.
  assert (Hl : List.length (flat_map bytes_le16 vs) = (2 * Z.to_nat ((fwsize + 1) / 2))%nat)
    by (rewrite length_flat_map_bytes_le16; congruence).
  split; [exact Hl|].
  assert (Hfit : (Z.to_nat fwsize <= List.length (flat_map bytes_le16 vs))%nat).
  { rewrite Hl. destruct (Z_lt_le_dec fwsize 0) as [Hneg | Hpos].
    - assert (Z.to_nat fwsize = O) by lia. lia.
    - assert (fwsize <= 2 * ((fwsize + 1) / 2)) by (Z.div_mod_to_equations; lia).
      assert (0 <= (fwsize + 1) / 2) by (apply Z.div_pos; lia). lia. }
  rewrite (bytes_equal_spec fwimg 0 _ _ Hfit). split.
  - intros Hall k Hk. rewrite (Hall (Z.to_nat k)) by lia. f_equal. lia.
  - intros Hall k Hk. rewrite <- (Nat2Z.id k) at 1. rewrite Hall by lia. reflexivity.
Qed.

(** ** The mode register and the empty image *)

(** X25: [set_supercard_mode] asks for the mode whose bit 0 is the
    mapped area, bit 1 the SD card interface and bit 2 write access, as
    its comment says, by four writes to the mode register, the magic
    value twice and the mode twice; it changes neither [REG_EXMEMCNT]
    nor anything else in the window. *)
Theorem set_supercard_mode_encodes (mapped_area : Z) (write_access sdcard_interface : bool)
  (m : machine device) :
  mapped_area = MAPPED_FIRMWARE \/ mapped_area = MAPPED_SDRAM ->
  let m' := snd (set_supercard_mode mapped_area write_access sdcard_interface m) in
  sd_mode m' =
    mapped_area + (if sdcard_interface then 2 else 0) + (if write_access then 4 else 0) /\
  Z.testbit (sd_mode m') 0 = (mapped_area =? MAPPED_SDRAM) /\
  Z.testbit (sd_mode m') 1 = sdcard_interface /\
  Z.testbit (sd_mode m') 2 = write_access /\
  writes_of (trace m') = writes_of (trace m) ++ mode_switch (sd_mode m) (sd_mode m') /\
  reads_of (trace m') = reads_of (trace m) /\
  exmemcnt m' = exmemcnt m.
Proof.
  intros Harea. cbv zeta.
  assert (Hrun : snd (set_supercard_mode mapped_area write_access sdcard_interface m) =
                 Machine (exmemcnt m)
                   (mode_value mapped_area write_access sdcard_interface)
                   (cart (snd (set_supercard_mode mapped_area write_access
                                 sdcard_interface m)))
                   (handshake (sd_mode m)
                      (mode_value mapped_area write_access sdcard_interface) ++ trace m))
    by reflexivity.
  rewrite Hrun. cbn [sd_mode exmemcnt trace].
  rewrite writes_of_app, reads_of_app, writes_of_handshake, reads_of_handshake, app_nil_r.
  unfold MAPPED_FIRMWARE, MAPPED_SDRAM in *.
  destruct Harea as [-> | ->]; destruct write_access, sdcard_interface;
    repeat split; reflexivity.
Qed.

(** X26: the empty image.  [flash_write] with size 0 programs nothing
    and reports success: it reads no byte of the buffer and its only
    writes are the switch to write-enabled mode, one reset and the
    switch back. *)
Theorem flash_write_of_nothing (buf : Z -> Z) (e md : Z) (d : device) :
  fst (flash_write buf 0 (Machine e md d [])) = true /\
  loads_of (trace (snd (flash_write buf 0 (Machine e md d [])))) = [] /\
  writes_of (trace (snd (flash_write buf 0 (Machine e md d [])))) =
    mode_switch md 4 ++ [(4, 0, 0x00F0)] ++ mode_switch 4 0.
Proof.
  destruct (flash_write_log buf 0 e md d 0 true) as (H1 & H2 & H3); [reflexivity|].
  split; [exact H1 | split; [exact H3|]]. rewrite H2. reflexivity.
Qed.

End BusMore.

Lemma set_supercard_mode_encodes_witness :
  (MAPPED_FIRMWARE = MAPPED_FIRMWARE \/ MAPPED_FIRMWARE = MAPPED_SDRAM) /\
  (let m' := snd (set_supercard_mode MAPPED_FIRMWARE true false (Machine 0 0 tt [])) in
   sd_mode m' = MAPPED_FIRMWARE + (if false then 2 else 0) + (if true then 4 else 0) /\
   Z.testbit (sd_mode m') 0 = (MAPPED_FIRMWARE =? MAPPED_SDRAM) /\
   Z.testbit (sd_mode m') 1 = false /\
   Z.testbit (sd_mode m') 2 = true /\
   writes_of (trace m') =
     writes_of (trace (Machine 0 0 tt [])) ++
     mode_switch (sd_mode (Machine 0 0 tt [])) (sd_mode m') /\
   reads_of (trace m') = reads_of (trace (Machine 0 0 tt [])) /\
   exmemcnt m' = exmemcnt (Machine 0 0 tt [])).
Proof.
  split; [left; reflexivity|].
  apply (set_supercard_mode_encodes MAPPED_FIRMWARE true false (Machine 0 0 tt [])).
  left. reflexivity.
Defined.

(* ================================================================== *)
(** * The address permutation is a permutation *)

Lemma addr_unperm_low_bit (x i : Z) :
  0 <= i < 9 -> Z.testbit (addr_unperm x) (perm_src i) = Z.testbit x i.
Proof.
  intro Hi.
  assert (Hc : i = 0 \/ i = 1 \/ i = 2 \/ i = 3 \/ i = 4 \/ i = 5 \/ i = 6 \/ i = 7 \/ i = 8)
    by lia.
  repeat (destruct Hc as [-> | Hc]); try subst i;
    unfold addr_unperm, shl32, shr32, u32;
    repeat (rewrite ?Z.lor_spec, ?Z.land_spec, ?Z.shiftl_spec, ?Z.shiftr_spec by (cbn; lia));
    cbn; rewrite ?andb_false_r, ?andb_true_r, ?orb_false_r, ?orb_false_l; reflexivity.
Qed.

Lemma addr_unperm_high_bit (x i : Z) :
  0 <= x < 2 ^ 32 -> 9 <= i -> Z.testbit (addr_unperm x) i = Z.testbit x i.
Proof.
  intros Ha Hi. unfold addr_unperm, shl32, shr32, u32.
  repeat (rewrite ?Z.lor_spec, ?Z.land_spec, ?Z.shiftl_spec, ?Z.shiftr_spec by lia).
  rewrite (testbit_small 1 1), (testbit_small 4 3), (testbit_small 8 4),
    (testbit_small 16 5), (testbit_small 32 6), (testbit_small 64 7),
    (testbit_small 128 8), (testbit_small 256 9) by lia.
  rewrite ?andb_false_r, ?orb_false_r, ?andb_false_l.
  destruct (Z_lt_le_dec i 32) as [Hlt | Hge].
  - assert (Hc : i = 9 \/ i = 10 \/ i = 11 \/ i = 12 \/ i = 13 \/ i = 14 \/ i = 15 \/
                 i = 16 \/ i = 17 \/ i = 18 \/ i = 19 \/ i = 20 \/ i = 21 \/ i = 22 \/
                 i = 23 \/ i = 24 \/ i = 25 \/ i = 26 \/ i = 27 \/ i = 28 \/ i = 29 \/
                 i = 30 \/ i = 31) by lia.
    repeat (destruct Hc as [-> | Hc]); try subst i; cbn; rewrite ?andb_true_r; reflexivity.
  - rewrite (testbit_small x 32) by lia. reflexivity.
Qed.

Lemma perm_src_range (i : Z) : 0 <= i < 9 -> 0 <= perm_src i < 9.
Proof.
  intro Hi.
  assert (Hc : i = 0 \/ i = 1 \/ i = 2 \/ i = 3 \/ i = 4 \/ i = 5 \/ i = 6 \/ i = 7 \/ i = 8)
    by lia.
  repeat (destruct Hc as [-> | Hc]); try subst i; cbn; lia.
Qed.

Lemma perm_src_onto (n : Z) : 0 <= n < 9 -> exists i, 0 <= i < 9 /\ perm_src i = n.
Proof.
  intro Hn.
  assert (Hc : n = 0 \/ n = 1 \/ n = 2 \/ n = 3 \/ n = 4 \/ n = 5 \/ n = 6 \/ n = 7 \/ n = 8)
    by lia.
  destruct Hc as [-> | [-> | [-> | [-> | [-> | [-> | [-> | [-> | ->]]]]]]]];
    [ exists 7 | exists 1 | exists 6 | exists 5 | exists 0 | exists 2 | exists 8
    | exists 4 | exists 3 ]; (split; [lia | reflexivity]).
Qed.

Lemma addr_perm_range (addr : Z) : 0 <= addr < 2 ^ 32 -> 0 <= addr_perm addr < 2 ^ 32.
Proof.
  intro Ha. split; [apply addr_perm_nonneg; lia|].
  apply below_pow2; [apply addr_perm_nonneg; lia | lia |].
  intros j Hj. rewrite addr_perm_high_bit by lia. apply (testbit_small addr 32); lia.
Qed.

Lemma addr_unperm_nonneg (x : Z) : 0 <= x -> 0 <= addr_unperm x.
Proof.
  intro Ha. unfold addr_unperm, shl32, shr32, u32.
  repeat (apply Z.lor_nonneg; split);
    repeat first [ apply Z.shiftr_nonneg
                 | apply Z.land_nonneg; right; lia
                 | apply Z.land_nonneg; left; lia ].
Qed.

Lemma addr_unperm_range (x : Z) : 0 <= x < 2 ^ 32 -> 0 <= addr_unperm x < 2 ^ 32.
Proof.
  intro Ha. split; [apply addr_unperm_nonneg; lia|].
  apply below_pow2; [apply addr_unperm_nonneg; lia | lia |].
  intros j Hj. rewrite addr_unperm_high_bit by lia. apply (testbit_small x 32); lia.
Qed.

Lemma addr_unperm_perm (addr : Z) : 0 <= addr < 2 ^ 32 -> addr_unperm (addr_perm addr) = addr.
Proof.
  intro Ha. pose proof (addr_perm_range addr Ha) as Hp.
  apply Z.bits_inj'. intros n Hn.
  destruct (Z_lt_le_dec n 9) as [Hlow | Hhigh].
  - destruct (perm_src_onto n ltac:(lia)) as (i & Hi & <-).
    rewrite addr_unperm_low_bit, addr_perm_low_bit by lia. reflexivity.
  - rewrite addr_unperm_high_bit, addr_perm_high_bit by lia. reflexivity.
Qed.

Lemma addr_perm_unperm (addr : Z) : 0 <= addr < 2 ^ 32 -> addr_perm (addr_unperm addr) = addr.
Proof.
  intro Ha. pose proof (addr_unperm_range addr Ha) as Hu.
  apply Z.bits_inj'. intros n Hn.
  destruct (Z_lt_le_dec n 9) as [Hlow | Hhigh].
  - rewrite addr_perm_low_bit, addr_unperm_low_bit by lia. reflexivity.
  - rewrite addr_perm_high_bit, addr_unperm_high_bit by lia. reflexivity.
Qed.

Lemma addr_perm_block (addr : Z) (k : Z) :
  0 <= addr < 2 ^ 32 -> 9 <= k -> addr_perm addr / 2 ^ k = addr / 2 ^ k.
Proof.
  intros Ha Hk. rewrite <- !Z.shiftr_div_pow2 by lia.
  apply Z.bits_inj'. intros n Hn.
  rewrite !Z.shiftr_spec by lia. apply addr_perm_high_bit; lia.
Qed.

Lemma addr_unperm_block (addr : Z) (k : Z) :
  0 <= addr < 2 ^ 32 -> 9 <= k -> addr_unperm addr / 2 ^ k = addr / 2 ^ k.
Proof.
  intros Ha Hk. rewrite <- !Z.shiftr_div_pow2 by lia.
  apply Z.bits_inj'. intros n Hn.
  rewrite !Z.shiftr_spec by lia. apply addr_unperm_high_bit; lia.
Qed.

(** X7: [addr_perm] is a permutation of the 32-bit addresses: undoing the
    wiring gives the address back, every 32-bit address is the image of
    one, and an address and its image lie in the same block of 512
    half-words. *)
Theorem addr_perm_bijective (addr : Z) :
  0 <= addr < 2 ^ 32 ->
  addr_unperm (addr_perm addr) = addr /\
  addr_perm (addr_unperm addr) = addr /\
  0 <= addr_unperm addr < 2 ^ 32 /\
  addr_perm addr / 512 = addr / 512.
Proof.
  intro Ha.
  split; [apply addr_unperm_perm, Ha|].
  split; [apply addr_perm_unperm, Ha|].
  split; [apply addr_unperm_range, Ha|].
  apply (addr_perm_block addr 9 Ha). lia.
Qed.

Lemma addr_perm_bijective_witness :
  0 <= 0x2AA < 2 ^ 32 /\
  (addr_unperm (addr_perm 0x2AA) = 0x2AA /\
   addr_perm (addr_unperm 0x2AA) = 0x2AA /\
   0 <= addr_unperm 0x2AA < 2 ^ 32 /\
   addr_perm 0x2AA / 512 = 0x2AA / 512).
Proof.
  split; [lia | apply (addr_perm_bijective 0x2AA); lia].
Defined.

(* ================================================================== *)
(** * The hash: the whole function, one block, and the length field *)

Lemma sha256sum_length (host : byte_order) (inbuffer : list Z) (length : Z) :
  List.length (sha256sum host inbuffer length) = 32%nat.
Proof.
  rewrite sha256sum_big_endian.
  destruct (sha256_internal_range host inbuffer length) as [_ Hl].
  destruct (sha256_internal host inbuffer length)
    as [|a [|b [|c [|d [|e [|f [|g [|h [|]]]]]]]]]; try discriminate Hl.
  reflexivity.
Qed.

(** ** Only the bytes below the length count *)

Lemma full_blocks_firstn (St : Type) (tr : St -> list Z -> St) (n : nat) (st : St)
  (buf : list Z) (len : Z) :
  0 <= len <= Z.of_nat (List.length buf) ->
  exists st' rest rest' len',
    sha256_full_blocks St tr n st buf len = (st', rest, len') /\
    sha256_full_blocks St tr n st (firstn (Z.to_nat len) buf) len = (st', rest', len') /\
    firstn (Z.to_nat len') rest = firstn (Z.to_nat len') rest'.
Proof.
  revert st buf len; induction n as [|n IH]; intros st buf len Hlen.
  - cbn [sha256_full_blocks]. exists st, buf, (firstn (Z.to_nat len) buf), len.
    repeat split. rewrite firstn_firstn, Nat.min_id. reflexivity.
  - cbn [sha256_full_blocks]. destruct (Z.leb_spec 64 len) as [H64 | H64].
    + assert (Hf : firstn 64 (firstn (Z.to_nat len) buf) = firstn 64 buf).
      { rewrite firstn_firstn. f_equal. lia. }
      assert (Hs : skipn 64 (firstn (Z.to_nat len) buf) =
                   firstn (Z.to_nat (len - 64)) (skipn 64 buf)).
      { rewrite skipn_firstn_comm. f_equal. lia. }
      rewrite Hf, Hs. apply IH. rewrite length_skipn. lia.
    + exists st, buf, (firstn (Z.to_nat len) buf), len.
      repeat split. rewrite firstn_firstn, Nat.min_id. reflexivity.
Qed.

Lemma sha256_internal_from_firstn (host : byte_order) (St : Type) (tr : St -> list Z -> St)
  (init : St) (buf : list Z) (len : Z) :
  0 <= len <= Z.of_nat (List.length buf) ->
  sha256_internal_from host St tr init buf len =
  sha256_internal_from host St tr init (firstn (Z.to_nat len) buf) len.
Proof.
  intro Hlen. unfold sha256_internal_from. cbv zeta.
  destruct (full_blocks_firstn St tr (Z.to_nat (len / 64)) init buf len Hlen)
    as (st' & rest & rest' & len' & -> & -> & Hrest).
  rewrite Hrest. reflexivity.
Qed.

(** X8: on either kind of host, [sha256sum] called with a buffer of bytes
    and a length below 2^29 leaves the SHA-256 digest, as the standard
    defines it, of the first [length] bytes of the buffer: 32 bytes that
    do not depend on what the buffer holds from [length] on. *)
Theorem sha256sum_computes_sha256 (host : byte_order) (inbuffer : list Z) (length : Z) :
  0 <= length <= Z.of_nat (List.length inbuffer) -> length < 2 ^ 29 ->
  is_bytes (firstn (Z.to_nat length) inbuffer) = true ->
  sha256sum host inbuffer length = FIPS180.sha256 (firstn (Z.to_nat length) inbuffer) /\
  List.length (sha256sum host inbuffer length) = 32%nat.
Proof.
  intros Hlen Hsmall Hb. split; [|apply sha256sum_length].
  assert (Hl : Z.of_nat (List.length (firstn (Z.to_nat length) inbuffer)) = length).
  { rewrite firstn_length_le by lia. lia. }
  pose proof (sha256sum_refines host (firstn (Z.to_nat length) inbuffer) Hb) as Href.
  rewrite Hl in Href. rewrite <- (Href Hsmall).
  unfold sha256sum, sha256_internal. cbv zeta.
  rewrite (sha256_internal_from_firstn host _ _ _ inbuffer length Hlen). reflexivity.
Qed.

Lemma sha256sum_computes_sha256_witness :
  0 <= 112 <= Z.of_nat (List.length (msg_112 ++ msg_abc)) /\ 112 < 2 ^ 29 /\
  is_bytes (firstn (Z.to_nat 112) (msg_112 ++ msg_abc)) = true /\
  (sha256sum BigEndian (msg_112 ++ msg_abc) 112 =
     FIPS180.sha256 (firstn (Z.to_nat 112) (msg_112 ++ msg_abc)) /\
   List.length (sha256sum BigEndian (msg_112 ++ msg_abc) 112) = 32%nat).
Proof.
  assert (H1 : 0 <= 112 <= Z.of_nat (List.length (msg_112 ++ msg_abc))) by (cbn; lia).
  assert (H2 : 112 < 2 ^ 29) by reflexivity.
  assert (H3 : is_bytes (firstn (Z.to_nat 112) (msg_112 ++ msg_abc)) = true) by reflexivity.
  split; [exact H1 | split; [exact H2 | split; [exact H3|]]].
  apply (sha256sum_computes_sha256 BigEndian (msg_112 ++ msg_abc) 112 H1 H2 H3).
Defined.

(** X9: one call of [sha256_transform], with its sixteen-word window
    updated in place, is the compression function of the standard with its
    64-word message schedule: for every state of eight words and every
    block of 64 bytes, on either kind of host, and the new state is eight
    words below 2^32. *)
Theorem sha256_transform_is_compression (host : byte_order) (state data : list Z) :
  List.length state = 8%nat -> List.length data = 64%nat -> is_bytes data = true ->
  sha256_transform host state data = FIPS180.compress state data /\
  List.length (sha256_transform host state data) = 8%nat /\
  Forall (fun x => 0 <= x < 2 ^ 32) (sha256_transform host state data).
Proof.
  intros Hs Hd Hb. split.
  - apply sha256_transform_compress; [exact Hs | exact Hd | apply is_bytes_Forall, Hb].
  - destruct (sha256_transform_range host state data) as [Hr Hl]. split; assumption.
Qed.

Lemma sha256_transform_is_compression_witness :
  List.length sha256_kinit = 8%nat /\ List.length (msg_56 ++ [1; 2; 3; 4; 5; 6; 7; 8]) = 64%nat /\
  is_bytes (msg_56 ++ [1; 2; 3; 4; 5; 6; 7; 8]) = true /\
  (sha256_transform LittleEndian sha256_kinit (msg_56 ++ [1; 2; 3; 4; 5; 6; 7; 8]) =
     FIPS180.compress sha256_kinit (msg_56 ++ [1; 2; 3; 4; 5; 6; 7; 8]) /\
   List.length (sha256_transform LittleEndian sha256_kinit (msg_56 ++ [1; 2; 3; 4; 5; 6; 7; 8]))
     = 8%nat /\
   Forall (fun x => 0 <= x < 2 ^ 32)
     (sha256_transform LittleEndian sha256_kinit (msg_56 ++ [1; 2; 3; 4; 5; 6; 7; 8]))).
Proof.
  split; [reflexivity | split; [reflexivity | split; [reflexivity|]]].
  apply (sha256_transform_is_compression LittleEndian sha256_kinit
           (msg_56 ++ [1; 2; 3; 4; 5; 6; 7; 8])); reflexivity.
Defined.


(** X11: the length field.  For every buffer and every length that an
    [unsigned] holds, the last block handed to the compression function
    ends with the eight bytes of [8 * length mod 2^32] as a 64-bit
    big-endian number: the bit length is computed in 32 bits before it is
    widened, so from 2^29 bytes on the field is not the bit length. *)
Theorem sha256_length_field (host : byte_order) (inbuffer : list Z) (length : Z) :
  0 <= length < 2 ^ 32 ->
  (exists pre,
     last (sha256_feed host inbuffer length) [] =
     pre ++ FIPS180.be64 ((8 * length) mod 2 ^ 32)) /\
  (length < 2 ^ 29 -> (8 * length) mod 2 ^ 32 = 8 * length) /\
  (2 ^ 29 <= length -> (8 * length) mod 2 ^ 32 <> 8 * length).
Proof.
  intro Hlen. split; [|split].
  - assert (Hbits : sha256_bitlen length = (8 * length) mod 2 ^ 32).
    { unfold sha256_bitlen, shl32. rewrite u32_mod, Z.shiftl_mul_pow2 by lia.
      f_equal. change (2 ^ 3) with 8. lia. }
    assert (Hfield : store64 host (read64be host (sha256_bitlen length)) =
                     FIPS180.be64 ((8 * length) mod 2 ^ 32)).
    { rewrite Hbits. apply store64_read64be.
      pose proof (Z.mod_pos_bound (8 * length) (2 ^ 32) ltac:(lia)).
      change (2 ^ 32) with 4294967296 in *. change (2 ^ 64) with 18446744073709551616. lia. }
    unfold sha256_feed, sha256_internal_from. cbv zeta.
    destruct (sha256_full_blocks (list (list Z)) (fun acc blk => acc ++ [blk]) _ _ _ _)
      as [[st ib] l].
    destruct (56 <=? l); rewrite last_last, Hfield; eexists; reflexivity.
  - intro Hsmall. apply Z.mod_small.
    change (2 ^ 29) with 536870912 in *. change (2 ^ 32) with 4294967296 in *. lia.
  - intros Hbig Heq.
    pose proof (Z.mod_pos_bound (8 * length) (2 ^ 32) ltac:(lia)) as Hm.
    change (2 ^ 29) with 536870912 in *. change (2 ^ 32) with 4294967296 in *. lia.
Qed.

Lemma sha256_length_field_witness :
  0 <= 3 < 2 ^ 32 /\
  ((exists pre,
      last (sha256_feed LittleEndian msg_abc 3) [] =
      pre ++ FIPS180.be64 ((8 * 3) mod 2 ^ 32)) /\
   (3 < 2 ^ 29 -> (8 * 3) mod 2 ^ 32 = 8 * 3) /\
   (2 ^ 29 <= 3 -> (8 * 3) mod 2 ^ 32 <> 8 * 3)).
Proof.
  split; [split; [discriminate | reflexivity]|].
  apply (sha256_length_field LittleEndian msg_abc 3).
  split; [discriminate | reflexivity].
Defined.

(* ================================================================== *)
(** * The SRAM test *)

Lemma u8_u8 (x : Z) : u8 (u8 x) = u8 x.
Proof. unfold u8. rewrite <- Z.land_assoc. reflexivity. Qed.

Lemma u8_range (x : Z) : 0 <= u8 x < 256.
Proof.
  unfold u8. change 0xFF with (Z.ones 8). rewrite Z.land_ones by lia.
  change (2 ^ 8) with 256. apply Z.mod_pos_bound. lia.
Qed.

Section SramFacts.

Context {device : Type} {sram : Sram device}.

Local Open Scope bus_scope.

Lemma wp_sram_wr (i v : Z) (Q : unit -> machine device -> Prop) m :
  Q tt (Machine (exmemcnt m) (sd_mode m) (sram_write (cart m) i (u8 v)) (trace m)) ->
  wp (sram_wr i v) Q m.
Proof. auto. Qed.

Lemma wp_sram_rd (i : Z) (Q : Z -> machine device -> Prop) m :
  Q (u8 (fst (sram_read (cart m) i)))
    (Machine (exmemcnt m) (sd_mode m) (snd (sram_read (cart m) i)) (trace m)) ->
  wp (sram_rd i) Q m.
Proof. unfold wp, sram_rd. destruct (sram_read (cart m) i); auto. Qed.

(** A fill changes nothing but the memory. *)
Lemma wp_sram_fill_any (f : Z -> Z) (n : nat) (i : Z)
  (Q : unit -> machine device -> Prop) m :
  (forall d, Q tt (Machine (exmemcnt m) (sd_mode m) d (trace m))) ->
  wp (sram_fill f n i) Q m.
Proof.
  revert i m; induction n as [|n IH]; intros i m H.
  - destruct m as [e md d t]. apply H.
  - cbn [sram_fill]. apply wp_bind, wp_sram_wr. apply IH. exact H.
Qed.

(** The check changes nothing but the memory, and counts at most one
    error for each byte it reads. *)
Lemma wp_sram_check_any (n : nat) (i r : Z) (Q : Z -> machine device -> Prop) m :
  0 <= r -> r + Z.of_nat n < 2 ^ 32 ->
  (forall r' d, r <= r' <= r + Z.of_nat n ->
     Q r' (Machine (exmemcnt m) (sd_mode m) d (trace m))) ->
  wp (sram_check n i r) Q m.
Proof.
  revert i r m; induction n as [|n IH]; intros i r m Hr Hn H.
  - destruct m as [e md d t]. apply (H r d). lia.
  - cbn [sram_check]. apply wp_bind, wp_sram_rd. cbv zeta.
    assert (Hu : u32 (r + 1) = r + 1).
    { rewrite u32_mod. apply Z.mod_small. change (2 ^ 32) with 4294967296 in *. lia. }
    destruct (negb _).
    + rewrite Hu. apply IH; [lia | lia |]. intros r' d Hr'. apply H. lia.
    + apply IH; [lia | lia |]. intros r' d Hr'. apply H. lia.
Qed.

Section Memory.

(** [content d i] is the byte the memory in state [d] gives at index
    [i]; [cell] is how it decodes an index, and [keep] what it retains
    of a byte written. *)
Variable content : device -> Z -> Z.
Variable cell : Z -> Z.
Variable keep : Z -> Z.

Hypothesis read_law : forall d i,
  fst (sram_read d i) = content d i /\
  forall j, content (snd (sram_read d i)) j = content d j.

Hypothesis write_law : forall d i v j,
  content (sram_write d i v) j = if cell j =? cell i then keep v else content d j.

Hypothesis pattern_cells : forall i j,
  0 <= i < 65536 -> 0 <= j < 65536 -> cell i = cell j ->
  u8 (sram_pattern i) = u8 (sram_pattern j).

Hypothesis pattern_kept : forall i,
  0 <= i < 65536 -> keep (u8 (sram_pattern i)) = u8 (sram_pattern i).

Lemma wp_sram_fill_pattern (n : nat) (i : Z) (Q : unit -> machine device -> Prop) m :
  0 <= i -> i + Z.of_nat n <= 65536 -> filled content cell i (cart m) ->
  (forall d, filled content cell (i + Z.of_nat n) d ->
     Q tt (Machine (exmemcnt m) (sd_mode m) d (trace m))) ->
  wp (sram_fill sram_pattern n i) Q m.
Proof.
  revert i m; induction n as [|n IH]; intros i m Hi Hn Hf H.
  - destruct m as [e md d t]. apply H. rewrite Z.add_0_r. exact Hf.
  - cbn [sram_fill]. apply wp_bind, wp_sram_wr. apply IH; cbn [cart exmemcnt sd_mode trace].
    + lia.
    + lia.
    + intros b Hb (j & Hj & Hc). rewrite write_law.
      destruct (Z.eqb_spec (cell b) (cell i)) as [Heq | Hne].
      * rewrite pattern_kept by lia. apply pattern_cells; [lia | lia | congruence].
      * apply Hf; [exact Hb|]. exists j. split; [|exact Hc].
        assert (j <> i) by (intros ->; apply Hne; congruence). lia.
    + intros d Hd. apply H.
      replace (i + Z.of_nat (S n)) with (i + 1 + Z.of_nat n) by lia. exact Hd.
Qed.

Lemma wp_sram_check_clean (n : nat) (i r : Z) (Q : Z -> machine device -> Prop) m :
  0 <= i -> i + Z.of_nat n <= 65536 -> filled content cell 65536 (cart m) ->
  (forall d, Q r (Machine (exmemcnt m) (sd_mode m) d (trace m))) ->
  wp (sram_check n i r) Q m.
Proof.
  revert i m; induction n as [|n IH]; intros i m Hi Hn Hf H.
  - destruct m as [e md d t]. apply H.
  - cbn [sram_check]. apply wp_bind, wp_sram_rd. cbv zeta.
    destruct (read_law (cart m) i) as [Hv Hsame].
    assert (Hc : content (cart m) i = u8 (sram_pattern i)).
    { apply Hf; [lia|]. exists i. split; [lia | reflexivity]. }
    rewrite Hv, Hc, u8_u8. change (Z.land (sram_pattern i) 0xFF) with (u8 (sram_pattern i)).
    rewrite Z.eqb_refl. cbn [negb].
    apply IH; cbn [cart exmemcnt sd_mode trace]; [lia | lia | | exact H].
    intros b Hb Hex. rewrite Hsame. apply Hf; assumption.
Qed.

(** On such a memory the test finds no error. *)
Lemma test_sram_clean (m : machine device) : fst (test_sram m) = 0.
Proof.
  change (wp test_sram (fun r _ => r = 0) m).
  unfold test_sram. repeat bus_step.
  apply wp_sram_fill_any. intro d0. bus_step.
  apply wp_sram_fill_pattern; cbn [cart exmemcnt sd_mode trace].
  - lia.
  - change (Z.of_nat SRAM_BYTES) with 65536. lia.
  - intros b Hb (j & Hj & _). lia.
  - intros d1 Hd1. bus_step.
    apply wp_sram_check_clean; cbn [cart exmemcnt sd_mode trace].
    + lia.
    + change (Z.of_nat SRAM_BYTES) with 65536. lia.
    + exact Hd1.
    + intro d2. repeat bus_step. reflexivity.
Qed.

End Memory.

End SramFacts.

(** ** The pattern *)

Lemma u8_lxor (a b : Z) : u8 (Z.lxor a b) = Z.lxor (u8 a) (u8 b).
Proof.
  unfold u8. apply Z.bits_inj'. intros n Hn.
  rewrite Z.lxor_spec, !Z.land_spec, Z.lxor_spec.
  destruct (Z.testbit a n), (Z.testbit b n), (Z.testbit 0xFF n); reflexivity.
Qed.

Lemma u8_u32 (x : Z) : u8 (u32 x) = u8 x.
Proof. unfold u8, u32. rewrite <- Z.land_assoc. reflexivity. Qed.

Lemma u8_mod (x : Z) : u8 x = x mod 256.
Proof. unfold u8. change 0xFF with (Z.ones 8). rewrite Z.land_ones by lia. reflexivity. Qed.

(** The byte of the pattern at [i] depends on the low eight bits of [i]
    only. *)
Lemma sram_pattern_low_bits (i j : Z) :
  u8 i = u8 j -> u8 (sram_pattern i) = u8 (sram_pattern j).
Proof.
  intro H. unfold sram_pattern. rewrite !u8_lxor, !u8_u32, H. do 2 f_equal.
  rewrite !u8_mod in *. rewrite (Z.mul_mod i i), (Z.mul_mod j j), H by lia. reflexivity.
Qed.

(** Bit 0 of the pattern is never set. *)
Lemma sram_pattern_even (i : Z) : Z.testbit (sram_pattern i) 0 = false.
Proof.
  unfold sram_pattern. rewrite !Z.lxor_spec, u32_mod.
  rewrite <- (Z.land_ones (i * i) 32) by lia. rewrite Z.land_spec.
  rewrite !Z.bit0_odd, Z.odd_mul. change (Z.odd (Z.ones 32)) with true.
  change (Z.odd 0x5A) with false. destruct (Z.odd i); reflexivity.
Qed.

Lemma u8_clear_bit0 (x : Z) : Z.testbit x 0 = false -> Z.land (u8 x) 0xFE = u8 x.
Proof.
  intro H0. unfold u8. rewrite <- Z.land_assoc. apply Z.bits_inj'. intros n Hn.
  rewrite !Z.land_spec. destruct (Z.eq_dec n 0) as [-> | Hne].
  - rewrite H0. reflexivity.
  - f_equal. change (Z.land 0xFF 0xFE) with 0xFE.
    destruct (Z_lt_le_dec n 8) as [Hlt | Hge].
    + assert (Hc : n = 1 \/ n = 2 \/ n = 3 \/ n = 4 \/ n = 5 \/ n = 6 \/ n = 7) by lia.
      repeat (destruct Hc as [-> | Hc]); try subst n; reflexivity.
    + rewrite (testbit_small 0xFE 8), (testbit_small 0xFF 8) by lia. reflexivity.
Qed.

Section SramResults.

Context {device : Type} {sram : Sram device}.

Local Open Scope bus_scope.

(** X12: on a memory that gives back at every index the byte last
    written there, [test_sram] reports no error. *)
Theorem test_sram_passes_on_good_memory (content : device -> Z -> Z) (m : machine device) :
  (forall d i, fst (sram_read d i) = content d i /\
               forall j, content (snd (sram_read d i)) j = content d j) ->
  (forall d i v j, content (sram_write d i v) j = if j =? i then v else content d j) ->
  fst (test_sram m) = 0.
Proof.
  intros Hread Hwrite.
  apply (test_sram_clean content (fun i => i) (fun v => v)).
  - exact Hread.
  - exact Hwrite.
  - intros i j _ _ ->. reflexivity.
  - reflexivity.
Qed.

(** X14: whatever the memory does, [test_sram] reports between 0 and
    65536 errors, leaves the mapping mode and the log of flash accesses
    alone, and leaves [REG_EXMEMCNT] as found with its two low bits set
    (the slow timing is not taken back). *)
Theorem test_sram_leaves (m : machine device) :
  let '(numerrs, m') := test_sram m in
  0 <= numerrs <= 65536 /\
  exmemcnt m' = Z.lor (exmemcnt m) 0x3 /\
  sd_mode m' = sd_mode m /\
  trace m' = trace m.
Proof.
  apply wp_let. unfold test_sram. repeat bus_step.
  apply wp_sram_fill_any. intro d0. bus_step.
  apply wp_sram_fill_any. intro d1. bus_step.
  apply wp_sram_check_any; [lia | reflexivity |]. intros r d2 Hr.
  change (Z.of_nat SRAM_BYTES) with 65536 in Hr.
  repeat bus_step. repeat split; try lia.
  apply give_back_owner. reflexivity.
Qed.

(** X15: a memory that answers every read with the same byte never
    passes: the pattern bytes at indices 0 and 2 differ, so at least one
    error is counted. *)
Theorem test_sram_fails_on_stuck_memory (c : Z) (m : machine device) :
  (forall d i, fst (sram_read d i) = c) -> 1 <= fst (test_sram m).
Proof.
  intro Hstuck.
  change (wp test_sram (fun r _ => 1 <= r) m).
  unfold test_sram. repeat bus_step.
  apply wp_sram_fill_any. intro d0. bus_step.
  apply wp_sram_fill_any. intro d1. bus_step.
  change SRAM_BYTES with (3 + Z.to_nat 65533)%nat. cbn [Nat.add sram_check].
  apply wp_bind, wp_sram_rd. cbv zeta. rewrite Hstuck.
  apply wp_bind, wp_sram_rd. cbv zeta. rewrite Hstuck.
  apply wp_bind, wp_sram_rd. cbv zeta. rewrite Hstuck.
  change (Z.land (sram_pattern 0) 0xFF) with 0x5A.
  change (Z.land (sram_pattern (0 + 1)) 0xFF) with 0x5A.
  change (Z.land (sram_pattern (0 + 1 + 1)) 0xFF) with 0x5C.
  destruct (Z.eqb_spec (u8 c) 0x5A) as [-> | Hne]; cbn [negb].
  - change (0x5A =? 0x5C) with false. cbn [negb]. change (u32 (0 + 1)) with 1.
    apply wp_sram_check_any; [lia | reflexivity |]. intros r d2 Hr.
    repeat bus_step. lia.
  - change (u32 (0 + 1)) with 1. change (u32 (1 + 1)) with 2.
    destruct (negb (u8 c =? 0x5C)).
    + change (u32 (2 + 1)) with 3.
      apply wp_sram_check_any; [lia | reflexivity |]. intros r d2 Hr.
      repeat bus_step. lia.
    + apply wp_sram_check_any; [lia | reflexivity |]. intros r d2 Hr.
      repeat bus_step. lia.
Qed.

End SramResults.

(** X13: the test has blind spots.  On [small_sram], a memory of 256
    bytes that ignores the address lines 8 to 15 and cannot hold bit 0,
    [test_sram] reports no error, whatever the memory held before: the
    pattern byte depends on the low eight bits of the index only, and its
    bit 0 is never set. *)
Theorem test_sram_passes_on_small_memory (e md : Z) (cells : Z -> Z) (t : list event) :
  fst (test_sram (Machine e md (SmallMemory cells) t)) = 0.
Proof.
  apply (test_sram_clean
           (fun d j => let 'SmallMemory c := d in c (small_sram_cell j))
           small_sram_cell (fun v => Z.land v 0xFE)).
  - intros [c] i. split; [reflexivity | intro j; reflexivity].
  - intros [c] i v j. reflexivity.
  - intros i j _ _ H. apply sram_pattern_low_bits. exact H.
  - intros i _. apply u8_clear_bit0, sram_pattern_even.
Qed.

Lemma test_sram_passes_on_good_memory_witness :
  (forall (d : Z -> Z) i, fst (sram_read d i) = d i /\
                          forall j, snd (sram_read d i) j = d j) /\
  (forall (d : Z -> Z) i v j, sram_write d i v j = if j =? i then v else d j) /\
  fst (test_sram (Machine 0 0 (fun _ : Z => 0xFF) [])) = 0.
Proof.
  split; [intros d i; split; [reflexivity | intro j; reflexivity]|].
  split; [intros d i v j; reflexivity|].
  apply (test_sram_passes_on_good_memory (fun (d : Z -> Z) j => d j)).
  - intros d i. split; [reflexivity | intro j; reflexivity].
  - intros d i v j. reflexivity.
Defined.

Lemma test_sram_fails_on_stuck_memory_witness :
  (forall (d : unit) (i : Z), fst (sram_read d i) = 0xFF) /\
  1 <= fst (test_sram (Machine 0 0 tt [])).
Proof.
  split; [intros d i; reflexivity|].
  apply (test_sram_fails_on_stuck_memory 0xFF). intros d i. reflexivity.
Defined.

(* ================================================================== *)
(** * The header check and the identification of the firmware *)

Lemma memcmp_eq_spec (a b : list Z) (n : nat) :
  (n <= List.length a)%nat -> (n <= List.length b)%nat ->
  (memcmp_eq a b n = true <-> firstn n a = firstn n b).
Proof.
  revert a b; induction n as [|n IH]; intros a b Ha Hb.
  - destruct a, b; split; reflexivity.
  - destruct a as [|x a]; [simpl in Ha; lia|]. destruct b as [|y b]; [simpl in Hb; lia|].
    simpl in Ha, Hb. cbn [memcmp_eq firstn].
    rewrite andb_true_iff, Z.eqb_eq, (IH a b) by lia. split.
    + intros [-> ->]. reflexivity.
    + intro H. injection H as -> ->. split; reflexivity.
Qed.

Lemma header_checksum_sum (n : nat) (i : Z) (fw : Z -> Z) (c : Z) :
  0 <= c < 256 ->
  header_checksum n i fw c = (c + sum_at fw i n) mod 256.
Proof.
  revert i c; induction n as [|n IH]; intros i c Hc.
  - cbn [header_checksum sum_at]. rewrite Z.add_0_r, Z.mod_small by lia. reflexivity.
  - cbn [header_checksum sum_at]. rewrite IH by apply u8_range.
    rewrite u8_mod, Zplus_mod_idemp_l. f_equal. lia.
Qed.

Lemma bytes_at_ext (fw fw' : Z -> Z) (o : Z) (n : nat) :
  (forall k, o <= k < o + Z.of_nat n -> fw k = fw' k) -> bytes_at fw o n = bytes_at fw' o n.
Proof.
  intro H. unfold bytes_at. apply map_ext_in. intros k Hk. apply in_seq in Hk.
  apply H. lia.
Qed.

Lemma header_checksum_ext (fw fw' : Z -> Z) (n : nat) (i c : Z) :
  (forall k, i <= k < i + Z.of_nat n -> fw k = fw' k) ->
  header_checksum n i fw c = header_checksum n i fw' c.
Proof.
  revert i c; induction n as [|n IH]; intros i c H; [reflexivity|].
  cbn [header_checksum]. rewrite (H i) by lia. apply IH. intros k Hk. apply H. lia.
Qed.

Lemma bytes_at_bytes (fw : Z -> Z) (o : Z) (n : nat) :
  (forall k, o <= k < o + Z.of_nat n -> 0 <= fw k < 256) -> is_bytes (bytes_at fw o n) = true.
Proof.
  intro H. apply is_bytes_Forall. unfold bytes_at. apply Forall_forall.
  intros x Hx. apply in_map_iff in Hx. destruct Hx as (k & <- & Hk). apply in_seq in Hk.
  change (2 ^ 8) with 256. apply H. lia.
Qed.

Lemma length_bytes_at (fw : Z -> Z) (o : Z) (n : nat) : List.length (bytes_at fw o n) = n.
Proof. unfold bytes_at. rewrite length_map, length_seq. reflexivity. Qed.

(** X16: for a header of bytes, [valid_header] answers true exactly when
    the first 16 bytes of the SHA-256 digest of the 156 bytes at offsets 4
    to 159 are [logo_hash] and the bytes at offsets [0xA0] to [0xBD]
    together with [0x19] sum to zero modulo 256. *)
Theorem valid_header_decides (host : byte_order) (fw : Z -> Z) :
  (forall o, 4 <= o < 190 -> 0 <= fw o < 256) ->
  (valid_header host fw = true <->
   firstn 16 (FIPS180.sha256 (bytes_at fw 4 156)) = logo_hash /\
   (0x19 + sum_at fw 0xA0 30) mod 256 = 0).
Proof.
  intro Hb. unfold valid_header. cbv zeta.
  assert (Hhash : sha256sum host (bytes_at fw 4 156) 156 = FIPS180.sha256 (bytes_at fw 4 156)).
  { pose proof (sha256sum_refines host (bytes_at fw 4 156)) as H.
    rewrite length_bytes_at in H. apply H; [|reflexivity].
    apply bytes_at_bytes. intros k Hk. apply Hb. lia. }
  rewrite Hhash, andb_true_iff.
  assert (Hl : List.length (FIPS180.sha256 (bytes_at fw 4 156)) = 32%nat).
  { rewrite <- Hhash. apply sha256sum_length. }
  rewrite memcmp_eq_spec by (rewrite ?Hl; cbn; lia).
  change (firstn 16 logo_hash) with logo_hash.
  rewrite header_checksum_sum by lia.
  change (Z.to_nat (0xBD - 0xA0)) with 29%nat.
  assert (Hsum : sum_at fw 0xA0 30 = sum_at fw 0xA0 29 + fw 0xBD).
  { cbn [sum_at]. cbn. lia. }
  rewrite Hsum, u8_mod, Z.eqb_eq.
  pose proof (Hb 0xBD ltac:(lia)) as Hlast.
  split; intros [H1 H2]; (split; [exact H1|]).
  - rewrite <- H2. Z.div_mod_to_equations. lia.
  - Z.div_mod_to_equations. lia.
Qed.

Lemma valid_header_decides_witness :
  (forall o, 4 <= o < 190 -> 0 <= zero_header o < 256) /\
  (valid_header LittleEndian zero_header = true <->
   firstn 16 (FIPS180.sha256 (bytes_at zero_header 4 156)) = logo_hash /\
   (0x19 + sum_at zero_header 0xA0 30) mod 256 = 0).
Proof.
  split; [intros o Ho; unfold zero_header; lia|].
  apply (valid_header_decides LittleEndian zero_header).
  intros o Ho. unfold zero_header. lia.
Defined.



(** ** The table of known images *)

Lemma firmware_ident_loop_first (hash : list Z) (images : list (string * list Z)) :
  match firmware_ident_loop hash images with
  | Some name =>
      exists before sha256 after,
        images = before ++ (name, sha256) :: after /\
        memcmp_eq hash sha256 16 = true /\
        Forall (fun entry => memcmp_eq hash (snd entry) 16 = false) before
  | None => Forall (fun entry => memcmp_eq hash (snd entry) 16 = false) images
  end.
Proof.
  induction images as [|[fw_name sha256] rest IH]; cbn [firmware_ident_loop].
  - constructor.
  - destruct (memcmp_eq hash sha256 16) eqn:Hm.
    + exists [], sha256, rest. repeat split; [exact Hm | constructor].
    + destruct (firmware_ident_loop hash rest) as [name|].
      * destruct IH as (before & s & after & -> & Hs & Hbefore).
        exists ((fw_name, sha256) :: before), s, after.
        repeat split; [exact Hs | constructor; [exact Hm | exact Hbefore]].
      * constructor; [exact Hm | exact IH].
Qed.

(** X18: [firmware_ident] hashes the 512 KiB image with SHA-256 and gives
    the name of the first entry of [known_images], in table order, whose
    16 bytes are the first 16 bytes of the digest; it gives [NULL] exactly
    when no entry has them. *)
Theorem firmware_ident_first_match (host : byte_order) (flash : list Z) :
  is_bytes flash = true -> Z.of_nat (List.length flash) = 512 * 1024 ->
  let digest := FIPS180.sha256 flash in
  match firmware_ident host flash with
  | Some name =>
      exists before sha256 after,
        known_images = before ++ (name, sha256) :: after /\
        firstn 16 digest = sha256 /\
        Forall (fun entry => firstn 16 digest <> snd entry) before
  | None => Forall (fun entry => firstn 16 digest <> snd entry) known_images
  end.
Proof.
  intros Hb Hlen digest. unfold firmware_ident. cbv zeta.
  assert (Hhash : sha256sum host flash (512 * 1024) = digest).
  { pose proof (sha256sum_refines host flash Hb) as H. rewrite Hlen in H.
    apply H. reflexivity. }
  rewrite Hhash.
  assert (Hl : List.length digest = 32%nat) by (rewrite <- Hhash; apply sha256sum_length).
  assert (Hspec : forall entry, In entry known_images ->
            (memcmp_eq digest (snd entry) 16 = true <-> firstn 16 digest = snd entry)).
  { intros entry Hin. rewrite memcmp_eq_spec.
    - cbn [In known_images] in Hin.
      destruct Hin as [<- | [<- | [<- | []]]]; reflexivity.
    - rewrite Hl. lia.
    - cbn [In known_images] in Hin.
      destruct Hin as [<- | [<- | [<- | []]]]; cbn; lia. }
  pose proof (firmware_ident_loop_first digest known_images) as Hfirst.
  destruct (firmware_ident_loop digest known_images) as [name|].
  - destruct Hfirst as (before & s & after & Heq & Hs & Hbefore).
    exists before, s, after. split; [exact Heq|]. split.
    + apply (Hspec (name, s)); [|exact Hs]. rewrite Heq. apply in_elt.
    + apply Forall_forall. intros entry Hin Hmatch.
      rewrite Forall_forall in Hbefore. specialize (Hbefore entry Hin).
      assert (Hk : In entry known_images) by (rewrite Heq; apply in_or_app; left; exact Hin).
      apply (Hspec entry Hk) in Hmatch. congruence.
  - apply Forall_forall. intros entry Hin Hmatch.
    rewrite Forall_forall in Hfirst. specialize (Hfirst entry Hin).
    apply (Hspec entry Hin) in Hmatch. congruence.
Qed.

Lemma firmware_ident_first_match_witness :
  is_bytes zeroed_flash = true /\ Z.of_nat (List.length zeroed_flash) = 512 * 1024 /\
  (let digest := FIPS180.sha256 zeroed_flash in
   match firmware_ident LittleEndian zeroed_flash return Prop with
   | Some name =>
       exists before sha256 after,
         known_images = before ++ (name, sha256) :: after /\
         firstn 16 digest = sha256 /\
         Forall (fun entry => firstn 16 digest <> snd entry) before
   | None => Forall (fun entry => firstn 16 digest <> snd entry) known_images
   end).
Proof.
  assert (Hb : is_bytes zeroed_flash = true) by (vm_compute; reflexivity).
  assert (Hl : Z.of_nat (List.length zeroed_flash) = 512 * 1024).
  { unfold zeroed_flash. rewrite repeat_length. apply Z2Nat.id. discriminate. }
  split; [exact Hb | split; [exact Hl|]].
  apply (firmware_ident_first_match LittleEndian zeroed_flash Hb Hl).
Defined.

(* ================================================================== *)
(** * The directory listing and the menus *)

Lemma firstn_succ_nth {A : Type} (l : list A) (n : nat) (x : A) :
  nth_error l n = Some x -> firstn (S n) l = firstn n l ++ [x].
Proof.
  revert l; induction n as [|n IH]; intros [|y l] H; try discriminate H.
  - injection H as ->. reflexivity.
  - cbn [firstn app]. cbn [nth_error] in H. rewrite <- IH by exact H. reflexivity.
Qed.

Lemma store_entry_some (ret : list t_fs_entry) (i : nat) (e : t_fs_entry) :
  (i < List.length ret)%nat ->
  exists ret', store_entry ret i e = Some ret' /\
    List.length ret' = List.length ret /\
    firstn i ret' = firstn i ret /\
    nth_error ret' i = Some e.
Proof.
  intro Hi. unfold store_entry.
  replace (i <? List.length ret)%nat with true by (symmetry; apply Nat.ltb_lt; exact Hi).
  eexists. split; [reflexivity|].
  assert (Hl : List.length (firstn i ret) = i) by (apply firstn_length_le; lia).
  split; [|split].
  - rewrite length_app, Hl. cbn [List.length]. rewrite length_skipn. lia.
  - rewrite firstn_app, Hl, Nat.sub_diag, firstn_O, app_nil_r.
    apply firstn_all2. lia.
  - rewrite nth_error_app2 by lia. rewrite Hl, Nat.sub_diag. reflexivity.
Qed.

Lemma clear_name_some (ret : list t_fs_entry) (i : nat) :
  (i < List.length ret)%nat ->
  exists ret', clear_name ret i = Some ret' /\
    List.length ret' = List.length ret /\
    firstn i ret' = firstn i ret /\
    terminated ret' i.
Proof.
  intro Hi. unfold clear_name.
  destruct (nth_error ret i) as [e|] eqn:He;
    [|apply nth_error_None in He; lia].
  destruct (store_entry_some ret i (FsEntry EmptyString (isdir e)) Hi)
    as (ret' & -> & Hl & Hf & Hn).
  exists ret'. repeat split; auto. eexists. split; [exact Hn | reflexivity].
Qed.

Section ListdirFacts.

Variable heap : nat -> t_fs_entry.
Variable qsort : (t_fs_entry -> t_fs_entry -> Z) -> list t_fs_entry -> list t_fs_entry.

Lemma length_realloc_entries (ret : list t_fs_entry) (cap : nat) :
  (List.length ret <= cap)%nat -> List.length (realloc_entries heap ret cap) = cap.
Proof.
  intro H. unfold realloc_entries.
  rewrite length_app, length_map, length_seq, firstn_all2 by lia. lia.
Qed.

Lemma firstn_realloc_entries (ret : list t_fs_entry) (cap n : nat) :
  (n <= List.length ret)%nat -> (List.length ret <= cap)%nat ->
  firstn n (realloc_entries heap ret cap) = firstn n ret.
Proof.
  intros Hn H. unfold realloc_entries.
  rewrite (firstn_all2 (n := cap)) by lia.
  rewrite firstn_app. replace (n - List.length ret)%nat with O by lia.
  rewrite firstn_O, app_nil_r. reflexivity.
Qed.

(** The loop keeps the count below the capacity, which is the length of
    the array, and appends the entries kept. *)
Lemma listdir_loop_safe (reads : list dirent) (cap nument : nat) (ret : list t_fs_entry) :
  List.length ret = cap -> (nument < cap)%nat -> terminated ret nument ->
  exists cap' ret',
    listdir_loop heap reads cap nument ret =
      Some (cap', (nument + List.length (kept_entries reads))%nat, ret') /\
    List.length ret' = cap' /\
    (nument + List.length (kept_entries reads) < cap')%nat /\
    terminated ret' (nument + List.length (kept_entries reads)) /\
    firstn (nument + List.length (kept_entries reads)) ret' =
      firstn nument ret ++ kept_entries reads.
Proof.
  revert cap nument ret; induction reads as [|cur rest IH]; intros cap nument ret Hl Hn Ht.
  - cbn [listdir_loop kept_entries List.length]. rewrite Nat.add_0_r, app_nil_r.
    exists cap, ret. auto.
  - cbn [listdir_loop kept_entries].
    destruct (String.eqb (d_name cur) EmptyString).
    { cbn [List.length]. rewrite Nat.add_0_r, app_nil_r. exists cap, ret. auto. }
    destruct (String.eqb (d_name cur) "."%string); [apply IH; assumption|].
    cbv zeta. set (entry := FsEntry _ (d_type cur =? DT_DIR)).
    destruct (store_entry_some ret nument entry ltac:(lia)) as (ret1 & -> & Hl1 & Hf1 & Hn1).
    set (grown := if (cap <=? S nument)%nat
                  then ((cap + 8)%nat, realloc_entries heap ret1 (cap + 8))
                  else (cap, ret1)).
    assert (Hg : List.length (snd grown) = fst grown /\ (S nument < fst grown)%nat /\
                 firstn (S nument) (snd grown) = firstn (S nument) ret1).
    { unfold grown. destruct (Nat.leb_spec cap (S nument)); cbn [fst snd].
      - rewrite length_realloc_entries, firstn_realloc_entries by lia.
        repeat split; lia.
      - repeat split; lia. }
    destruct grown as [cap2 ret2]. cbn [fst snd] in Hg. destruct Hg as (Hl2 & Hn2 & Hf2).
    destruct (clear_name_some ret2 (S nument) ltac:(lia)) as (ret3 & -> & Hl3 & Hf3 & Ht3).
    destruct (IH cap2 (S nument) ret3 ltac:(lia) Hn2 Ht3)
      as (cap' & ret' & Hrun & Hl' & Hn' & Ht' & Hf').
    cbn [List.length]. rewrite <- Nat.add_succ_comm.
    exists cap', ret'. repeat split; auto.
    rewrite Hf', Hf3, Hf2.
    rewrite (firstn_succ_nth ret1 nument entry Hn1), Hf1, <- app_assoc. reflexivity.
Qed.

End ListdirFacts.

Lemma kept_entries_named (reads : list dirent) :
  Forall (fun e => fn e <> EmptyString) (kept_entries reads).
Proof.
  induction reads as [|cur rest IH]; cbn [kept_entries]; [constructor|].
  destruct (String.eqb_spec (d_name cur) EmptyString) as [He | Hne]; [constructor|].
  destruct (String.eqb (d_name cur) "."%string); [exact IH|].
  cbv zeta. constructor; [|exact IH]. cbn [fn].
  destruct (d_type cur =? DT_DIR); [|exact Hne].
  destruct (d_name cur) as [|c s]; [contradiction | discriminate].
Qed.

Lemma insert_entry_perm (cmp : t_fs_entry -> t_fs_entry -> Z) (e : t_fs_entry)
  (l : list t_fs_entry) : Permutation (e :: l) (insert_entry cmp e l).
Proof.
  induction l as [|x l IH]; cbn [insert_entry]; [apply Permutation_refl|].
  destruct (cmp e x <? 0); [apply Permutation_refl|].
  apply perm_trans with (x :: e :: l); [apply perm_swap | apply perm_skip, IH].
Qed.

Lemma insertion_sort_perm (cmp : t_fs_entry -> t_fs_entry -> Z) (l : list t_fs_entry) :
  Permutation l (insertion_sort cmp l).
Proof.
  induction l as [|x l IH]; [apply perm_nil|].
  cbn [insertion_sort fold_right]. fold (insertion_sort cmp l).
  apply perm_trans with (x :: insertion_sort cmp l);
    [apply perm_skip, IH | apply insert_entry_perm].
Qed.

(** X19: [listdir] never writes outside the array it has allocated (given
    that the allocations succeed), whatever [readdir] returns and whatever
    the fresh memory holds: the count stays below the capacity all along.
    The number it reports is the number of entries kept: those before the
    first empty name, without ".". *)
Theorem listdir_stays_in_bounds (heap : nat -> t_fs_entry)
  (qsort : (t_fs_entry -> t_fs_entry -> Z) -> list t_fs_entry -> list t_fs_entry)
  (reads : list dirent) :
  exists ret, listdir heap qsort reads = Some (ret, List.length (kept_entries reads)).
Proof.
  unfold listdir. cbv zeta.
  destruct (clear_name_some (malloc_entries heap 8) 0) as (ret0 & -> & Hl0 & _ & Ht0).
  { unfold malloc_entries. rewrite length_map, length_seq. lia. }
  assert (Hl : List.length ret0 = 8%nat).
  { rewrite Hl0. unfold malloc_entries. rewrite length_map, length_seq. reflexivity. }
  destruct (listdir_loop_safe heap reads 8 0 ret0 Hl ltac:(lia) Ht0)
    as (cap' & ret' & -> & _).
  cbn [Nat.add]. eexists. reflexivity.
Qed.

(** X20: with a [qsort] that permutes what it is given, the array
    [listdir] returns holds the entries kept, in some order, in its first
    [nument] places, each with a name that is not empty and directories
    with a slash after theirs; it is longer than [nument], and the entry
    at index [nument] has the empty name that ends the list. *)
Theorem listdir_result (heap : nat -> t_fs_entry)
  (qsort : (t_fs_entry -> t_fs_entry -> Z) -> list t_fs_entry -> list t_fs_entry)
  (reads : list dirent) :
  (forall l, Permutation l (qsort fncomp l)) ->
  exists ret nument,
    listdir heap qsort reads = Some (ret, nument) /\
    Permutation (kept_entries reads) (firstn nument ret) /\
    Forall (fun e => fn e <> EmptyString) (firstn nument ret) /\
    (nument < List.length ret)%nat /\
    terminated ret nument.
Proof.
  intro Hsort. unfold listdir. cbv zeta.
  destruct (clear_name_some (malloc_entries heap 8) 0) as (ret0 & -> & Hl0 & _ & Ht0).
  { unfold malloc_entries. rewrite length_map, length_seq. lia. }
  assert (Hl : List.length ret0 = 8%nat).
  { rewrite Hl0. unfold malloc_entries. rewrite length_map, length_seq. reflexivity. }
  destruct (listdir_loop_safe heap reads 8 0 ret0 Hl ltac:(lia) Ht0)
    as (cap' & ret' & -> & Hl' & Hn' & Ht' & Hf').
  cbn [Nat.add firstn app] in *.
  set (n := List.length (kept_entries reads)) in *.
  pose proof (Hsort (firstn n ret')) as Hp.
  assert (Hlen : List.length (qsort fncomp (firstn n ret')) = n).
  { rewrite <- (Permutation_length Hp). apply firstn_length_le. lia. }
  assert (Hfirst : firstn n (qsort fncomp (firstn n ret') ++ skipn n ret') =
                   qsort fncomp (firstn n ret')).
  { rewrite firstn_app, Hlen, Nat.sub_diag, firstn_O, app_nil_r.
    apply firstn_all2. lia. }
  eexists _, n. split; [reflexivity|]. rewrite Hfirst. split; [|split; [|split]].
  - rewrite <- Hf'. exact Hp.
  - apply (Permutation_Forall Hp). rewrite Hf'. apply kept_entries_named.
  - rewrite length_app, Hlen, length_skipn. lia.
  - destruct Ht' as (e & He & Hname). exists e. split; [|exact Hname].
    rewrite nth_error_app2 by lia. rewrite Hlen, Nat.sub_diag.
    rewrite <- He. rewrite <- (firstn_skipn n ret') at 2.
    rewrite nth_error_app2 by (rewrite firstn_length_le; lia).
    rewrite firstn_length_le, Nat.sub_diag by lia. reflexivity.
Qed.

Lemma listdir_result_witness :
  (forall l, Permutation l (insertion_sort fncomp l)) /\
  exists ret nument,
    listdir (fun _ => FsEntry "?" true) insertion_sort sample_dir = Some (ret, nument) /\
    Permutation (kept_entries sample_dir) (firstn nument ret) /\
    Forall (fun e => fn e <> EmptyString) (firstn nument ret) /\
    (nument < List.length ret)%nat /\
    terminated ret nument.
Proof.
  split; [apply insertion_sort_perm|].
  apply (listdir_result (fun _ => FsEntry "?" true) insertion_sort sample_dir).
  apply insertion_sort_perm.
Defined.

(** What [listdir] makes of [sample_dir]: ten entries in the order of
    [strcmp], in an array that has been grown to sixteen. *)
Lemma listdir_sample :
  option_map (fun r => (map fn (firstn (snd r) (fst r)), snd r, List.length (fst r)))
    (listdir (fun _ => FsEntry "?" true) insertion_sort sample_dir) =
  Some ([ "../"; "a.bin"; "b.bin"; "c.bin"; "d.bin"; "e.bin"; "f.bin"; "g.bin";
          "roms/"; "superfw.gba" ]%string, 10%nat, 16%nat).
Proof. vm_compute. reflexivity. Qed.

(** ** The cursor of the file browser *)

Lemma u32_small (x : Z) : 0 <= x < 2 ^ 32 -> u32 x = x.
Proof. intro H. rewrite u32_mod. apply Z.mod_small. exact H. Qed.

Lemma s32_small (x : Z) : 0 <= x < 2 ^ 31 -> s32 x = x.
Proof. intro H. unfold s32. destruct (Z.ltb_spec x (2 ^ 31)); [reflexivity | lia]. Qed.

Lemma browser_cursor_ok (down up : bool) (num_entries cur_entry top_entry : Z) :
  0 <= num_entries < 2 ^ 31 ->
  cursor_ok num_entries cur_entry top_entry ->
  cursor_ok num_entries
    (fst (browser_cursor down up num_entries cur_entry top_entry))
    (snd (browser_cursor down up num_entries cur_entry top_entry)).
Proof.
  intros Hnum (Htop & Hwin & Hcur). unfold browser_cursor, cursor_ok in *.
  change (2 ^ 31) with 2147483648 in *.
  assert (H32 : 2 ^ 32 = 4294967296) by reflexivity.
  assert (H31 : 2 ^ 31 = 2147483648) by reflexivity.
  set (cur1 := if down then _ else cur_entry).
  assert (Hc1 : cur_entry <= cur1 <= cur_entry + 1 /\
                (cur1 < num_entries \/ (num_entries = 0 /\ cur1 = 0))).
  { unfold cur1. destruct down; [|lia].
    rewrite (u32_small (cur_entry + 1)) by lia.
    destruct (Z.ltb_spec (cur_entry + 1) num_entries); lia. }
  clearbody cur1.
  set (cur2 := if up then _ else cur1).
  assert (Hc2 : cur1 - 1 <= cur2 <= cur1 /\ 0 <= cur2 /\
                (cur2 < num_entries \/ (num_entries = 0 /\ cur2 = 0))).
  { unfold cur2. destruct up; [|lia].
    destruct (Z.eqb_spec cur1 0); cbn [negb]; [lia|].
    rewrite (u32_small (cur1 - 1)) by lia. lia. }
  clearbody cur2.
  rewrite (s32_small cur2), (s32_small top_entry) by lia.
  set (top1 := if 8 <=? cur2 - top_entry then _ else top_entry).
  assert (Ht1 : 0 <= top1 /\ cur2 <= top1 + 7 /\ top1 <= top_entry + 8 + 1).
  { unfold top1. destruct (Z.leb_spec 8 (cur2 - top_entry)); [|lia].
    rewrite (u32_small (cur2 - 7)) by lia. lia. }
  clearbody top1. cbn [fst snd].
  destruct (Z.ltb_spec cur2 top1); lia.
Qed.

Lemma browser_rows_in_bounds (l : list t_fs_entry) (nument : nat) (top_entry cur_entry : Z)
  (n : nat) (i : Z) :
  terminated l nument -> Z.of_nat nument < 2 ^ 31 ->
  0 <= i -> 0 <= top_entry -> top_entry + i <= Z.of_nat nument ->
  browser_rows n i l top_entry cur_entry <> None.
Proof.
  intros (t & Ht & Hname) Hsmall. revert i; induction n as [|n IH]; intros i Hi Htop Hle.
  - discriminate.
  - cbn [browser_rows].
    change (2 ^ 31) with 2147483648 in Hsmall.
    rewrite (u32_small (top_entry + i)) by (change (2 ^ 32) with 4294967296; lia).
    assert (Hlen : (nument < List.length l)%nat)
      by (apply nth_error_Some; rewrite Ht; discriminate).
    destruct (nth_error l (Z.to_nat (top_entry + i))) as [e|] eqn:He;
      [|apply nth_error_None in He; lia].
    destruct (String.eqb_spec (fn e) EmptyString) as [Hempty | Hfull]; [discriminate|].
    assert (Hlt : top_entry + i < Z.of_nat nument).
    { destruct (Z.eq_dec (top_entry + i) (Z.of_nat nument)) as [Heq | Hne]; [|lia].
      rewrite Heq, Nat2Z.id, Ht in He. injection He as <-. contradiction. }
    specialize (IH (i + 1) ltac:(lia) Htop ltac:(lia)).
    destruct (browser_rows n (i + 1) l top_entry cur_entry); [discriminate | contradiction].
Qed.

(** X21: the file browser stays inside the listing.  For an array that
    ends with an empty name at index [num_entries], as [listdir] returns
    it, and a cursor that fits the directory: the cursor still fits after
    the keys of a frame, whatever they are; the entry under the cursor
    that KEY_A looks at is in the array; and the loop that prints the rows
    never reads past the empty name.  The browser starts with the cursor
    at [0, 0], which fits every directory. *)
Theorem browser_stays_in_listing (l : list t_fs_entry) (nument : nat)
  (down up : bool) (cur_entry top_entry : Z) :
  terminated l nument -> Z.of_nat nument < 2 ^ 31 ->
  cursor_ok (Z.of_nat nument) cur_entry top_entry ->
  cursor_ok (Z.of_nat nument)
    (fst (browser_cursor down up (Z.of_nat nument) cur_entry top_entry))
    (snd (browser_cursor down up (Z.of_nat nument) cur_entry top_entry)) /\
  nth_error l (Z.to_nat cur_entry) <> None /\
  browser_rows 8 0 l top_entry cur_entry <> None /\
  cursor_ok (Z.of_nat nument) 0 0.
Proof.
  intros Hterm Hsmall Hok. split; [|split; [|split]].
  - apply browser_cursor_ok; [lia | exact Hok].
  - destruct Hterm as (t & Ht & _).
    assert (Hlen : (nument < List.length l)%nat)
      by (apply nth_error_Some; rewrite Ht; discriminate).
    apply nth_error_Some. destruct Hok as (H1 & H2 & H3). lia.
  - destruct Hok as (H1 & H2 & H3).
    apply (browser_rows_in_bounds l nument); [exact Hterm | exact Hsmall | lia | lia | lia].
  - unfold cursor_ok. lia.
Qed.

Lemma browser_stays_in_listing_witness :
  terminated sample_listing 3 /\ Z.of_nat 3 < 2 ^ 31 /\
  cursor_ok (Z.of_nat 3) 2 0 /\
  (cursor_ok (Z.of_nat 3)
     (fst (browser_cursor true false (Z.of_nat 3) 2 0))
     (snd (browser_cursor true false (Z.of_nat 3) 2 0)) /\
   nth_error sample_listing (Z.to_nat 2) <> None /\
   browser_rows 8 0 sample_listing 0 2 <> None /\
   cursor_ok (Z.of_nat 3) 0 0).
Proof.
  assert (Ht : terminated sample_listing 3)
    by (exists (FsEntry "" false); split; reflexivity).
  assert (Hs : Z.of_nat 3 < 2 ^ 31) by reflexivity.
  assert (Hc : cursor_ok (Z.of_nat 3) 2 0) by (unfold cursor_ok; cbn; lia).
  split; [exact Ht | split; [exact Hs | split; [exact Hc|]]].
  apply (browser_stays_in_listing sample_listing 3 true false 2 0 Ht Hs Hc).
Defined.

(** The rows printed for [sample_listing] with the cursor on its last
    entry, and the cursor staying there when KEY_DOWN is pressed. *)
Lemma browser_sample :
  browser_rows 8 0 sample_listing 0 2 =
    Some [ (false, "a.bin"%string); (false, "roms/"%string); (true, "superfw.gba"%string) ] /\
  browser_cursor true false 3 2 0 = (2, 0) /\
  browser_cursor false true 3 0 0 = (0, 0) /\
  browser_cursor true false 20 7 0 = (8, 1).
Proof. repeat split. Qed.

(** ** The main menu *)

(** X22: the selection of the main menu stays one of the four entries 0
    to 3 whatever keys are pressed, so the [switch] always finds its case;
    KEY_DOWN goes round from 3 to 0 and KEY_UP, through the wrap-around of
    [unsigned], from 0 to 3; both in one frame leave the selection where
    it was. *)
Theorem menu_step_cycles (down up : bool) (menu_sel : Z) :
  0 <= menu_sel <= 3 ->
  0 <= menu_step down up menu_sel <= 3 /\
  menu_step true false menu_sel = (menu_sel + 1) mod 4 /\
  menu_step false true menu_sel = (menu_sel + 3) mod 4 /\
  menu_step true true menu_sel = menu_sel /\
  menu_step false false menu_sel = menu_sel.
Proof.
  intro H.
  assert (Hc : menu_sel = 0 \/ menu_sel = 1 \/ menu_sel = 2 \/ menu_sel = 3) by lia.
  destruct Hc as [-> | [-> | [-> | ->]]]; destruct down, up; cbn; repeat split; lia.
Qed.

Lemma menu_step_cycles_witness :
  0 <= 0 <= 3 /\
  (0 <= menu_step false true 0 <= 3 /\
   menu_step true false 0 = (0 + 1) mod 4 /\
   menu_step false true 0 = (0 + 3) mod 4 /\
   menu_step true true 0 = 0 /\
   menu_step false false 0 = 0).
Proof.
  split; [lia | apply (menu_step_cycles false true 0); lia].
Defined.

(* ================================================================== *)
(** * Selecting and flashing an image *)

#[global] Hint Rewrite @loads_of_app @loads_of_read @loads_of_write @loads_of_sleep
  @loads_of_load @loads_of_nil @loads_of_handshake : buslog.

Section SelectFacts.

Context {device : Type} {cartridge : Cartridge device}.

Local Open Scope bus_scope.

Lemma loads_of_repeat_write (md i v : Z) (n : nat) :
  loads_of (repeat (EvWrite md i v) n) = [].
Proof.
  induction n as [|n IH]; [reflexivity|].
  cbn [repeat]. rewrite loads_of_write. exact IH.
Qed.

Lemma loads_of_poll_events (md : Z) (pairs : list (Z * Z)) :
  loads_of (rev (poll_events md pairs)) = [].
Proof.
  unfold loads_of. rewrite rev_involutive.
  induction pairs as [|p ps IH]; [reflexivity | exact IH].
Qed.

Lemma loads_of_read_events (md i : Z) (vs : list Z) :
  loads_of (rev (read_events md i vs)) = [].
Proof.
  unfold loads_of. rewrite rev_involutive.
  revert i; induction vs as [|v vs IH]; intro i; [reflexivity | apply IH].
Qed.

(** [flash_erase] and [flash_erase_check] take nothing from a buffer. *)
Lemma flash_erase_loads (m : machine device) :
  loads_of (trace (snd (flash_erase m))) = loads_of (trace m).
Proof.
  change (wp flash_erase (fun _ m' => loads_of (trace m') = loads_of (trace m)) m).
  unfold flash_erase. repeat bus_step.
  autorewrite with buslog.
  rewrite ?loads_of_repeat_write, ?loads_of_poll_events. autorewrite with buslog.
  reflexivity.
Qed.

Lemma flash_erase_check_loads (m : machine device) :
  loads_of (trace (snd (flash_erase_check m))) = loads_of (trace m).
Proof.
  change (wp flash_erase_check (fun _ m' => loads_of (trace m') = loads_of (trace m)) m).
  unfold flash_erase_check. do 8 bus_step. bus_step.
  apply (wp_erase_check_loop FLASH_WORDS 0 0); [reflexivity|].
  intros vs d1 errf _. repeat bus_step.
  autorewrite with buslog. rewrite ?loads_of_read_events. autorewrite with buslog.
  reflexivity.
Qed.

(** [flash_validate] returns in write-enabled mode with the bus taken. *)
Lemma flash_validate_exit (fwimg : Z -> Z) (fwsize : Z) (m : machine device) :
  sd_mode (snd (flash_validate fwimg fwsize m)) = 4 /\
  owner (snd (flash_validate fwimg fwsize m)) = BUS_OWNER_ARM9.
Proof.
  change (wp (flash_validate fwimg fwsize)
            (fun _ m' => sd_mode m' = 4 /\ owner m' = BUS_OWNER_ARM9) m).
  unfold flash_validate. repeat bus_step. split; [reflexivity|].
  apply (owner_set BUS_OWNER_ARM9 m).
Qed.

(** Every operation leaves its mark in the log. *)
Lemma flash_erase_logged (m : machine device) : trace (snd (flash_erase m)) <> [].
Proof.
  change (wp flash_erase (fun _ m' => trace m' <> []) m).
  unfold flash_erase. repeat bus_step. discriminate.
Qed.

(** ** The flashing block *)

Section Block.

Variables erase check write validate : M device bool.

Lemma flash_block_outcomes (m : machine device) :
  (forall m0, sd_mode (snd (erase m0)) = 0 /\ owner (snd (erase m0)) = owner m0 /\
              loads_of (trace (snd (erase m0))) = loads_of (trace m0)) ->
  (forall m0, sd_mode (snd (check m0)) = 0 /\ owner (snd (check m0)) = owner m0 /\
              loads_of (trace (snd (check m0))) = loads_of (trace m0)) ->
  (forall m0, sd_mode (snd (validate m0)) = 4 /\
              owner (snd (validate m0)) = BUS_OWNER_ARM9) ->
  let printed := fst (flash_block erase check write validate m) in
  let m' := snd (flash_block erase check write validate m) in
  ((printed = [ErasingFlash; EraseFailed] \/
    printed = [ErasingFlash; EraseComplete; EraseValidationFailed]) /\
   sd_mode m' = 0 /\ owner m' = owner m /\
   loads_of (trace m') = loads_of (trace m)) \/
  ((exists written valid : bool,
      printed = [ ErasingFlash; EraseComplete; WritingFlash;
                  if written then FlashedOk else FlashingFailed;
                  Verifying;
                  if valid then ValidationPassed else ValidationError ]) /\
   sd_mode m' = 4 /\ owner m' = BUS_OWNER_ARM9).
Proof.
  intros He Hc Hv. cbv zeta. unfold flash_block. rewrite bind_run.
  destruct (He m) as (He1 & He2 & He3).
  destruct (fst (erase m)); cbn [negb].
  - rewrite bind_run.
    destruct (Hc (snd (erase m))) as (Hc1 & Hc2 & Hc3).
    destruct (fst (check (snd (erase m)))).
    + left. cbn [ret fst snd]. split; [right; reflexivity|].
      repeat split; congruence.
    + rewrite bind_run, bind_run. cbn [ret fst snd]. right. split.
      * eexists _, _. reflexivity.
      * apply Hv.
  - left. cbn [ret fst snd]. split; [left; reflexivity|]. repeat split; assumption.
Qed.

Lemma flash_block_logged (m : machine device) :
  (forall m0, trace (snd (erase m0)) <> []) ->
  (forall m0, trace (snd (check m0)) <> []) ->
  (forall m0, trace (snd (validate m0)) <> []) ->
  trace (snd (flash_block erase check write validate m)) <> [].
Proof.
  intros He Hc Hv. unfold flash_block. rewrite bind_run.
  destruct (fst (erase m)); cbn [negb]; [|apply He].
  rewrite bind_run.
  destruct (fst (check (snd (erase m)))); [apply Hc|].
  rewrite bind_run, bind_run. apply Hv.
Qed.

End Block.

Lemma select_image_flash_is (fwimg : Z -> Z) (st_size : Z) :
  select_image_flash fwimg st_size =
  flash_block flash_erase flash_erase_check
    (flash_write fwimg st_size) (flash_validate fwimg st_size).
Proof. unfold select_image_flash, flash_block. reflexivity. Qed.


(** ** The checks before the flash is touched *)

Lemma select_image_wait_run (frames : list (bool * bool)) (fwimg : Z -> Z) (st_size : Z)
  (m : machine device) :
  select_image_wait frames fwimg st_size m =
  if armed frames
  then ((fst (select_image_flash fwimg st_size m), true),
        snd (select_image_flash fwimg st_size m))
  else (([], decided frames), m).
Proof.
  induction frames as [|[key_b keys_lra] rest IH]; [reflexivity|].
  cbn [select_image_wait armed]. destruct key_b; [reflexivity|].
  destruct keys_lra.
  - rewrite bind_run. reflexivity.
  - rewrite IH. reflexivity.
Qed.

Lemma flash_erase_check_logged (m : machine device) :
  trace (snd (flash_erase_check m)) <> [].
Proof.
  change (wp flash_erase_check (fun _ m' => trace m' <> []) m).
  unfold flash_erase_check. repeat bus_step. discriminate.
Qed.

Lemma flash_validate_logged (fwimg : Z -> Z) (fwsize : Z) (m : machine device) :
  trace (snd (flash_validate fwimg fwsize m)) <> [].
Proof.
  change (wp (flash_validate fwimg fwsize) (fun _ m' => trace m' <> []) m).
  unfold flash_validate. repeat bus_step.
  destruct (rev (read_events _ 0 vs)); discriminate.
Qed.

Lemma select_image_flash_logged (fwimg : Z -> Z) (st_size : Z) (m : machine device) :
  trace (snd (select_image_flash fwimg st_size m)) <> [].
Proof.
  rewrite select_image_flash_is. apply flash_block_logged.
  - apply flash_erase_logged.
  - apply flash_erase_check_logged.
  - apply flash_validate_logged.
Qed.

(** X24: [select_image] touches the cartridge only for an image that
    has passed every check and on the three keys: the flash commands are
    sent exactly when [stat] succeeds, the file is not bigger than 512
    KiB, it opens and is read in full, [valid_header] accepts it, and L,
    R and A are held in a frame before any in which KEY_B goes down.  In
    every other case the machine is left exactly as it was. *)
Theorem select_image_interlocks (host : byte_order) (st : option Z) (fopen_ok : bool)
  (fread_ret : Z) (fwimg : Z -> Z) (frames : list (bool * bool)) (e md : Z) (d : device) :
  let m0 := Machine e md d [] in
  let m' := snd (select_image host st fopen_ok fread_ret fwimg frames m0) in
  (trace m' <> [] <->
   exists st_size,
     st = Some st_size /\ st_size <= 512 * 1024 /\ fopen_ok = true /\
     fread_ret = st_size /\ valid_header host fwimg = true /\ armed frames = true) /\
  (trace m' = [] -> m' = m0).
Proof.
  intros m0 m'. subst m' m0. unfold select_image.
  destruct st as [st_size|];
    [|split; [split; [intro H; exfalso; apply H; reflexivity
                     | intros (s & Hs & _); discriminate Hs]
             | reflexivity]].
  destruct (Z.ltb_spec (512 * 1024) st_size) as [Hbig | Hfits].
  { split; [split; [intro H; exfalso; apply H; reflexivity
                   | intros (s & Hs & Hle & _); injection Hs as <-; lia]
           | reflexivity]. }
  destruct fopen_ok; cbn [negb].
  2: { split; [split; [intro H; exfalso; apply H; reflexivity
                      | intros (s & _ & _ & Hf & _); discriminate Hf]
              | reflexivity]. }
  destruct (Z.eqb_spec fread_ret st_size) as [Hread | Hshort]; cbn [negb].
  2: { split; [split; [intro H; exfalso; apply H; reflexivity
                      | intros (s & Hs & _ & _ & Hr & _); injection Hs as <-; contradiction]
              | reflexivity]. }
  cbv zeta.
  destruct (valid_header host fwimg) eqn:Hvalid; cbn [negb].
  2: { split; [split; [intro H; exfalso; apply H; reflexivity
                      | intros (s & _ & _ & _ & _ & Hv & _); discriminate Hv]
              | reflexivity]. }
  rewrite bind_run, select_image_wait_run.
  pose proof (select_image_flash_logged fwimg st_size (Machine e md d [])) as Hlog.
  revert Hlog. generalize (select_image_flash fwimg st_size (Machine e md d [])).
  intros p Hlog.
  destruct (armed frames) eqn:Harmed; cbn [fst snd ret].
  - split.
    + split; [intros _; exists st_size; repeat split; auto|].
      intros _. exact Hlog.
    + intro H. exfalso. exact (Hlog H).
  - split; [split; [intro H; exfalso; apply H; reflexivity
                   | intros (s & _ & _ & _ & _ & _ & Ha); discriminate Ha]
           | reflexivity].
Qed.

End SelectFacts.

(* ================================================================== *)
(** * The operations on the model of the flash chip *)

(** ** Steps that keep track of the device *)

Section DeviceSteps.

Context {device : Type} {cartridge : Cartridge device}.

Lemma wp_rd_exact (i : Z) (Q : Z -> machine device -> Prop) m :
  Q (fst (dev_read (cart m) i))
    (Machine (exmemcnt m) (sd_mode m) (snd (dev_read (cart m) i))
       (EvRead (sd_mode m) i (fst (dev_read (cart m) i)) :: trace m)) ->
  wp (rd i) Q m.
Proof. unfold wp, rd. destruct (dev_read (cart m) i); auto. Qed.

Lemma wp_set_mode_exact (a : Z) (w s : bool) (Q : unit -> machine device -> Prop) m :
  Q tt (Machine (exmemcnt m) (mode_value a w s)
          (dev_write (dev_write (dev_write (dev_write (cart m)
             REG_SD_MODE MODESWITCH_MAGIC) REG_SD_MODE MODESWITCH_MAGIC)
             REG_SD_MODE (mode_value a w s)) REG_SD_MODE (mode_value a w s))
          (handshake (sd_mode m) (mode_value a w s) ++ trace m)) ->
  wp (set_supercard_mode a w s) Q m.
Proof. auto. Qed.

Lemma wp_times_wr_exact (n : nat) (i v : Z) (Q : unit -> machine device -> Prop) m :
  Q tt (Machine (exmemcnt m) (sd_mode m)
          (Nat.iter n (fun d => dev_write d i v) (cart m))
          (repeat (EvWrite (sd_mode m) i v) n ++ trace m)) ->
  wp (times n (wr i v)) Q m.
Proof.
  revert m; induction n as [|n IH]; intros m H.
  - destruct m; exact H.
  - cbn [times]. apply wp_bind, wp_wr, IH. cbn [exmemcnt sd_mode cart trace].
    replace (Nat.iter n (fun d => dev_write d i v) (dev_write (cart m) i v))
      with (Nat.iter (S n) (fun d => dev_write d i v) (cart m))
      by (apply Nat.iter_succ_r).
    replace (repeat (EvWrite (sd_mode m) i v) n ++ EvWrite (sd_mode m) i v :: trace m)
      with (repeat (EvWrite (sd_mode m) i v) (S n) ++ trace m); [exact H|].
    change (EvWrite (sd_mode m) i v :: trace m) with ([EvWrite (sd_mode m) i v] ++ trace m).
    rewrite app_assoc. f_equal.
    change [EvWrite (sd_mode m) i v] with (repeat (EvWrite (sd_mode m) i v) 1).
    rewrite <- repeat_app. f_equal. lia.
Qed.

End DeviceSteps.

(** ** The chip, command by command *)

Lemma nor_outside (d : nor_flash) (v : Z) : dev_write d REG_SD_MODE v = d.
Proof. reflexivity. Qed.

Lemma nor_reset (c : Z -> Z) : dev_write (NorFlash c NorRead) 0 0x00F0 = NorFlash c NorRead.
Proof. reflexivity. Qed.

Lemma nor_resets (c : Z -> Z) (n : nat) :
  Nat.iter n (fun d => dev_write d 0 0x00F0) (NorFlash c NorRead) = NorFlash c NorRead.
Proof. induction n as [|n IH]; [reflexivity|]. rewrite Nat.iter_succ, IH. apply nor_reset. Qed.

Lemma nor_leave_autoselect (c : Z -> Z) (n : nat) :
  Nat.iter (S n) (fun d => dev_write d 0 0x00F0) (NorFlash c NorAutoselect) = NorFlash c NorRead.
Proof.
  rewrite Nat.iter_succ_r.
  change (dev_write (NorFlash c NorAutoselect) 0 0x00F0) with (NorFlash c NorRead).
  apply nor_resets.
Qed.

Lemma nor_unlock1 (c : Z -> Z) :
  dev_write (NorFlash c NorRead) (addr_perm 0x555) 0x00AA = NorFlash c NorUnlocked1.
Proof. reflexivity. Qed.

Lemma nor_unlock2 (c : Z -> Z) :
  dev_write (NorFlash c NorUnlocked1) (addr_perm 0x2AA) 0x0055 = NorFlash c NorUnlocked2.
Proof. reflexivity. Qed.

Lemma nor_autoselect (c : Z -> Z) :
  dev_write (NorFlash c NorUnlocked2) (addr_perm 0x555) 0x0090 = NorFlash c NorAutoselect.
Proof. reflexivity. Qed.

Lemma nor_program_setup (c : Z -> Z) :
  dev_write (NorFlash c NorUnlocked2) (addr_perm 0x555) 0x00A0 = NorFlash c NorProgram.
Proof. reflexivity. Qed.

Lemma nor_erase_setup (c : Z -> Z) :
  dev_write (NorFlash c NorUnlocked2) (addr_perm 0x555) 0x0080 = NorFlash c NorErase.
Proof. reflexivity. Qed.

Lemma nor_erase_unlock1 (c : Z -> Z) :
  dev_write (NorFlash c NorErase) (addr_perm 0x555) 0x00AA = NorFlash c NorEraseUnlocked1.
Proof. reflexivity. Qed.

Lemma nor_erase_unlock2 (c : Z -> Z) :
  dev_write (NorFlash c NorEraseUnlocked1) (addr_perm 0x2AA) 0x0055 =
  NorFlash c NorEraseUnlocked2.
Proof. reflexivity. Qed.

Lemma nor_chip_erase (c : Z -> Z) :
  dev_write (NorFlash c NorEraseUnlocked2) (addr_perm 0x555) 0x0010 =
  NorFlash (fun _ => 0xFFFF) NorRead.
Proof. reflexivity. Qed.

Lemma nor_read_id0 (c : Z -> Z) :
  dev_read (NorFlash c NorAutoselect) (addr_perm 0x000) =
  (NOR_MANUFACTURER, NorFlash c NorAutoselect).
Proof. reflexivity. Qed.

Lemma nor_read_id1 (c : Z -> Z) :
  dev_read (NorFlash c NorAutoselect) (addr_perm 0x001) =
  (NOR_DEVICE, NorFlash c NorAutoselect).
Proof. reflexivity. Qed.

Lemma nor_read_cell (c : Z -> Z) (i : Z) :
  0 <= i < NOR_WORDS ->
  dev_read (NorFlash c NorRead) i = (c (addr_unperm i), NorFlash c NorRead).
Proof.
  intro Hi. cbn [dev_read nor_cart]. unfold nor_read.
  replace ((0 <=? i) && (i <? NOR_WORDS)) with true; [reflexivity|].
  symmetry. apply andb_true_intro. split; [apply Z.leb_le | apply Z.ltb_lt]; lia.
Qed.

Lemma nor_program (c : Z -> Z) (i v : Z) :
  0 <= i < NOR_WORDS ->
  dev_write (NorFlash c NorProgram) i v =
  NorFlash (fun x => if x =? addr_unperm i then Z.land (c x) v else c x) NorRead.
Proof.
  intro Hi. cbn [dev_write nor_cart]. unfold nor_write.
  replace ((0 <=? i) && (i <? NOR_WORDS)) with true; [reflexivity|].
  symmetry. apply andb_true_intro. split; [apply Z.leb_le | apply Z.ltb_lt]; lia.
Qed.

#[global] Create Rewrite HintDb nor.

#[global] Hint Rewrite nor_outside nor_reset nor_resets nor_leave_autoselect
  nor_unlock1 nor_unlock2 nor_autoselect nor_program_setup nor_erase_setup
  nor_erase_unlock1 nor_erase_unlock2 nor_chip_erase nor_read_id0 nor_read_id1 : nor.

Ltac nor_step :=
  lazymatch goal with
  | |- wp (bind _ _) _ _ => apply wp_bind
  | |- wp (ret _) _ _ => apply wp_ret
  | |- wp (wr _ _) _ _ => apply wp_wr
  | |- wp (rd _) _ _ => apply wp_rd_exact
  | |- wp (load _ _) _ _ => apply wp_load
  | |- wp sleep_1ms _ _ => apply wp_sleep
  | |- wp (exmemcnt_or _) _ _ => apply wp_exmemcnt_or
  | |- wp sysGetCartOwner _ _ => apply wp_get_owner
  | |- wp (sysSetCartOwner _) _ _ => apply wp_set_owner_exact
  | |- wp (set_supercard_mode _ _ _) _ _ => apply wp_set_mode_exact
  | |- wp (times _ (wr _ _)) _ _ => apply wp_times_wr_exact
  end;
  cbv beta zeta; cbn [exmemcnt sd_mode cart trace dev_sleep nor_cart] in *;
  autorewrite with nor; cbn [fst snd].

(** X27: on the model of the chip, [flash_ident] gets the identification
    of the chip, manufacturer in the high and device in the low half, and
    leaves the chip reading its array again with its content untouched. *)
Theorem flash_ident_on_nor_flash (e md : Z) (cells : Z -> Z) (t : list event) :
  let '(r, m') := flash_ident (Machine e md (NorFlash cells NorRead) t) in
  r = NOR_MANUFACTURER * 2 ^ 16 + NOR_DEVICE /\
  cart m' = NorFlash cells NorRead.
Proof.
  apply wp_let. unfold flash_ident. repeat nor_step.
  split; reflexivity.
Qed.

(** ** Erasing *)

Lemma ERASE_BUDGET_succ : exists n, ERASE_BUDGET = S n.
Proof.
  assert (H : Z.of_nat ERASE_BUDGET = 60000) by (vm_compute; reflexivity).
  exists (Nat.pred ERASE_BUDGET). lia.
Qed.

Lemma WRITE_BUDGET_succ : exists n, WRITE_BUDGET = S n.
Proof.
  assert (H : Z.of_nat WRITE_BUDGET = 32768) by (vm_compute; reflexivity).
  exists (Nat.pred WRITE_BUDGET). lia.
Qed.

Lemma FLASH_WORDS_NOR : Z.of_nat FLASH_WORDS = NOR_WORDS.
Proof.
  vm_compute. reflexivity.
Qed.

Lemma nor_erase_poll (n : nat) (c : Z -> Z) (Q : unit -> machine nor_flash -> Prop)
  (e md : Z) (t : list event) :
  (forall t', Q tt (Machine e md (NorFlash c NorRead) t')) ->
  wp (erase_poll (S n)) Q (Machine e md (NorFlash c NorRead) t).
Proof.
  intro H. cbn [erase_poll]. nor_step. nor_step. nor_step. nor_step.
  rewrite nor_read_cell by (vm_compute; split; congruence). cbn [fst snd].
  nor_step. nor_step.
  rewrite nor_read_cell by (vm_compute; split; congruence). cbn [fst snd].
  rewrite Z.eqb_refl. nor_step. apply H.
Qed.

Lemma nor_write_poll (n : nat) (c : Z -> Z) (Q : unit -> machine nor_flash -> Prop)
  (e md : Z) (t : list event) :
  (forall t', Q tt (Machine e md (NorFlash c NorRead) t')) ->
  wp (write_poll (S n)) Q (Machine e md (NorFlash c NorRead) t).
Proof.
  intro H. cbn [write_poll]. nor_step. nor_step.
  rewrite nor_read_cell by (vm_compute; split; congruence). cbn [fst snd].
  nor_step. nor_step.
  rewrite nor_read_cell by (vm_compute; split; congruence). cbn [fst snd].
  rewrite Z.eqb_refl. nor_step. apply H.
Qed.

(** [flash_erase] on the chip: success, and every cell reads [FFFF]. *)
Lemma nor_flash_erase (e md : Z) (c : Z -> Z) (t : list event) :
  fst (flash_erase (Machine e md (NorFlash c NorRead) t)) = true /\
  cart (snd (flash_erase (Machine e md (NorFlash c NorRead) t))) =
    NorFlash (fun _ => 0xFFFF) NorRead.
Proof.
  change (wp flash_erase
            (fun r m' => r = true /\ cart m' = NorFlash (fun _ => 0xFFFF) NorRead)
            (Machine e md (NorFlash c NorRead) t)).
  unfold flash_erase. destruct ERASE_BUDGET_succ as [n ->].
  do 22 nor_step. nor_step.
  apply nor_erase_poll. intro t'. do 2 nor_step.
  rewrite nor_read_cell by (vm_compute; split; congruence). cbn [fst snd].
  do 2 nor_step.
  rewrite nor_read_cell by (vm_compute; split; congruence). cbn [fst snd].
  repeat nor_step. split; reflexivity.
Qed.

(** ** Checking the erase *)

Lemma nor_erase_check_loop (n : nat) (j : Z) (c : Z -> Z)
  (Q : bool -> machine nor_flash -> Prop) (e md : Z) (t : list event) :
  0 <= j -> j + Z.of_nat n <= NOR_WORDS ->
  (forall k, j <= k < j + Z.of_nat n -> c (addr_unperm k) = 0xFFFF) ->
  (forall t', Q false (Machine e md (NorFlash c NorRead) t')) ->
  wp (erase_check_loop n (2 * j)) Q (Machine e md (NorFlash c NorRead) t).
Proof.
  revert j t; induction n as [|n IH]; intros j t Hj Hn Hc H.
  - apply H.
  - cbn [erase_check_loop]. nor_step.
    replace (2 * j / 2) with j by (rewrite Z.mul_comm, Z.div_mul; lia).
    nor_step. rewrite nor_read_cell by lia. cbn [fst snd].
    rewrite (Hc j) by lia. cbn [Z.eqb Pos.eqb negb].
    replace (2 * j + 2) with (2 * (j + 1)) by lia.
    apply IH; [lia | lia | | exact H].
    intros k Hk. apply Hc. lia.
Qed.

(** [flash_erase_check] on an erased chip: clean. *)
Lemma nor_flash_erase_check (e md : Z) (c : Z -> Z) (t : list event) :
  (forall k, 0 <= k < NOR_WORDS -> c (addr_unperm k) = 0xFFFF) ->
  fst (flash_erase_check (Machine e md (NorFlash c NorRead) t)) = false /\
  cart (snd (flash_erase_check (Machine e md (NorFlash c NorRead) t))) = NorFlash c NorRead.
Proof.
  intro Hc.
  change (wp flash_erase_check
            (fun r m' => r = false /\ cart m' = NorFlash c NorRead)
            (Machine e md (NorFlash c NorRead) t)).
  unfold flash_erase_check. do 8 nor_step. nor_step.
  apply (nor_erase_check_loop FLASH_WORDS 0); [lia | rewrite FLASH_WORDS_NOR; lia | |].
  - intros k Hk. apply Hc. rewrite FLASH_WORDS_NOR in Hk. lia.
  - intro t'. repeat nor_step. split; reflexivity.
Qed.

(** ** Programming *)

Lemma word_at_16 (buf : Z -> Z) (i : Z) : Z.land 0xFFFF (word_at buf i) = word_at buf i.
Proof. unfold word_at, u16. rewrite Z.land_comm, <- Z.land_assoc. reflexivity. Qed.

Lemma nor_write_word (buf : Z -> Z) (j : Z) (c : Z -> Z)
  (Q : bool -> machine nor_flash -> Prop) (e md : Z) (t : list event) :
  0 <= j < NOR_WORDS -> c (addr_unperm j) = 0xFFFF ->
  (forall c' t',
     (forall x, c' x = if x =? addr_unperm j then word_at buf (2 * j) else c x) ->
     Q false (Machine e md (NorFlash c' NorRead) t')) ->
  wp (flash_write_word buf (2 * j)) Q (Machine e md (NorFlash c NorRead) t).
Proof.
  intros Hj Hc H. unfold flash_write_word. destruct WRITE_BUDGET_succ as [n ->].
  replace (2 * j / 2) with j by (rewrite Z.mul_comm, Z.div_mul; lia).
  do 11 nor_step. nor_step. rewrite nor_program by exact Hj.
  set (c' := fun x => if x =? addr_unperm j then Z.land (c x) _ else c x).
  assert (Hc' : forall x, c' x = if x =? addr_unperm j then word_at buf (2 * j) else c x).
  { intro x. unfold c'. destruct (Z.eqb_spec x (addr_unperm j)) as [-> | Hne]; [|reflexivity].
    rewrite Hc. apply word_at_16. }
  clearbody c'.
  nor_step. apply nor_write_poll. intro t'.
  do 2 nor_step. rewrite nor_read_cell by (vm_compute; split; congruence). cbn [fst snd].
  do 2 nor_step. rewrite nor_read_cell by (vm_compute; split; congruence). cbn [fst snd].
  rewrite Z.eqb_refl. cbn [negb]. do 4 nor_step.
  rewrite nor_read_cell by exact Hj. cbn [fst snd].
  rewrite Hc', Z.eqb_refl. nor_step.
  change (u16 (Z.lor (buf (2 * j)) (Z.shiftl (buf (2 * j + 1)) 8))) with (word_at buf (2 * j)).
  rewrite Z.eqb_refl. cbn [negb]. apply H. exact Hc'.
Qed.

Lemma addr_unperm_inj (j k : Z) :
  0 <= j < NOR_WORDS -> 0 <= k < NOR_WORDS -> addr_unperm k = addr_unperm j -> k = j.
Proof.
  intros Hj Hk H.
  assert (Hw : NOR_WORDS < 2 ^ 32) by reflexivity.
  rewrite <- (addr_perm_unperm k), <- (addr_perm_unperm j) by lia. rewrite H. reflexivity.
Qed.

Lemma nor_write_loop (buf : Z -> Z) (n : nat) (j : Z) (c : Z -> Z)
  (Q : bool -> machine nor_flash -> Prop) (e md : Z) (t : list event) :
  0 <= j -> j + Z.of_nat n <= NOR_WORDS ->
  (forall k, j <= k < j + Z.of_nat n -> c (addr_unperm k) = 0xFFFF) ->
  (forall c' t',
     (forall k, 0 <= k < NOR_WORDS ->
        c' (addr_unperm k) =
        if (j <=? k) && (k <? j + Z.of_nat n) then word_at buf (2 * k)
        else c (addr_unperm k)) ->
     Q true (Machine e md (NorFlash c' NorRead) t')) ->
  wp (flash_write_loop n buf (2 * j)) Q (Machine e md (NorFlash c NorRead) t).
Proof.
  revert j c t; induction n as [|n IH]; intros j c t Hj Hn Hc H.
  - apply H. intros k Hk.
    destruct (Z.leb_spec j k), (Z.ltb_spec k (j + Z.of_nat 0)); cbn [andb]; try reflexivity.
    lia.
  - cbn [flash_write_loop]. nor_step.
    apply nor_write_word; [lia | apply Hc; lia|]. intros c1 t1 Hc1. cbv beta.
    replace (2 * j + 2) with (2 * (j + 1)) by lia.
    apply IH; [lia | lia | |].
    + intros k Hk. rewrite Hc1.
      destruct (Z.eqb_spec (addr_unperm k) (addr_unperm j)) as [Heq | Hne].
      * apply addr_unperm_inj in Heq; lia.
      * apply Hc. lia.
    + intros c' t' Hc'. apply H. intros k Hk. rewrite (Hc' k Hk).
      destruct (Z.eq_dec k j) as [-> | Hne].
      * replace ((j + 1 <=? j) && (j <? j + 1 + Z.of_nat n)) with false
          by (symmetry; apply andb_false_intro1, Z.leb_gt; lia).
        replace ((j <=? j) && (j <? j + Z.of_nat (S n))) with true
          by (symmetry; apply andb_true_intro; split;
              [apply Z.leb_le | apply Z.ltb_lt]; lia).
        rewrite Hc1, Z.eqb_refl. reflexivity.
      * replace ((j <=? k) && (k <? j + Z.of_nat (S n)))
          with ((j + 1 <=? k) && (k <? j + 1 + Z.of_nat n)).
        2: { destruct (Z.leb_spec (j + 1) k), (Z.ltb_spec k (j + 1 + Z.of_nat n)),
               (Z.leb_spec j k), (Z.ltb_spec k (j + Z.of_nat (S n)));
             cbn [andb]; try reflexivity; lia. }
        destruct ((j + 1 <=? k) && (k <? j + 1 + Z.of_nat n)); [reflexivity|].
        rewrite Hc1.
        destruct (Z.eqb_spec (addr_unperm k) (addr_unperm j)) as [Heq | Hn'];
          [|reflexivity].
        apply addr_unperm_inj in Heq; [contradiction | lia | lia].
Qed.

(** [flash_write] on a chip erased where the image goes: success, and the
    half-words of the window hold the image. *)
Lemma nor_flash_write (buf : Z -> Z) (size e md : Z) (c : Z -> Z) (t : list event) :
  (size + 1) / 2 <= NOR_WORDS ->
  (forall k, 0 <= k < (size + 1) / 2 -> c (addr_unperm k) = 0xFFFF) ->
  fst (flash_write buf size (Machine e md (NorFlash c NorRead) t)) = true /\
  exists c',
    cart (snd (flash_write buf size (Machine e md (NorFlash c NorRead) t))) =
      NorFlash c' NorRead /\
    forall k, 0 <= k < NOR_WORDS ->
      c' (addr_unperm k) =
      if k <? (size + 1) / 2 then word_at buf (2 * k) else c (addr_unperm k).
Proof.
  intros Hn Hc.
  change (wp (flash_write buf size)
            (fun r m' => r = true /\
               exists c', cart m' = NorFlash c' NorRead /\
                 forall k, 0 <= k < NOR_WORDS ->
                   c' (addr_unperm k) =
                   if k <? (size + 1) / 2 then word_at buf (2 * k) else c (addr_unperm k))
            (Machine e md (NorFlash c NorRead) t)).
  assert (Hpos : 0 < NOR_WORDS) by reflexivity.
  unfold flash_write. do 10 nor_step. nor_step.
  apply (nor_write_loop buf (Z.to_nat ((size + 1) / 2)) 0); [lia | lia | |].
  - intros k Hk. apply Hc. lia.
  - intros c' t' Hc'. repeat nor_step. split; [reflexivity|].
    exists c'. split; [reflexivity|]. intros k Hk. rewrite (Hc' k Hk).
    destruct (Z.leb_spec 0 k), (Z.ltb_spec k (0 + Z.of_nat (Z.to_nat ((size + 1) / 2)))),
      (Z.ltb_spec k ((size + 1) / 2)); cbn [andb]; try reflexivity; lia.
Qed.

(** ** Reading back *)

Lemma nor_read_window (n : nat) (i : Z) (c : Z -> Z)
  (Q : list Z -> machine nor_flash -> Prop) (e md : Z) (t : list event) :
  0 <= i -> i + Z.of_nat n <= NOR_WORDS ->
  (forall t',
     Q (flat_map bytes_le16 (map (fun k => c (addr_unperm k)) (upfrom i n)))
       (Machine e md (NorFlash c NorRead) t')) ->
  wp (read_window n i) Q (Machine e md (NorFlash c NorRead) t).
Proof.
  revert i t Q; induction n as [|n IH]; intros i t Q Hi Hn H.
  - apply H.
  - cbn [read_window]. do 2 nor_step. rewrite nor_read_cell by lia. cbn [fst snd].
    nor_step. apply IH; [lia | lia |]. intro t'. nor_step. apply H.
Qed.

Lemma word_bytes (buf : Z -> Z) (i : Z) :
  0 <= buf i < 256 -> 0 <= buf (i + 1) < 256 ->
  bytes_le16 (word_at buf i) = [buf i; buf (i + 1)].
Proof.
  intros H0 H1. unfold bytes_le16, word_at, u16.
  assert (Hlow : Z.land (Z.land (Z.lor (buf i) (Z.shiftl (buf (i + 1)) 8)) 0xFFFF) 0xFF = buf i).
  { rewrite <- Z.land_assoc. change (Z.land 0xFFFF 0xFF) with (Z.ones 8).
    rewrite Z.land_ones, Z.shiftl_mul_pow2 by lia.
    rewrite lor_plus.
    - rewrite Z.mod_add by (change (2 ^ 8) with 256; lia). apply Z.mod_small.
      change (2 ^ 8) with 256. lia.
    - apply Z.bits_inj'. intros n Hn. rewrite Z.land_spec, Z.testbit_0_l.
      destruct (Z_lt_le_dec n 8) as [Hlt | Hge].
      + rewrite Z.mul_pow2_bits_low by lia. apply andb_false_r.
      + rewrite (testbit_small (buf i) 8) by (change (2 ^ 8) with 256; lia). reflexivity. }
  assert (Hhigh : Z.land (Z.shiftr (Z.land (Z.lor (buf i) (Z.shiftl (buf (i + 1)) 8)) 0xFFFF) 8)
                    0xFF = buf (i + 1)).
  { apply Z.bits_inj'. intros n Hn.
    rewrite Z.land_spec, Z.shiftr_spec, Z.land_spec, Z.lor_spec, Z.shiftl_spec by lia.
    replace (n + 8 - 8) with n by lia.
    rewrite (testbit_small (buf i) 8 ltac:(change (2 ^ 8) with 256; lia) ltac:(lia) (n + 8))
      by lia.
    cbn [orb].
    destruct (Z_lt_le_dec n 8) as [Hlt | Hge].
    - assert (Hc : n = 0 \/ n = 1 \/ n = 2 \/ n = 3 \/ n = 4 \/ n = 5 \/ n = 6 \/ n = 7) by lia.
      repeat (destruct Hc as [-> | Hc]); try subst n; cbn; rewrite !andb_true_r; reflexivity.
    - rewrite (testbit_small (buf (i + 1)) 8) by (change (2 ^ 8) with 256; lia).
      reflexivity. }
  rewrite Hlow, Hhigh. reflexivity.
Qed.

Lemma bytes_equal_words (buf : Z -> Z) (n : nat) (j : Z) (m : nat) :
  (forall o, 0 <= buf o < 256) -> (m <= 2 * n)%nat ->
  bytes_equal buf (2 * j)
    (flat_map bytes_le16 (map (fun k => word_at buf (2 * k)) (upfrom j n))) m = true.
Proof.
  intro Hb. revert j m; induction n as [|n IH]; intros j m Hm.
  - destruct m; [reflexivity | lia].
  - cbn [upfrom map flat_map]. rewrite word_bytes by apply Hb. cbn [app].
    destruct m as [|[|m]]; [reflexivity | |].
    + cbn [bytes_equal]. rewrite Z.eqb_refl. reflexivity.
    + cbn [bytes_equal]. rewrite !Z.eqb_refl. cbn [andb].
      replace (2 * j + 1 + 1) with (2 * (j + 1)) by lia. apply IH. lia.
Qed.

(** [flash_validate] on a chip that holds the image: true. *)
Lemma nor_flash_validate (buf : Z -> Z) (size e md : Z) (c : Z -> Z) (t : list event) :
  (forall o, 0 <= buf o < 256) -> (size + 1) / 2 <= NOR_WORDS ->
  (forall k, 0 <= k < (size + 1) / 2 -> c (addr_unperm k) = word_at buf (2 * k)) ->
  fst (flash_validate buf size (Machine e md (NorFlash c NorRead) t)) = true /\
  cart (snd (flash_validate buf size (Machine e md (NorFlash c NorRead) t))) =
    NorFlash c NorRead.
Proof.
  intros Hb Hn Hc.
  assert (Hpos : 0 < NOR_WORDS) by reflexivity.
  change (wp (flash_validate buf size)
            (fun r m' => r = true /\ cart m' = NorFlash c NorRead)
            (Machine e md (NorFlash c NorRead) t)).
  unfold flash_validate. do 6 nor_step. nor_step.
  apply nor_read_window; [lia | lia|]. intro t'. nor_step.
  split; [|reflexivity].
  assert (Hmap : map (fun k => c (addr_unperm k)) (upfrom 0 (Z.to_nat ((size + 1) / 2))) =
                 map (fun k => word_at buf (2 * k)) (upfrom 0 (Z.to_nat ((size + 1) / 2)))).
  { apply map_ext_in. intros k Hk. apply Hc.
    assert (Hin : forall n i x, In x (upfrom i n) -> i <= x < i + Z.of_nat n).
    { clear. induction n as [|n IH]; intros i x Hx; [contradiction|].
      cbn [upfrom In] in Hx. destruct Hx as [<- | Hx]; [lia|].
      apply IH in Hx. lia. }
    apply Hin in Hk. lia. }
  rewrite Hmap. change 0 with (2 * 0) at 1. apply bytes_equal_words; [exact Hb|].
  destruct (Z_lt_le_dec size 0) as [Hneg | Hge].
  - assert (Z.to_nat size = O) by lia. lia.
  - assert (size <= 2 * ((size + 1) / 2)) by (Z.div_mod_to_equations; lia).
    assert (0 <= (size + 1) / 2) by (apply Z.div_pos; lia). lia.
Qed.

(** ** The whole flashing block *)

Lemma flash_block_success {device : Type} (erase check write validate : M device bool)
  (m m1 m2 m3 m4 : machine device) :
  erase m = (true, m1) -> check m1 = (false, m2) ->
  write m2 = (true, m3) -> validate m3 = (true, m4) ->
  flash_block erase check write validate m =
  ([ErasingFlash; EraseComplete; WritingFlash; FlashedOk; Verifying; ValidationPassed], m4).
Proof.
  intros H1 H2 H3 H4. unfold flash_block.
  rewrite bind_run, H1. cbn [fst snd negb].
  rewrite bind_run, H2. cbn [fst snd].
  rewrite bind_run, H3. cbn [fst snd].
  rewrite bind_run, H4. reflexivity.
Qed.

Lemma nor_select_image_flash (buf : Z -> Z) (size e md : Z) (cells : Z -> Z)
  (t : list event) :
  (forall o, 0 <= buf o < 256) -> 0 <= size <= 512 * 1024 ->
  exists (c' : Z -> Z) (e' md' : Z) (t' : list event),
    select_image_flash buf size (Machine e md (NorFlash cells NorRead) t) =
      ([ErasingFlash; EraseComplete; WritingFlash; FlashedOk; Verifying; ValidationPassed],
       Machine e' md' (NorFlash c' NorRead) t') /\
    forall k, 0 <= k < NOR_WORDS ->
      c' (addr_unperm k) = if k <? (size + 1) / 2 then word_at buf (2 * k) else 0xFFFF.
Proof.
  intros Hb Hsize.
  assert (Hn : (size + 1) / 2 <= NOR_WORDS).
  { change NOR_WORDS with 262144. Z.div_mod_to_equations. lia. }
  (* erase *)
  destruct (nor_flash_erase e md cells t) as [He1 He2].
  remember (flash_erase (Machine e md (NorFlash cells NorRead) t)) as r1 eqn:E1.
  destruct r1 as [ok1 [e1 md1 d1 t1]]. cbn [fst snd cart] in He1, He2. subst ok1 d1.
  (* erase check *)
  destruct (nor_flash_erase_check e1 md1 (fun _ => 0xFFFF) t1 ltac:(reflexivity))
    as [Hc1 Hc2].
  remember (flash_erase_check (Machine e1 md1 (NorFlash (fun _ => 0xFFFF) NorRead) t1))
    as r2 eqn:E2.
  destruct r2 as [errf [e2 md2 d2 t2]]. cbn [fst snd cart] in Hc1, Hc2. subst errf d2.
  (* program *)
  destruct (nor_flash_write buf size e2 md2 (fun _ => 0xFFFF) t2 Hn ltac:(reflexivity))
    as [Hw1 (c' & Hw2 & Hcells)].
  remember (flash_write buf size (Machine e2 md2 (NorFlash (fun _ => 0xFFFF) NorRead) t2))
    as r3 eqn:E3.
  destruct r3 as [written [e3 md3 d3 t3]]. cbn [fst snd cart] in Hw1, Hw2. subst written d3.
  (* compare *)
  assert (Himg : forall k, 0 <= k < (size + 1) / 2 -> c' (addr_unperm k) = word_at buf (2 * k)).
  { intros k Hk. rewrite Hcells by lia.
    destruct (Z.ltb_spec k ((size + 1) / 2)); [reflexivity | lia]. }
  destruct (nor_flash_validate buf size e3 md3 c' t3 Hb Hn Himg) as [Hv1 Hv2].
  remember (flash_validate buf size (Machine e3 md3 (NorFlash c' NorRead) t3)) as r4 eqn:E4.
  destruct r4 as [valid [e4 md4 d4 t4]]. cbn [fst snd cart] in Hv1, Hv2. subst valid d4.
  exists c', e4, md4, t4. split; [|exact Hcells].
  rewrite select_image_flash_is.
  apply (flash_block_success _ _ _ _ _ _ _ _ _
           (eq_sym E1) (eq_sym E2) (eq_sym E3) (eq_sym E4)).
Qed.

Lemma ramp_image_bytes : forall o, 0 <= ramp_image o < 256.
Proof. intro o. unfold ramp_image. apply Z.mod_pos_bound. reflexivity. Qed.

(** ** Reading the chip back *)

Lemma upfrom_in (n : nat) (i x : Z) : In x (upfrom i n) -> i <= x < i + Z.of_nat n.
Proof.
  revert i; induction n as [|n IH]; intros i Hx; [contradiction|].
  cbn [upfrom In] in Hx. destruct Hx as [<- | Hx]; [lia|].
  apply IH in Hx. lia.
Qed.

Lemma upfrom_app (a b : nat) (i : Z) :
  upfrom i (a + b) = upfrom i a ++ upfrom (i + Z.of_nat a) b.
Proof.
  revert i; induction a as [|a IH]; intro i.
  - cbn [upfrom app Nat.add]. f_equal. cbn. lia.
  - cbn [upfrom app Nat.add]. rewrite IH. do 3 f_equal. lia.
Qed.

Lemma image_bytes (buf : Z -> Z) (n : nat) (j : Z) :
  (forall o, 0 <= buf o < 256) ->
  flat_map bytes_le16 (map (fun k => word_at buf (2 * k)) (upfrom j n)) =
  map buf (upfrom (2 * j) (2 * n)).
Proof.
  intro Hb. revert j; induction n as [|n IH]; intro j; [reflexivity|].
  replace (2 * S n)%nat with (S (S (2 * n))) by lia.
  cbn [upfrom map flat_map]. rewrite word_bytes by apply Hb. rewrite IH.
  replace (2 * (j + 1)) with (2 * j + 1 + 1) by lia. reflexivity.
Qed.

Lemma erased_bytes (n : nat) (j : Z) :
  flat_map bytes_le16 (map (fun _ : Z => 0xFFFF) (upfrom j n)) = repeat 0xFF (2 * n).
Proof.
  revert j; induction n as [|n IH]; intro j; [reflexivity|].
  replace (2 * S n)%nat with (S (S (2 * n))) by lia.
  cbn [upfrom map flat_map repeat]. rewrite IH. reflexivity.
Qed.

Lemma nor_flash_dump (e md : Z) (c : Z -> Z) (t : list event) :
  fst (flash_dump true (Machine e md (NorFlash c NorRead) t)) =
    (true, Some (flat_map bytes_le16 (map (fun k => c (addr_unperm k)) (upfrom 0 FLASH_WORDS)))) /\
  cart (snd (flash_dump true (Machine e md (NorFlash c NorRead) t))) = NorFlash c NorRead.
Proof.
  change (wp (flash_dump true)
            (fun r m' =>
               r = (true, Some (flat_map bytes_le16
                                  (map (fun k => c (addr_unperm k)) (upfrom 0 FLASH_WORDS)))) /\
               cart m' = NorFlash c NorRead)
            (Machine e md (NorFlash c NorRead) t)).
  unfold flash_dump. do 7 nor_step.
  apply nor_read_window; [lia | rewrite FLASH_WORDS_NOR; lia|]. intro t'.
  repeat nor_step. split; reflexivity.
Qed.

(** X28: flashing works on the model of the chip.  For every image of
    bytes of at most 512 KiB and whatever the chip held before, the
    flashing block of [select_image] erases, finds the chip clean,
    programs, compares and reports success at every step; afterwards the
    half-words the program finds in the window are those of the image,
    low byte first, and [FFFF] after the image. *)
Theorem flashing_on_nor_flash (buf : Z -> Z) (size e md : Z) (cells : Z -> Z)
  (t : list event) :
  (forall o, 0 <= buf o < 256) -> 0 <= size <= 512 * 1024 ->
  let r := select_image_flash buf size (Machine e md (NorFlash cells NorRead) t) in
  fst r = [ErasingFlash; EraseComplete; WritingFlash; FlashedOk; Verifying;
           ValidationPassed] /\
  exists c',
    cart (snd r) = NorFlash c' NorRead /\
    forall k, 0 <= k < NOR_WORDS ->
      c' (addr_unperm k) = if k <? (size + 1) / 2 then word_at buf (2 * k) else 0xFFFF.
Proof.
  intros Hb Hsize. cbv zeta.
  destruct (nor_select_image_flash buf size e md cells t Hb Hsize)
    as (c' & e' & md' & t' & -> & Hcells).
  cbn [fst snd cart]. split; [reflexivity|].
  exists c'. split; [reflexivity | exact Hcells].
Qed.

Lemma flashing_on_nor_flash_witness :
  (forall o, 0 <= ramp_image o < 256) /\ 0 <= 6 <= 512 * 1024 /\
  (let r := select_image_flash ramp_image 6 (Machine 0 0 (NorFlash (fun _ => 0) NorRead) []) in
   fst r = [ErasingFlash; EraseComplete; WritingFlash; FlashedOk; Verifying;
            ValidationPassed] /\
   exists c',
     cart (snd r) = NorFlash c' NorRead /\
     forall k, 0 <= k < NOR_WORDS ->
       c' (addr_unperm k) = if k <? (6 + 1) / 2 then word_at ramp_image (2 * k) else 0xFFFF).
Proof.
  assert (Hs : 0 <= 6 <= 512 * 1024) by lia.
  split; [exact ramp_image_bytes | split; [exact Hs|]].
  apply (flashing_on_nor_flash ramp_image 6 0 0 (fun _ => 0) [] ramp_image_bytes Hs).
Defined.

(** X29: what is flashed is what a dump gives back.  On the model of the
    chip, [flash_dump] after the flashing block of [select_image] succeeds
    and the 512 KiB it writes to the file are the bytes of the image (one
    more when the size is odd) followed by [FF] up to the end. *)
Theorem flash_dump_after_flashing (buf : Z -> Z) (size e md : Z) (cells : Z -> Z)
  (t : list event) :
  (forall o, 0 <= buf o < 256) -> 0 <= size <= 512 * 1024 ->
  let flashed := snd (select_image_flash buf size (Machine e md (NorFlash cells NorRead) t)) in
  fst (flash_dump true flashed) =
    (true, Some (map buf (upfrom 0 (Z.to_nat (2 * ((size + 1) / 2)))) ++
                 repeat 0xFF (Z.to_nat (512 * 1024 - 2 * ((size + 1) / 2))))) /\
  cart (snd (flash_dump true flashed)) = cart flashed.
Proof.
  intros Hb Hsize. cbv zeta.
  assert (Hw : 0 <= (size + 1) / 2 <= 262144) by (Z.div_mod_to_equations; lia).
  assert (Hsplit : FLASH_WORDS =
                   (Z.to_nat ((size + 1) / 2) + Z.to_nat (262144 - (size + 1) / 2))%nat).
  { apply Nat2Z.inj. rewrite FLASH_WORDS_NOR. change NOR_WORDS with 262144. lia. }
  destruct (nor_select_image_flash buf size e md cells t Hb Hsize)
    as (c' & e1 & md1 & t1 & -> & Hcells).
  change NOR_WORDS with 262144 in Hcells.
  cbn [snd cart].
  destruct (nor_flash_dump e1 md1 c' t1) as [Hdata Hchip].
  rewrite Hdata, Hchip. clear Hdata Hchip. split; [|reflexivity]. do 2 f_equal.
  rewrite Hsplit, upfrom_app, map_app, flat_map_app. f_equal.
  - rewrite (map_ext_in _ (fun k => word_at buf (2 * k))).
    + rewrite image_bytes by exact Hb.
      replace (Z.to_nat (2 * ((size + 1) / 2))) with (2 * Z.to_nat ((size + 1) / 2))%nat
        by lia.
      reflexivity.
    + intros k Hk. apply upfrom_in in Hk. rewrite Hcells by lia.
      destruct (Z.ltb_spec k ((size + 1) / 2)); [reflexivity | lia].
  - rewrite (map_ext_in _ (fun _ => 0xFFFF)).
    + rewrite erased_bytes. f_equal. lia.
    + intros k Hk. apply upfrom_in in Hk. rewrite Hcells by lia.
      destruct (Z.ltb_spec k ((size + 1) / 2)); [lia | reflexivity].
Qed.

Lemma flash_dump_after_flashing_witness :
  (forall o, 0 <= ramp_image o < 256) /\ 0 <= 6 <= 512 * 1024 /\
  (let flashed :=
     snd (select_image_flash ramp_image 6 (Machine 0 0 (NorFlash (fun _ => 0) NorRead) [])) in
   fst (flash_dump true flashed) =
     (true, Some (map ramp_image (upfrom 0 (Z.to_nat (2 * ((6 + 1) / 2)))) ++
                  repeat 0xFF (Z.to_nat (512 * 1024 - 2 * ((6 + 1) / 2))))) /\
   cart (snd (flash_dump true flashed)) = cart flashed).
Proof.
  assert (Hs : 0 <= 6 <= 512 * 1024) by lia.
  split; [exact ramp_image_bytes | split; [exact Hs|]].
  apply (flash_dump_after_flashing ramp_image 6 0 0 (fun _ => 0) [] ramp_image_bytes Hs).
Defined.

